(** * Rotonde client: definitions store, handler manager, client orchestration

    A shallow embedding of [src/Rotonde-Client-babel.js].

    Conventions of the embedding.
    - JavaScript objects used as dictionaries ([definitionsByIdentifier],
      the properties written on [handlers]) are finite maps over strings.
      Identifiers range over strings that are not names of properties
      inherited from [Object.prototype] or [Map.prototype]; a lookup is a
      lookup of an own property.
    - Objects are compared by value where the source compares references;
      every stored object is reached through one reference only, so both
      agree on the states the program builds.
    - [console.log] calls are not part of the model. *)

From stdpp Require Import base strings list gmap.
From Stdlib Require Import ZArith Lia.

Set Warnings "-clear-no-such-hyp".

Open Scope Z_scope.

(** ** Data model *)

(** A field of a definition: [{ name, ...attributes }]. *)
Record Field := mkField {
  name : string;
  attributes : list (string * string)
}.

#[global] Instance Field_eq_dec : EqDecision Field.
Proof. solve_decision. Defined.

(** A definition: [{ identifier, type, fields }]; [type] is ['action'] or
    ['event'] for the definitions the client itself builds, and whatever the
    peer wrote for the ones it receives.  A missing [fields] member is the
    empty sequence here. *)
Record Definition_ := mkDefinition {
  identifier : string;
  type : string;
  fields : list Field
}.

#[global] Instance Definition_eq_dec : EqDecision Definition_.
Proof. solve_decision. Defined.

(** The JavaScript values that meet in the comparisons of the store: the
    stored definitions and the identifier handed to [removeDefinition]. *)
Inductive value :=
  | VString (s : string)
  | VDefinition (d : Definition_).

(** [===]: values of different types are never equal. *)
Definition strict_equals (a b : value) : bool :=
  match a, b with
  | VString s, VString t => bool_decide (s = t)
  | VDefinition d, VDefinition e => bool_decide (d = e)
  | _, _ => false
  end.

(** ** The lodash functions the client calls *)
Module Lodash.

(** [_.indexOf(array, value)]: index of the first element strictly equal
    to [value], [-1] when there is none. *)
Fixpoint indexOf_from (i : Z) (array : list value) (v : value) : Z :=
  match array with
  | [] => -1
  | x :: rest => if strict_equals x v then i else indexOf_from (i + 1) rest v
  end.

Definition indexOf (array : list value) (v : value) : Z :=
  indexOf_from 0 array v.

(** [_.uniq(array, iteratee)]: keeps the first element of every class of
    elements with the same [iteratee] value. *)
Fixpoint uniq_seen {A K : Type} `{EqDecision K} (iteratee : A → K)
    (seen : list K) (array : list A) : list A :=
  match array with
  | [] => []
  | x :: rest =>
      if bool_decide (iteratee x ∈ seen) then uniq_seen iteratee seen rest
      else x :: uniq_seen iteratee (iteratee x :: seen) rest
  end.

Definition uniq {A K : Type} `{EqDecision K} (array : list A)
    (iteratee : A → K) : list A :=
  uniq_seen iteratee [] array.

(** [_.union(...arrays)]: the values of the arrays, each kept once, in
    order of first occurrence. *)
Definition union {A : Type} `{EqDecision A} (arrays : list (list A)) : list A :=
  uniq (concat arrays) (λ x, x).

(** [_.indexBy(collection, 'identifier')]: an object keyed by the
    [identifier] of each element; a later element replaces an earlier one
    under the same key. *)
Definition indexBy (collection : list Definition_) : gmap string Definition_ :=
  foldl (λ m d, <[identifier d := d]> m) ∅ collection.

(** [_.compact(array)]: drops the falsy elements ([undefined] here). *)
Definition compact {A : Type} (array : list (option A)) : list A :=
  omap (λ x, x) array.

End Lodash.

(** ** [newDefinitionsStore] *)
Module DefinitionsStore.

(** The two variables the closure holds. *)
Record t := mk {
  definitions : list Definition_;
  definitionsByIdentifier : gmap string Definition_
}.

Definition new : t := {| definitions := []; definitionsByIdentifier := ∅ |}.

(** [forEach(fn)] visits [definitions] in order. *)
Definition forEach (s : t) : list Definition_ := definitions s.

(** [getDefinition]: the indexed definition, [None] for [undefined]. *)
Definition getDefinition (s : t) (id : string) : option Definition_ :=
  definitionsByIdentifier s !! id.

(** [definitions[index] = definition]: with a negative [index] the
    assignment writes a property that is no element of the array. *)
Definition array_set (array : list Definition_) (index : Z)
    (definition : Definition_) : list Definition_ :=
  if 0 <=? index then <[Z.to_nat index := definition]> array else array.

(** [addDefinition] writes the merged list into the object it was given
    ([definition.fields = fields]) and stores that object: the result is
    the store and the object [definition] as the caller sees it after the
    call. *)
Definition addDefinition (s : t) (definition : Definition_) : t * Definition_ :=
  match definitionsByIdentifier s !! identifier definition with
  | Some d =>
      let index := Lodash.indexOf (VDefinition <$> definitions s) (VDefinition d) in
      let fields' := Lodash.uniq (Lodash.union [fields d; fields definition]) name in
      let definition' :=
        {| identifier := identifier definition;
           type := type definition;
           fields := fields' |} in
      let definitions' := array_set (definitions s) index definition' in
      ({| definitions := definitions';
          definitionsByIdentifier := Lodash.indexBy definitions' |},
       definition')
  | None =>
      let definitions' := definitions s ++ [definition] in
      ({| definitions := definitions';
          definitionsByIdentifier := Lodash.indexBy definitions' |},
       definition)
  end.

(** [removeDefinition]: the index is looked up with the identifier itself
    as the searched value. *)
Definition removeDefinition (s : t) (id : string) : t :=
  let index := Lodash.indexOf (VDefinition <$> definitions s) (VString id) in
  if index <? 0 then s
  else
    let definitions' := delete (Z.to_nat index) (definitions s) in
    {| definitions := definitions';
       definitionsByIdentifier := Lodash.indexBy definitions' |}.

End DefinitionsStore.

(** ** Computations with state, a log of effects and exceptions *)

(** The exceptions the embedded code can raise. *)
Inductive error :=
  | TypeError      (* a member of [undefined] is read or called *)
  | SyntaxError.   (* [JSON.parse] rejects its input *)

(** How a computation ends.  [OutOfFuel] is no outcome of the program: it
    marks a loop of the embedding that was not given enough steps. *)
Inductive completion (A : Type) :=
  | Normal (a : A)
  | Throw (e : error)
  | OutOfFuel.

Arguments Normal {A} a.
Arguments Throw {A} e.
Arguments OutOfFuel {A}.

(** A computation over a state [S] that logs effects of type [E]; what was
    written and logged before an exception stays. *)
Definition M (S E A : Type) : Type := S → S * list E * completion A.

Definition ret {S E A} (a : A) : M S E A := λ s, (s, [], Normal a).

Definition bind {S E A B} (m : M S E A) (k : A → M S E B) : M S E B :=
  λ s,
    match m s with
    | (s1, log1, Normal a) =>
        match k a s1 with
        | (s2, log2, r) => (s2, log1 ++ log2, r)
        end
    | (s1, log1, Throw e) => (s1, log1, Throw e)
    | (s1, log1, OutOfFuel) => (s1, log1, OutOfFuel)
    end.

Definition throw {S E A} (e : error) : M S E A := λ s, (s, [], Throw e).
Definition out_of_fuel {S E A} : M S E A := λ s, (s, [], OutOfFuel).
Definition read {S E} : M S E S := λ s, (s, [], Normal s).
Definition write {S E} (s : S) : M S E unit := λ _, (s, [], Normal tt).
Definition emit {S E} (e : E) : M S E unit := λ s, (s, [e], Normal tt).

(** [try { m } catch (e) { ... }]: the exception becomes a value. *)
Definition catch {S E A} (m : M S E A) : M S E (error + A) :=
  λ s,
    match m s with
    | (s1, log1, Normal a) => (s1, log1, Normal (inr a))
    | (s1, log1, Throw e) => (s1, log1, Normal (inl e))
    | (s1, log1, OutOfFuel) => (s1, log1, OutOfFuel)
    end.

(** [m] and then [k], whatever the completion of [m], which is kept. *)
Definition and_then {S E A} (m : M S E A) (k : M S E unit) : M S E A :=
  λ s,
    match m s with
    | (s1, log1, r) =>
        match k s1 with
        | (s2, log2, Normal _) => (s2, log1 ++ log2, r)
        | (s2, log2, Throw e) => (s2, log1 ++ log2, Throw e)
        | (s2, log2, OutOfFuel) => (s2, log1 ++ log2, OutOfFuel)
        end
    end.

(** [xs.map(body)], in order. *)
Fixpoint map_each {S E A B} (xs : list A) (body : A → M S E B) : M S E (list B) :=
  match xs with
  | [] => ret []
  | x :: rest =>
      bind (body x) (λ y, bind (map_each rest body) (λ ys, ret (y :: ys)))
  end.

(** [for x in xs: body x], stopping at the first exception. *)
Fixpoint for_each {S E A} (xs : list A) (body : A → M S E unit) : M S E unit :=
  match xs with
  | [] => ret tt
  | x :: rest => bind (body x) (λ _, for_each rest body)
  end.

(** [m] keeps the invariant [I], however it completes. *)
Definition preserves {S E A} (I : S → Prop) (m : M S E A) : Prop :=
  ∀ s, I s → I (m s).1.1.

Declare Scope comp_scope.
Delimit Scope comp_scope with comp.
Notation "'let*' x := m 'in' k" := (bind m (λ x, k))
  (at level 10, x pattern, m at level 100, k at level 200) : comp_scope.
Notation "m >> k" := (bind m (λ _, k))
  (at level 100, k at level 200, right associativity) : comp_scope.

Local Open Scope comp_scope.

(** ** Payloads, callbacks, promises *)

(** The payload of a packet, which is also what a handler is called with. *)
Inductive Payload :=
  | Message (id : string) (data : string)   (* [{ identifier, data }] *)
  | Def (d : Definition_)                   (* a definition object *)
  | Ident (id : string).                    (* [{ identifier }] *)

Definition payload_identifier (p : Payload) : string :=
  match p with
  | Message id _ => id
  | Def d => identifier d
  | Ident id => id
  end.

(** [payload.type]; [None] is [undefined]. *)
Definition payload_type (p : Payload) : option string :=
  match p with
  | Def d => Some (type d)
  | _ => None
  end.

(** The functions held by a handler manager.  A function of the application
    is opaque: calling it is logged, and it does not call back into the
    client.  [PromiseFn p] is the function [fn] of the [p]-th promise made by
    the manager that holds it. *)
Inductive Callback :=
  | Function_ (n : nat)
  | PromiseFn (p : nat).

#[global] Instance Callback_eq_dec : EqDecision Callback.
Proof. solve_decision. Defined.

#[global] Instance Payload_eq_dec : EqDecision Payload.
Proof. solve_decision. Defined.

Module Promise.

Inductive reason :=
  | Rejection (message : string)   (* [reject(message)] *)
  | Thrown (e : error).            (* an exception in a continuation *)

Inductive state (A : Type) :=
  | Pending
  | Fulfilled (v : A)
  | Rejected (r : reason).

Arguments Pending {A}.
Arguments Fulfilled {A} v.
Arguments Rejected {A} r.

(** [resolve] and [reject] settle a pending promise only. *)
Definition resolve {A} (s : state A) (v : A) : state A :=
  match s with Pending => Fulfilled v | _ => s end.

Definition reject {A} (s : state A) (r : reason) : state A :=
  match s with Pending => Rejected r | _ => s end.

End Promise.

(** The variable [timer] of one [makePromise] call. *)
Inductive Timer :=
  | NotSet     (* still [undefined] *)
  | Armed      (* [setTimeout] was called, nothing happened since *)
  | Cleared    (* [clearTimeout] came first *)
  | Fired.     (* the timeout came first *)

(** What one call of [makePromise] allocates: the promise, the timer and
    the identifier its closures hold. *)
Record Cell := mkCell {
  settled : Promise.state Payload;
  timer : Timer;
  awaited : string
}.

(** [!timeout] is false for a number other than zero. *)
Definition truthy_timeout (timeout : option Z) : bool :=
  match timeout with
  | Some t => negb (t =? 0)
  | None => false
  end.

(** ** [newHandlerManager] *)
Module HandlerManager.

(** One registration: [[callback, callCount]]. *)
Abbreviation entry := (Callback * Z)%type.

(** The state of one manager.  [handlers] is created by [new Map()], and
    the lists are stored on it as properties ([handlers[identifier]]):
    [map_keys] is what [handlers.keys()] enumerates, [properties] the own
    properties of the object, each a list or [undefined] ([None]).
    [promises] are the cells of the calls of [makePromise] so far. *)
Record t := mk {
  map_keys : list string;
  properties : gmap string (option (list entry));
  promises : list Cell
}.

Definition new : t :=
  {| map_keys := []; properties := ∅; promises := [] |}.

(** What a manager does to the world outside: the two hooks given to
    [newHandlerManager] and the calls of functions of the application. *)
Inductive effect :=
  | FirstAdded (identifier : string)
  | LastRemoved (identifier : string)
  | Called (n : nat) (param : Payload).

#[global] Instance effect_eq_dec : EqDecision effect.
Proof. solve_decision. Defined.

Definition R : Type → Type := M t effect.

(** [handlers[identifier]]; [None] is [undefined], for a property that is
    not there as for one that holds [undefined]. *)
Definition get (s : t) (identifier : string) : option (list entry) :=
  default None (properties s !! identifier).

Definition property (identifier : string) : R (option (list entry)) :=
  let* s := read in
  ret (get s identifier).

Definition with_property (s : t) (identifier : string) (v : option (list entry)) : t :=
  {| map_keys := map_keys s;
     properties := <[identifier := v]> (properties s);
     promises := promises s |}.

Definition with_promises (s : t) (cells : list Cell) : t :=
  {| map_keys := map_keys s; properties := properties s; promises := cells |}.

(** [handlers[identifier] = v], also the write through an alias of the
    stored array. *)
Definition set_property (identifier : string) (v : option (list entry)) : R unit :=
  let* s := read in
  write (with_property s identifier v).

Definition set_promises (cells : list Cell) : R unit :=
  let* s := read in
  write (with_promises s cells).

(** [detachAtIndex]; the result is the array [h] after the splice. *)
Definition detachAtIndex (identifier : string) (index : nat) : R (list entry) :=
  let* h := property identifier in
  match h with
  | None => throw TypeError
  | Some h =>
      let h := delete index h in
      set_property identifier (Some h) >>
      if bool_decide (length h = 0%nat) then
        set_property identifier None >>
        emit (LastRemoved identifier) >>
        ret h
      else ret h
  end.

(** [resolve(data)], [reject(reason)] and [clearTimeout(timer)] of the
    [p]-th promise. *)
Definition resolve (p : nat) (data : Payload) : R unit :=
  let* s := read in
  set_promises
    (alter (λ c, {| settled := Promise.resolve (settled c) data;
                    timer := timer c; awaited := awaited c |}) p (promises s)).

Definition reject (p : nat) (message : string) : R unit :=
  let* s := read in
  set_promises
    (alter (λ c, {| settled := Promise.reject (settled c) (Promise.Rejection message);
                    timer := timer c; awaited := awaited c |}) p (promises s)).

Definition set_timer (p : nat) (t' : Timer) : R unit :=
  let* s := read in
  set_promises
    (alter (λ c, {| settled := settled c; timer := t'; awaited := awaited c |})
           p (promises s)).

(** The function [fn] of [makePromise]. *)
Definition fn (p : nat) (data : Payload) : R unit :=
  resolve p data >>
  let* s := read in
  match timer <$> promises s !! p with
  | Some Armed => set_timer p Cleared      (* [clearTimeout] stops the timer *)
  | _ => ret tt                            (* no timer, or one that is over *)
  end.

(** [callback(param)] *)
Definition call (callback : Callback) (param : Payload) : R unit :=
  match callback with
  | Function_ n => emit (Called n param)
  | PromiseFn p => fn p param
  end.

(** The loop of [callHandlers]: [h] is the array read before the loop,
    which stays the stored one while it has elements. *)
Fixpoint callHandlers_loop (fuel : nat) (identifier : string) (param : Payload)
    (i : nat) (h : list entry) : R unit :=
  match fuel with
  | O => out_of_fuel
  | S fuel =>
      match h !! i with
      | None => ret tt
      | Some (callback, callCount) =>
          let* h :=
            if 0 <? callCount then
              let h := <[i := (callback, callCount - 1)]> h in
              set_property identifier (Some h) >>
              if callCount - 1 =? 0 then detachAtIndex identifier i
              else ret h
            else ret h in
          call callback param >>
          callHandlers_loop fuel identifier param (S i) h
      end
  end.

Definition callHandlers (identifier : string) (param : Payload) : R unit :=
  let* h := property identifier in
  match h with
  | Some h => callHandlers_loop (S (length h)) identifier param 0 h
  | None => ret tt
  end.

(** [_.keys(handlers)]: the names of the own properties; the order in
    which JavaScript enumerates them is not modelled. *)
Definition registeredIdentifiers (s : t) : list string :=
  (map_to_list (properties s)).*1.

Definition attach (identifier : string) (callback : Callback)
    (callCount : option Z) : R unit :=
  let callCount := default (-1) callCount in
  let* h := property identifier in
  match h with
  | None =>
      set_property identifier (Some []) >>
      emit (FirstAdded identifier) >>
      set_property identifier (Some [(callback, callCount)])
  | Some h =>
      set_property identifier (Some (h ++ [(callback, callCount)]))
  end.

Fixpoint detach_loop (fuel : nat) (identifier : string) (callback : Callback)
    (i : nat) (h : list entry) : R unit :=
  match fuel with
  | O => out_of_fuel
  | S fuel =>
      match h !! i with
      | None => ret tt
      | Some (cb, _) =>
          let* h :=
            if bool_decide (cb = callback) then detachAtIndex identifier i
            else ret h in
          detach_loop fuel identifier callback (S i) h
      end
  end.

Definition detach (identifier : string) (callback : Callback) : R unit :=
  let* h := property identifier in
  match h with
  | Some h => detach_loop (S (length h)) identifier callback 0 h
  | None => ret tt
  end.

(** The inner loop of [detachAll] reads [handlers[identifier].length]
    before every round. *)
Fixpoint detachAll_loop (fuel : nat) (identifier : string) (i : nat) : R unit :=
  match fuel with
  | O => out_of_fuel
  | S fuel =>
      let* h := property identifier in
      match h with
      | None => throw TypeError
      | Some h =>
          if bool_decide (i < length h)%nat then
            detachAtIndex identifier i >>
            detachAll_loop fuel identifier (S i)
          else ret tt
      end
  end.

(** [detachAll] walks [handlers.keys()]. *)
Definition detachAll : R unit :=
  let* s := read in
  for_each (map_keys s) (λ identifier,
    let* h := property identifier in
    detachAll_loop (S (length (default [] h))) identifier 0).

Definition attachOnce (identifier : string) (callback : Callback) : R unit :=
  attach identifier callback (Some 1).

(** [each(func)] calls [func] on [_.keys(handlers)]. *)
Definition each (s : t) : list string := registeredIdentifiers s.

(** [makePromise]; the result is the number of the promise. *)
Definition makePromise (identifier : string) (timeout : option Z) : R nat :=
  let* s := read in
  let p := length (promises s) in
  set_promises (promises s ++
    [{| settled := Promise.Pending; timer := NotSet; awaited := identifier |}]) >>
  attachOnce identifier (PromiseFn p) >>
  if truthy_timeout timeout then set_timer p Armed >> ret p
  else ret p.

(** The function given to [setTimeout] by the [p]-th [makePromise]. *)
Definition on_timeout (p : nat) (identifier : string) : R unit :=
  detach identifier (PromiseFn p) >>
  reject p ("time out " +:+ identifier).

(** The timer of the [p]-th promise runs out; nothing happens unless it
    is armed. *)
Definition timeout_elapses (p : nat) : R unit :=
  let* s := read in
  match promises s !! p with
  | Some c =>
      match timer c with
      | Armed => set_timer p Fired >> on_timeout p (awaited c)
      | _ => ret tt
      end
  | None => ret tt
  end.

End HandlerManager.

(** ** [newRotondeConnection] *)

(** A packet: [{ type, payload }]. *)
Record Packet := mkPacket {
  packet_type : string;
  packet_payload : Payload
}.

Module RotondeConnection.

Module PACKET_TYPES.
Definition ACTION : string := "action".
Definition EVENT : string := "event".
Definition DEFINITION : string := "def".
Definition UNDEFINITION : string := "undef".
Definition SUBSCRIBE : string := "sub".
Definition UNSUBSCRIBE : string := "unsub".
End PACKET_TYPES.

(** The variable [connected] of one connection. *)
Record t := mk { connected : bool }.

Definition new : t := {| connected := false |}.

(** The packets the six senders hand to [socket.send]. *)
Definition sendEvent (identifier data : string) : Packet :=
  {| packet_type := PACKET_TYPES.EVENT;
     packet_payload := Message identifier data |}.

Definition sendAction (identifier data : string) : Packet :=
  {| packet_type := PACKET_TYPES.ACTION;
     packet_payload := Message identifier data |}.

Definition sendDefinition (definition : Definition_) : Packet :=
  {| packet_type := PACKET_TYPES.DEFINITION;
     packet_payload := Def definition |}.

Definition sendUnDefinition (unDefinition : Definition_) : Packet :=
  {| packet_type := PACKET_TYPES.UNDEFINITION;
     packet_payload := Def unDefinition |}.

Definition sendSubscribe (identifier : string) : Packet :=
  {| packet_type := PACKET_TYPES.SUBSCRIBE;
     packet_payload := Ident identifier |}.

Definition sendUnsubscribe (identifier : string) : Packet :=
  {| packet_type := PACKET_TYPES.UNSUBSCRIBE;
     packet_payload := Ident identifier |}.

End RotondeConnection.

(** ** The client ([module.exports]) *)
Module Client.

(** [{ action: newDefinitionsStore(), event: newDefinitionsStore() }] *)
Record Stores := mkStores {
  action : DefinitionsStore.t;
  event : DefinitionsStore.t
}.

(** [stores[type]]; [None] is [undefined]. *)
Definition store (stores : Stores) (type : string) : option DefinitionsStore.t :=
  if bool_decide (type = "action") then Some (action stores)
  else if bool_decide (type = "event") then Some (event stores)
  else None.

(** [stores[type]] after a call that changed it. *)
Definition set_store (stores : Stores) (type : string)
    (s : DefinitionsStore.t) : Stores :=
  if bool_decide (type = "action") then {| action := s; event := event stores |}
  else if bool_decide (type = "event") then {| action := action stores; event := s |}
  else stores.

(** The four managers. *)
Inductive manager :=
  | EventHandlers
  | ActionHandlers
  | DefinitionHandlers
  | UnDefinitionHandlers.

#[global] Instance manager_eq_dec : EqDecision manager.
Proof. solve_decision. Defined.

(** A promise built by [Promise.all] over promises of one manager,
    possibly with the continuation [bootstrap] chains to it with [then]:
    the actions to send and the events to await.  The promise library
    settles it when the running task is over. *)
Record Composite := mkComposite {
  source : manager;
  waits : list nat;
  continuation : option (list (string * string) * list string * option Z);
  outcome : Promise.state (list Payload)
}.

Record t := mk {
  connection : option nat;                      (* [undefined] before [connect] *)
  connections : list RotondeConnection.t;       (* every connection made so far *)
  localDefinitions : Stores;
  remoteDefinitions : Stores;
  eventHandlers : HandlerManager.t;
  actionHandlers : HandlerManager.t;
  definitionHandlers : HandlerManager.t;
  unDefinitionHandlers : HandlerManager.t;
  readyCallbacks : list nat;
  composites : list Composite
}.

(** What the client does to the world outside. *)
Inductive Event :=
  | Sent (c : nat) (packet : Packet)         (* [socket.send] of connection [c] *)
  | HandlerCalled (n : nat) (param : Payload) (* function [n] called by a manager *)
  | ReadyCalled (n : nat).                    (* ready callback [n] called *)

Definition C : Type → Type := M t Event.

Definition new : t :=
  {| connection := None;
     connections := [];
     localDefinitions := {| action := DefinitionsStore.new; event := DefinitionsStore.new |};
     remoteDefinitions := {| action := DefinitionsStore.new; event := DefinitionsStore.new |};
     eventHandlers := HandlerManager.new;
     actionHandlers := HandlerManager.new;
     definitionHandlers := HandlerManager.new;
     unDefinitionHandlers := HandlerManager.new;
     readyCallbacks := [];
     composites := [] |}.

Definition manager_of (s : t) (m : manager) : HandlerManager.t :=
  match m with
  | EventHandlers => eventHandlers s
  | ActionHandlers => actionHandlers s
  | DefinitionHandlers => definitionHandlers s
  | UnDefinitionHandlers => unDefinitionHandlers s
  end.

Definition set_manager (s : t) (m : manager) (h : HandlerManager.t) : t :=
  {| connection := connection s;
     connections := connections s;
     localDefinitions := localDefinitions s;
     remoteDefinitions := remoteDefinitions s;
     eventHandlers := if bool_decide (m = EventHandlers) then h else eventHandlers s;
     actionHandlers := if bool_decide (m = ActionHandlers) then h else actionHandlers s;
     definitionHandlers :=
       if bool_decide (m = DefinitionHandlers) then h else definitionHandlers s;
     unDefinitionHandlers :=
       if bool_decide (m = UnDefinitionHandlers) then h else unDefinitionHandlers s;
     readyCallbacks := readyCallbacks s;
     composites := composites s |}.

Definition set_connection (s : t) (c : option nat)
    (cs : list RotondeConnection.t) : t :=
  {| connection := c;
     connections := cs;
     localDefinitions := localDefinitions s;
     remoteDefinitions := remoteDefinitions s;
     eventHandlers := eventHandlers s;
     actionHandlers := actionHandlers s;
     definitionHandlers := definitionHandlers s;
     unDefinitionHandlers := unDefinitionHandlers s;
     readyCallbacks := readyCallbacks s;
     composites := composites s |}.

Definition set_localDefinitions (s : t) (stores : Stores) : t :=
  {| connection := connection s;
     connections := connections s;
     localDefinitions := stores;
     remoteDefinitions := remoteDefinitions s;
     eventHandlers := eventHandlers s;
     actionHandlers := actionHandlers s;
     definitionHandlers := definitionHandlers s;
     unDefinitionHandlers := unDefinitionHandlers s;
     readyCallbacks := readyCallbacks s;
     composites := composites s |}.

Definition set_remoteDefinitions (s : t) (stores : Stores) : t :=
  {| connection := connection s;
     connections := connections s;
     localDefinitions := localDefinitions s;
     remoteDefinitions := stores;
     eventHandlers := eventHandlers s;
     actionHandlers := actionHandlers s;
     definitionHandlers := definitionHandlers s;
     unDefinitionHandlers := unDefinitionHandlers s;
     readyCallbacks := readyCallbacks s;
     composites := composites s |}.

Definition set_readyCallbacks (s : t) (callbacks : list nat) : t :=
  {| connection := connection s;
     connections := connections s;
     localDefinitions := localDefinitions s;
     remoteDefinitions := remoteDefinitions s;
     eventHandlers := eventHandlers s;
     actionHandlers := actionHandlers s;
     definitionHandlers := definitionHandlers s;
     unDefinitionHandlers := unDefinitionHandlers s;
     readyCallbacks := callbacks;
     composites := composites s |}.

Definition set_composites (s : t) (cs : list Composite) : t :=
  {| connection := connection s;
     connections := connections s;
     localDefinitions := localDefinitions s;
     remoteDefinitions := remoteDefinitions s;
     eventHandlers := eventHandlers s;
     actionHandlers := actionHandlers s;
     definitionHandlers := definitionHandlers s;
     unDefinitionHandlers := unDefinitionHandlers s;
     readyCallbacks := readyCallbacks s;
     composites := cs |}.

(** [isConnected()]: [connection && connection.isConnected()]; [None] is
    [undefined]. *)
Definition isConnected (s : t) : option bool :=
  match connection s with
  | None => None
  | Some c => Some (default false (RotondeConnection.connected <$> connections s !! c))
  end.

Definition truthy (v : option bool) : bool := default false v.

(** [connection.send...(...)]: reading a member of [undefined] throws. *)
Definition send (packet : Packet) : C unit :=
  let* s := read in
  match connection s with
  | None => throw TypeError
  | Some c => emit (Sent c packet)
  end.

(** The hooks given to the four [newHandlerManager] calls, and the call
    of a function of the application. *)
Definition hook (m : manager) (e : HandlerManager.effect) : C unit :=
  match e with
  | HandlerManager.FirstAdded identifier =>
      match m with
      | EventHandlers =>
          let* s := read in
          if truthy (isConnected s)
          then send (RotondeConnection.sendSubscribe identifier)
          else ret tt
      | _ => ret tt
      end
  | HandlerManager.LastRemoved identifier =>
      match m with
      | EventHandlers =>
          let* s := read in
          if truthy (isConnected s)
          then send (RotondeConnection.sendUnsubscribe identifier)
          else ret tt
      | _ => ret tt
      end
  | HandlerManager.Called n param => emit (HandlerCalled n param)
  end.

(** A method of manager [m] run on the client: the hooks read the
    connection only, which no method of a manager changes, so they are run
    on the effects of the method, in their order. *)
Definition on_manager {A} (m : manager) (r : HandlerManager.R A) : C A :=
  λ s,
    match r (manager_of s m) with
    | (h, effects, result) =>
        match for_each effects (hook m) (set_manager s m h) with
        | (s', log, _) => (s', log, result)
        end
    end.

Definition getRemoteDefinition (s : t) (type identifier : string)
    : completion (option Definition_) :=
  match store (remoteDefinitions s) type with
  | Some d => Normal (DefinitionsStore.getDefinition d identifier)
  | None => Throw TypeError
  end.

Definition getLocalDefinition (s : t) (type identifier : string)
    : completion (option Definition_) :=
  match store (localDefinitions s) type with
  | Some d => Normal (DefinitionsStore.getDefinition d identifier)
  | None => Throw TypeError
  end.

(** [searchDefinitions(definitionsStore, identifier)] *)
Definition searchDefinitions (definitionsStore : Stores) (identifier : string)
    : list Definition_ :=
  Lodash.compact
    [DefinitionsStore.getDefinition (action definitionsStore) identifier;
     DefinitionsStore.getDefinition (event definitionsStore) identifier].

Definition addLocalDefinition (type identifier : string) (fields : list Field)
    : C unit :=
  let definition := {| identifier := identifier; type := type; fields := fields |} in
  let* s := read in
  match store (localDefinitions s) type with
  | None => throw TypeError
  | Some d =>
      let '(d', definition) := DefinitionsStore.addDefinition d definition in
      write (set_localDefinitions s (set_store (localDefinitions s) type d')) >>
      if truthy (isConnected s)
      then send (RotondeConnection.sendDefinition definition)
      else ret tt
  end.

Definition removeLocalDefinition (type identifier : string) : C unit :=
  let* s := read in
  match store (localDefinitions s) type with
  | None => throw TypeError
  | Some d =>
      match DefinitionsStore.getDefinition d identifier with
      | None => ret tt
      | Some definition =>
          let d' := DefinitionsStore.removeDefinition d identifier in
          write (set_localDefinitions s (set_store (localDefinitions s) type d')) >>
          if truthy (isConnected s)
          then send (RotondeConnection.sendUnDefinition definition)
          else ret tt
      end
  end.

(** The function [connect] gives to [newRotondeConnection] as [ready]. *)
Definition ready : C unit :=
  let* s := read in
  for_each (readyCallbacks s) (λ readyCallback, emit (ReadyCalled readyCallback)) >>
  for_each (HandlerManager.each (eventHandlers s)) (λ identifier,
    send (RotondeConnection.sendSubscribe identifier)) >>
  for_each ["action"; "event"] (λ type,
    match store (localDefinitions s) type with
    | Some d =>
        for_each (DefinitionsStore.forEach d) (λ definition,
          send (RotondeConnection.sendDefinition definition))
    | None => throw TypeError
    end).

(** [connect]: a new connection replaces the current one. *)
Definition connect : C unit :=
  let* s := read in
  write (set_connection s (Some (length (connections s)))
           (connections s ++ [RotondeConnection.new])).

(** [socket.onopen] of connection [c]. *)
Definition onopen (c : nat) : C unit :=
  let* s := read in
  write (set_connection s (connection s)
           (<[c := {| RotondeConnection.connected := true |}]> (connections s))) >>
  ready.

(** [handleMessage(event)]: [data] is what [JSON.parse(event.data)]
    gives, [None] when it throws. *)
Definition handleMessage (data : option Packet) : C unit :=
  match data with
  | None => throw SyntaxError
  | Some packet =>
      let* s := read in
      match connection s with
      | None => throw TypeError        (* [connection.PACKET_TYPES] *)
      | Some _ =>
          let payload := packet_payload packet in
          if bool_decide (packet_type packet = RotondeConnection.PACKET_TYPES.EVENT) then
            on_manager EventHandlers
              (HandlerManager.callHandlers (payload_identifier payload) payload)
          else if bool_decide (packet_type packet = RotondeConnection.PACKET_TYPES.ACTION) then
            on_manager ActionHandlers
              (HandlerManager.callHandlers (payload_identifier payload) payload)
          else if bool_decide (packet_type packet = RotondeConnection.PACKET_TYPES.DEFINITION) then
            match payload with
            | Def definition =>
                match store (remoteDefinitions s) (type definition) with
                | None => throw TypeError
                | Some d =>
                    let '(d', definition) := DefinitionsStore.addDefinition d definition in
                    write (set_remoteDefinitions s
                             (set_store (remoteDefinitions s) (type definition) d')) >>
                    on_manager DefinitionHandlers
                      (HandlerManager.callHandlers (identifier definition) (Def definition)) >>
                    if bool_decide (type definition = "event") then
                      let* s := read in
                      if bool_decide (identifier definition ∈
                           HandlerManager.registeredIdentifiers (eventHandlers s))
                      then send (RotondeConnection.sendSubscribe (identifier definition))
                      else ret tt
                    else ret tt
                end
            | _ => throw TypeError     (* [remoteDefinitions[undefined]] *)
            end
          else if bool_decide (packet_type packet = RotondeConnection.PACKET_TYPES.UNDEFINITION) then
            match payload with
            | Def unDefinition =>
                match store (remoteDefinitions s) (type unDefinition) with
                | None => throw TypeError
                | Some d =>
                    let d' := DefinitionsStore.removeDefinition d (identifier unDefinition) in
                    write (set_remoteDefinitions s
                             (set_store (remoteDefinitions s) (type unDefinition) d')) >>
                    on_manager UnDefinitionHandlers
                      (HandlerManager.callHandlers (identifier unDefinition) (Def unDefinition))
                end
            | _ => throw TypeError
            end
          else ret tt
      end
  end.

Definition onReady (callback : nat) : C unit :=
  let* s := read in
  if truthy (isConnected s) then emit (ReadyCalled callback)
  else write (set_readyCallbacks s (readyCallbacks s ++ [callback])).

(** [Promise.all(promises)] over promises of manager [m]; the result is
    the number of the new promise. *)
Definition promise_all (m : manager) (promises : list nat) : C nat :=
  let* s := read in
  write (set_composites s (composites s ++
    [{| source := m; waits := promises; continuation := None;
        outcome := Promise.Pending |}])) >>
  ret (length (composites s)).

(** [q.then(function () { return Promise.all(promises()); })]: the
    promise [then] returns takes the place of [q], which nothing else
    holds. *)
Definition then_ (q : nat) (k : list (string * string) * list string * option Z)
    : C nat :=
  let* s := read in
  write (set_composites s
    (alter (λ c, {| source := source c; waits := waits c;
                    continuation := Some k; outcome := outcome c |})
           q (composites s))) >>
  ret q.

Definition requireDefinitions (identifiers : list string) (timeout : option Z)
    : C nat :=
  let* promises := map_each identifiers (λ identifier,
    on_manager DefinitionHandlers (HandlerManager.makePromise identifier timeout)) in
  promise_all DefinitionHandlers promises.

(** The function [promises] of [bootstrap]; [actions] lists the
    properties of the object given as [actions]. *)
Definition promises (actions : list (string * string)) (events : list string)
    (timeout : option Z) : C (list nat) :=
  let* eventPromises := map_each events (λ identifier,
    on_manager EventHandlers (HandlerManager.makePromise identifier timeout)) in
  for_each actions (λ '(identifier, action),
    send (RotondeConnection.sendAction identifier action)) >>
  ret eventPromises.

(** [missingDefs] of [bootstrap]. *)
Definition missingDefs (s : t) (actions : list (string * string))
    (events defs : list string) : list string :=
  Lodash.uniq
    (List.filter
       (λ identifier,
          bool_decide (length (searchDefinitions (remoteDefinitions s) identifier) = 0%nat))
       (Lodash.union [actions.*1; events; defs]))
    (λ x, x).

Definition bootstrap (actions : list (string * string)) (events defs : list string)
    (timeout : option Z) : C nat :=
  let* s := read in
  let missingDefs := missingDefs s actions events defs in
  if bool_decide (missingDefs ≠ []) then
    let* q := requireDefinitions missingDefs timeout in
    then_ q (actions, events, timeout)
  else
    let* eventPromises := promises actions events timeout in
    promise_all EventHandlers eventPromises.

Definition sendEvent (identifier data : string) : C unit :=
  send (RotondeConnection.sendEvent identifier data).

Definition sendAction (identifier data : string) : C unit :=
  send (RotondeConnection.sendAction identifier data).

(** *** The promise library

    [Promise.all] and [then] belong to the library [promise].  Their
    reactions run when the task that settled a promise is over; a task is
    one call from the application or one event of a socket or timer. *)

(** What [Promise.all] sees in its promises: rejected as soon as one is,
    fulfilled with all the values when all are. *)
Definition all_state (cells : list Cell) (waits : list nat)
    : Promise.state (list Payload) :=
  foldr (λ p acc,
           match settled <$> cells !! p with
           | Some (Promise.Rejected r) => Promise.Rejected r
           | Some (Promise.Fulfilled v) =>
               match acc with
               | Promise.Fulfilled vs => Promise.Fulfilled (v :: vs)
               | other => other
               end
           | _ =>
               match acc with
               | Promise.Rejected r => Promise.Rejected r
               | _ => Promise.Pending
               end
           end)
        (Promise.Fulfilled []) waits.

Definition set_composite (q : nat) (c : Composite) : C unit :=
  let* s := read in
  write (set_composites s (<[q := c]> (composites s))).

(** A pending promise with a continuation: a rejection passes through,
    and once the awaited promises are fulfilled the continuation runs and
    the promise follows [Promise.all] of what it returns; an exception in
    the continuation rejects the promise. *)
Definition settle_then (q : nat) : C unit :=
  let* s := read in
  match composites s !! q with
  | Some c =>
      match outcome c, continuation c with
      | Promise.Pending, Some (actions, events, timeout) =>
          match all_state (HandlerManager.promises (manager_of s (source c))) (waits c) with
          | Promise.Pending => ret tt
          | Promise.Rejected r =>
              set_composite q
                {| source := source c; waits := waits c;
                   continuation := continuation c;
                   outcome := Promise.Rejected r |}
          | Promise.Fulfilled _ =>
              let* r := catch (promises actions events timeout) in
              match r with
              | inr eventPromises =>
                  set_composite q
                    {| source := EventHandlers; waits := eventPromises;
                       continuation := None; outcome := Promise.Pending |}
              | inl e =>
                  set_composite q
                    {| source := source c; waits := waits c;
                       continuation := continuation c;
                       outcome := Promise.Rejected (Promise.Thrown e) |}
              end
          end
      | _, _ => ret tt
      end
  | None => ret tt
  end.

(** A pending [Promise.all] without continuation takes the state of its
    promises. *)
Definition settle_all (q : nat) : C unit :=
  let* s := read in
  match composites s !! q with
  | Some c =>
      match outcome c, continuation c with
      | Promise.Pending, None =>
          set_composite q
            {| source := source c; waits := waits c; continuation := None;
               outcome :=
                 all_state (HandlerManager.promises (manager_of s (source c))) (waits c) |}
      | _, _ => ret tt
      end
  | None => ret tt
  end.

Definition run_reactions : C unit :=
  let* s := read in
  for_each (seq 0 (length (composites s))) (λ q, settle_then q >> settle_all q).

(** *** Tasks *)

(** The calls of the application on the public surface and the events of
    the sockets and timers. *)
Inductive input :=
  | Connect
  | OnReady (callback : nat)
  | AddLocalDefinition (type identifier : string) (fields : list Field)
  | RemoveLocalDefinition (type identifier : string)
  | SendEvent (identifier data : string)
  | SendAction (identifier data : string)
  | Attach (m : manager) (identifier : string) (callback : nat) (callCount : option Z)
  | AttachOnce (m : manager) (identifier : string) (callback : nat)
  | Detach (m : manager) (identifier : string) (callback : nat)
  | DetachAll (m : manager)
  | CallHandlers (m : manager) (identifier : string) (param : Payload)
  | MakePromise (m : manager) (identifier : string) (timeout : option Z)
  | RequireDefinitions (identifiers : list string) (timeout : option Z)
  | Bootstrap (actions : list (string * string)) (events defs : list string)
              (timeout : option Z)
  | SocketOpen (c : nat)
  | SocketMessage (data : option Packet)
  | TimeoutElapses (m : manager) (p : nat).

Definition handler (i : input) : C unit :=
  match i with
  | Connect => connect
  | OnReady callback => onReady callback
  | AddLocalDefinition type identifier fields =>
      addLocalDefinition type identifier fields
  | RemoveLocalDefinition type identifier => removeLocalDefinition type identifier
  | SendEvent identifier data => sendEvent identifier data
  | SendAction identifier data => sendAction identifier data
  | Attach m identifier callback callCount =>
      on_manager m (HandlerManager.attach identifier (Function_ callback) callCount)
  | AttachOnce m identifier callback =>
      on_manager m (HandlerManager.attachOnce identifier (Function_ callback))
  | Detach m identifier callback =>
      on_manager m (HandlerManager.detach identifier (Function_ callback))
  | DetachAll m => on_manager m HandlerManager.detachAll
  | CallHandlers m identifier param =>
      on_manager m (HandlerManager.callHandlers identifier param)
  | MakePromise m identifier timeout =>
      on_manager m (HandlerManager.makePromise identifier timeout) >> ret tt
  | RequireDefinitions identifiers timeout =>
      requireDefinitions identifiers timeout >> ret tt
  | Bootstrap actions events defs timeout =>
      bootstrap actions events defs timeout >> ret tt
  | SocketOpen c =>
      (* a socket opens once, and only one that [connect] made *)
      let* s := read in
      match connections s !! c with
      | Some {| RotondeConnection.connected := false |} => onopen c
      | _ => ret tt
      end
  | SocketMessage data =>
      (* messages come over a socket that [connect] made *)
      let* s := read in
      match connection s with
      | Some _ => handleMessage data
      | None => ret tt
      end
  | TimeoutElapses m p => on_manager m (HandlerManager.timeout_elapses p)
  end.

(** One task: the handler, then the reactions of the promise library. *)
Definition task (i : input) : C unit := and_then (handler i) run_reactions.

(** A sequence of tasks; an exception ends its task only. *)
Fixpoint run (inputs : list input) (s : t) : t * list Event :=
  match inputs with
  | [] => (s, [])
  | i :: rest =>
      match task i s with
      | (s1, log1, _) =>
          match run rest s1 with
          | (s2, log2) => (s2, log1 ++ log2)
          end
      end
  end.

End Client.

(** ** Invariants used by the statements *)

(** The index of a store is the one its last mutation built. *)
Definition store_consistent (s : DefinitionsStore.t) : Prop :=
  DefinitionsStore.definitionsByIdentifier s
  = Lodash.indexBy (DefinitionsStore.definitions s).

(** [connect] has not been called: there is no connection. *)
Definition no_connection (s : Client.t) : Prop := Client.connection s = None.

(** ** Data of the examples *)

Definition example_other : Definition_ :=
  {| identifier := "other"; type := "event"; fields := [] |}.

Definition example_D1 : Definition_ :=
  {| identifier := "a"; type := "action";
     fields := [mkField "x" [("t", "1")]; mkField "y" [("t", "2")]] |}.

Definition example_D2 : Definition_ :=
  {| identifier := "a"; type := "event";
     fields := [mkField "y" [("t", "3")]; mkField "z" [("t", "4")]] |}.

(** A [def] packet and an [event] packet as the peer sends them. *)
Definition def_packet (identifier type : string) : Packet :=
  RotondeConnection.sendDefinition
    {| identifier := identifier; type := type; fields := [] |}.

Definition event_packet (identifier data : string) : Packet :=
  RotondeConnection.sendEvent identifier data.

(** A manager with a handler to call once followed by a permanent one. *)
Definition example_once_then_permanent : HandlerManager.t :=
  ((HandlerManager.attach "e" (Function_ 0) (Some 1) >>
    HandlerManager.attach "e" (Function_ 1) None) HandlerManager.new).1.1.

(** A manager with one permanent handler. *)
Definition example_one_handler : HandlerManager.t :=
  (HandlerManager.attach "e" (Function_ 0) None HandlerManager.new).1.1.

(** A manager on which [makePromise("e", 50)] was called twice. *)
Definition example_two_promises : HandlerManager.t :=
  ((HandlerManager.makePromise "e" (Some 50) >>
    HandlerManager.makePromise "e" (Some 50)) HandlerManager.new).1.1.

(** A connected client on which the same [bootstrap] was called twice, and
    which then received the definitions of [A] and [D1]. *)
Definition example_two_bootstraps : list Client.input :=
  [Client.Connect; Client.SocketOpen 0;
   Client.Bootstrap [("A", "payload")] [] ["D1"] (Some 1000);
   Client.Bootstrap [("A", "payload")] [] ["D1"] (Some 1000);
   Client.SocketMessage (Some (def_packet "A" "action"));
   Client.SocketMessage (Some (def_packet "D1" "event"))].

(** The managers without entries in [handlers.keys()]. *)
Definition no_map_keys (s : HandlerManager.t) : Prop := HandlerManager.map_keys s = [].

(** The calls of the methods of a manager. *)
Inductive method :=
  | MAttach (identifier : string) (callback : nat) (callCount : option Z)
  | MAttachOnce (identifier : string) (callback : nat)
  | MDetach (identifier : string) (callback : nat)
  | MDetachAll
  | MCallHandlers (identifier : string) (param : Payload)
  | MMakePromise (identifier : string) (timeout : option Z)
  | MTimeoutElapses (p : nat).

Definition run_method (m : method) : HandlerManager.R unit :=
  match m with
  | MAttach identifier callback callCount =>
      HandlerManager.attach identifier (Function_ callback) callCount
  | MAttachOnce identifier callback =>
      HandlerManager.attachOnce identifier (Function_ callback)
  | MDetach identifier callback => HandlerManager.detach identifier (Function_ callback)
  | MDetachAll => HandlerManager.detachAll
  | MCallHandlers identifier param => HandlerManager.callHandlers identifier param
  | MMakePromise identifier timeout =>
      HandlerManager.makePromise identifier timeout >> ret tt
  | MTimeoutElapses p => HandlerManager.timeout_elapses p
  end.

(** The state of a manager after a sequence of calls. *)
Definition run_methods (ms : list method) (s : HandlerManager.t) : HandlerManager.t :=
  foldl (λ s m, (run_method m s).1.1) s ms.

(** The callbacks the loop of [callHandlers] calls on the array [h]: the
    entry after one that is called for the last time is passed over
    ([skip]). *)
Fixpoint called_skip (skip : bool) (h : list HandlerManager.entry) : list Callback :=
  match h with
  | [] => []
  | (callback, callCount) :: rest =>
      if skip then called_skip false rest
      else callback :: called_skip (callCount =? 1) rest
  end.

Definition called (h : list HandlerManager.entry) : list Callback :=
  called_skip false h.

(** The functions of the application among callbacks, and those called in
    a log of effects. *)
Definition functions_of (callbacks : list Callback) : list nat :=
  omap (λ callback, match callback with Function_ n => Some n | _ => None end) callbacks.

Definition calls_of (log : list HandlerManager.effect) : list nat :=
  omap (λ e, match e with HandlerManager.Called n _ => Some n | _ => None end) log.

(** The hooks run in a log of effects, in order. *)
Definition hooks_of (log : list HandlerManager.effect) : list HandlerManager.effect :=
  omap (λ e, match e with HandlerManager.Called _ _ => None | _ => Some e end) log.

(** The registrations of an identifier. *)
Definition entries (s : HandlerManager.t) (identifier : string)
    : list HandlerManager.entry :=
  default [] (HandlerManager.get s identifier).

(** How often the first hook, and the last hook, ran for an identifier. *)
Definition first_added (identifier : string) (log : list HandlerManager.effect) : nat :=
  length (filter (λ e, e = HandlerManager.FirstAdded identifier) (hooks_of log)).

Definition last_removed (identifier : string) (log : list HandlerManager.effect) : nat :=
  length (filter (λ e, e = HandlerManager.LastRemoved identifier) (hooks_of log)).

(** The states of a manager between two calls of its methods: nothing in
    [handlers.keys()], and no stored list is empty. *)
Definition well_formed (s : HandlerManager.t) : Prop :=
  no_map_keys s ∧ ∀ identifier, HandlerManager.get s identifier ≠ Some [].

(** What a method does to the lists and which hooks it runs: nothing, or
    one identifier goes from [h] to [h'], with the first hook if there was
    no list and there is one, and the last hook if there was one and there
    is none. *)
Definition transition (s s' : HandlerManager.t) (log : list HandlerManager.effect)
    : Prop :=
  HandlerManager.map_keys s' = HandlerManager.map_keys s
  ∧ ((HandlerManager.properties s' = HandlerManager.properties s ∧ hooks_of log = [])
     ∨ ∃ identifier h',
         h' ≠ Some []
         ∧ HandlerManager.properties s'
           = <[identifier := h']> (HandlerManager.properties s)
         ∧ hooks_of log
           = match HandlerManager.get s identifier, h' with
             | None, Some _ => [HandlerManager.FirstAdded identifier]
             | Some _, None => [HandlerManager.LastRemoved identifier]
             | _, _ => []
             end).

(** The [p]-th promise of a manager is in state [st]. *)
Definition settled_as (p : nat) (st : Promise.state Payload) (s : HandlerManager.t)
    : Prop :=
  settled <$> HandlerManager.promises s !! p = Some st.

(** The [p]-th promise of a manager awaits [identifier] and is not
    fulfilled, and its function is registered under no other identifier. *)
Definition unfulfilled (p : nat) (identifier : string) (s : HandlerManager.t) : Prop :=
  (∃ c, HandlerManager.promises s !! p = Some c
        ∧ awaited c = identifier
        ∧ ∀ v, settled c ≠ Promise.Fulfilled v)
  ∧ ∀ identifier' h,
      identifier' ≠ identifier →
      HandlerManager.get s identifier' = Some h →
      PromiseFn p ∉ h.*1.

(** Every callback of the list [h] is allowed under [identifier']. *)
Definition admitted (allowed : string → Callback → Prop) (identifier' : string)
    (h : list HandlerManager.entry) : Prop :=
  ∀ callback, callback ∈ h.*1 → allowed identifier' callback.

(** The [q]-th promise of the client still has its continuation to run
    and awaits, among others, the unfulfilled [p]-th promise of the
    definition handlers, made for [identifier]. *)
Definition waiting (q p : nat) (identifier : string) (s : Client.t) : Prop :=
  unfulfilled p identifier (Client.definitionHandlers s)
  ∧ ∃ c, Client.composites s !! q = Some c
         ∧ Client.source c = Client.DefinitionHandlers
         ∧ p ∈ Client.waits c
         ∧ is_Some (Client.continuation c).

(** The inputs that dispatch [identifier] to the definition handlers: a
    [def] packet for it, and a call of [callHandlers] by the application. *)
Definition delivers (identifier : string) (i : Client.input) : Prop :=
  match i with
  | Client.SocketMessage (Some packet) =>
      packet_type packet = RotondeConnection.PACKET_TYPES.DEFINITION
      ∧ payload_identifier (packet_payload packet) = identifier
  | Client.CallHandlers Client.DefinitionHandlers identifier' _ =>
      identifier' = identifier
  | _ => False
  end.

(** Only functions of promises that were made are registered. *)
Definition fresh (s : HandlerManager.t) : Prop :=
  ∀ identifier h p,
    HandlerManager.get s identifier = Some h →
    PromiseFn p ∈ h.*1 →
    (p < length (HandlerManager.promises s))%nat.

Definition fresh_at (n : nat) (s : HandlerManager.t) : Prop :=
  fresh s ∧ length (HandlerManager.promises s) = n.

(** [m] keeps the invariant [I], and what it returns satisfies [Q]. *)
Definition yields {S E A} (I : S → Prop) (m : M S E A) (Q : A → Prop) : Prop :=
  ∀ s, I s → I (m s).1.1 ∧ ∀ a, (m s).2 = Normal a → Q a.

(** ** Sequences of calls *)

(** The calls that change a store. *)
Inductive store_call :=
  | AddDefinition (definition : Definition_)
  | RemoveDefinition (identifier : string).

Definition run_store_call (s : DefinitionsStore.t) (c : store_call)
    : DefinitionsStore.t :=
  match c with
  | AddDefinition definition => (DefinitionsStore.addDefinition s definition).1
  | RemoveDefinition identifier => DefinitionsStore.removeDefinition s identifier
  end.

(** The store after a sequence of calls. *)
Definition run_store_calls (cs : list store_call) (s : DefinitionsStore.t)
    : DefinitionsStore.t :=
  foldl run_store_call s cs.

(** The index is the one of the list, and no two definitions of the list
    have the same identifier. *)
Definition one_per_identifier (s : DefinitionsStore.t) : Prop :=
  store_consistent s ∧ NoDup (identifier <$> DefinitionsStore.definitions s).

(** ** What a dispatch computes *)

(** The array the loop of [callHandlers] leaves: an entry with a count
    above one has it lowered, an entry with count one is taken out, and the
    entry after one that was taken out stays as it is ([skip]). *)
Fixpoint remaining_skip (skip : bool) (h : list HandlerManager.entry)
    : list HandlerManager.entry :=
  match h with
  | [] => []
  | (callback, callCount) :: rest =>
      if skip then (callback, callCount) :: remaining_skip false rest
      else if callCount =? 1 then remaining_skip true rest
      else (callback, if 0 <? callCount then callCount - 1 else callCount)
             :: remaining_skip false rest
  end.

Definition remaining (h : list HandlerManager.entry) : list HandlerManager.entry :=
  remaining_skip false h.

(** What the function [fn] of a promise does to the cell of the promise:
    [resolve(data)], and [clearTimeout] of a timer that is running. *)
Definition fulfil (param : Payload) (c : Cell) : Cell :=
  {| settled := Promise.resolve (settled c) param;
     timer := match timer c with Armed => Cleared | t' => t' end;
     awaited := awaited c |}.

(** The cells after a call of [callback]. *)
Definition settle (param : Payload) (cells : list Cell) (callback : Callback)
    : list Cell :=
  match callback with
  | Function_ _ => cells
  | PromiseFn p => alter (fulfil param) p cells
  end.

(** An entry after a call that leaves it in the array: a count above zero
    is lowered by one. *)
Definition lowered (e : HandlerManager.entry) : HandlerManager.entry :=
  (e.1, if 0 <? e.2 then e.2 - 1 else e.2).

(** The [p]-th promise of a manager has no timer and is not rejected. *)
Definition without_timer (p : nat) (s : HandlerManager.t) : Prop :=
  ∃ c, HandlerManager.promises s !! p = Some c
       ∧ timer c = NotSet
       ∧ ∀ r, settled c ≠ Promise.Rejected r.

(** The identifier a call registers an entry for, if it does. *)
Definition registers (m : method) : option string :=
  match m with
  | MAttach identifier _ _ => Some identifier
  | MAttachOnce identifier _ => Some identifier
  | MMakePromise identifier _ => Some identifier
  | _ => None
  end.

(** The log of the calls of [callbacks] with [param]. *)
Definition call_effects (param : Payload) (callbacks : list Callback)
    : list HandlerManager.effect :=
  (λ n, HandlerManager.Called n param) <$> functions_of callbacks.

(** [callHandlers(identifier, param)], [k] times in a row. *)
Fixpoint dispatches (k : nat) (identifier : string) (param : Payload)
    : HandlerManager.R unit :=
  match k with
  | O => ret tt
  | S k =>
      HandlerManager.callHandlers identifier param >> dispatches k identifier param
  end.

(** The effects of a sequence of calls of methods, in order. *)
Fixpoint effects_of (ms : list method) (s : HandlerManager.t)
    : list HandlerManager.effect :=
  match ms with
  | [] => []
  | m :: rest => (run_method m s).1.2 ++ effects_of rest (run_method m s).1.1
  end.

(** ** The client, in general *)

#[global] Instance Packet_eq_dec : EqDecision Packet.
Proof. solve_decision. Defined.

#[global] Instance Event_eq_dec : EqDecision Client.Event.
Proof. solve_decision. Defined.

(** What the hooks of manager [m] log for an effect of the manager, on a
    client whose connection, if it has one, is [c], open or not
    ([connected]). *)
Definition hook_log (m : Client.manager) (c : option nat) (connected : bool)
    (e : HandlerManager.effect) : list Client.Event :=
  match e with
  | HandlerManager.Called n param => [Client.HandlerCalled n param]
  | HandlerManager.FirstAdded identifier =>
      match m, c with
      | Client.EventHandlers, Some c =>
          if connected then [Client.Sent c (RotondeConnection.sendSubscribe identifier)]
          else []
      | _, _ => []
      end
  | HandlerManager.LastRemoved identifier =>
      match m, c with
      | Client.EventHandlers, Some c =>
          if connected then [Client.Sent c (RotondeConnection.sendUnsubscribe identifier)]
          else []
      | _, _ => []
      end
  end.

(** The packets sent in a log, each with the connection it went to. *)
Definition sent (log : list Client.Event) : list (nat * Packet) :=
  omap (λ e, match e with Client.Sent c packet => Some (c, packet) | _ => None end) log.

(** How often [x] occurs in [l]. *)
Definition occurrences {A} `{EqDecision A} (x : A) (l : list A) : nat :=
  length (filter (λ y, y = x) l).

(** Both stores of a pair hold one definition per identifier, and so do
    the four stores of a client. *)
Definition stores_ok (stores : Client.Stores) : Prop :=
  one_per_identifier (Client.action stores) ∧ one_per_identifier (Client.event stores).

Definition definitions_ok (s : Client.t) : Prop :=
  stores_ok (Client.localDefinitions s) ∧ stores_ok (Client.remoteDefinitions s).

(** The peer has defined [identifier], as an action or as an event. *)
Definition known (s : Client.t) (identifier : string) : Prop :=
  Client.searchDefinitions (Client.remoteDefinitions s) identifier ≠ [].

(** The state [bootstrap] leaves on a client without other promises when
    the definition of [identifier] alone is missing: one promise, which
    awaits the [p]-th promise of the definition handlers and has the
    continuation [k] to run. *)
Definition awaits_definition (c p : nat) (identifier : string)
    (k : list (string * string) * list string * option Z) (s : Client.t) : Prop :=
  Client.connection s = Some c
  ∧ Client.composites s
    = [{| Client.source := Client.DefinitionHandlers; Client.waits := [p];
          Client.continuation := Some k; Client.outcome := Promise.Pending |}]
  ∧ HandlerManager.get (Client.definitionHandlers s) identifier
    = Some [(PromiseFn p, 1)]
  ∧ HandlerManager.promises (Client.definitionHandlers s) !! p
    = Some {| settled := Promise.Pending;
              timer := if truthy_timeout k.2 then Armed else NotSet;
              awaited := identifier |}.

(** The [q]-th promise of the client is rejected with [r]. *)
Definition rejected_with (q : nat) (r : Promise.reason) (s : Client.t) : Prop :=
  ∃ c, Client.composites s !! q = Some c ∧ Client.outcome c = Promise.Rejected r.

(** * Properties *)

(** ** lodash *)

Section LodashFacts.
Context {A K : Type} `{EqDecision K}.
Implicit Types (f : A → K) (seen : list K) (l : list A).

Lemma uniq_seen_ext f seen seen' l :
  (∀ k, k ∈ seen ↔ k ∈ seen') →
  Lodash.uniq_seen f seen l = Lodash.uniq_seen f seen' l.
Proof.
  revert seen seen'. induction l as [|x l IH]; intros seen seen' Hs; simpl; [done|].
  rewrite (bool_decide_ext (f x ∈ seen) (f x ∈ seen')) by apply Hs.
  case_bool_decide.
  - by apply IH.
  - f_equal. apply IH. intros k. rewrite !elem_of_cons, Hs. done.
Qed.

Lemma uniq_seen_app f seen l1 l2 :
  Lodash.uniq_seen f seen (l1 ++ l2)
  = Lodash.uniq_seen f seen l1 ++ Lodash.uniq_seen f ((f <$> l1) ++ seen) l2.
Proof.
  revert seen. induction l1 as [|x l1 IH]; intros seen; simpl; [done|].
  case_bool_decide as Hx.
  - rewrite IH. f_equal. apply uniq_seen_ext. intros k. set_solver.
  - simpl. f_equal. rewrite IH. f_equal. apply uniq_seen_ext. intros k. set_solver.
Qed.

Lemma elem_of_uniq_seen f seen l x :
  x ∈ Lodash.uniq_seen f seen l → x ∈ l ∧ f x ∉ seen.
Proof.
  revert seen. induction l as [|y l IH]; intros seen; simpl.
  - by intros ?%elem_of_nil.
  - case_bool_decide as Hy.
    + intros [? ?]%IH. split; [by right|done].
    + intros [->|[? Hn]%IH]%elem_of_cons.
      * split; [by left|done].
      * split; [by right|]. intros ?. apply Hn. by right.
Qed.

Lemma elem_of_fmap_uniq_seen f seen l k :
  k ∈ f <$> Lodash.uniq_seen f seen l ↔ k ∈ f <$> l ∧ k ∉ seen.
Proof.
  revert seen. induction l as [|y l IH]; intros seen; simpl.
  - rewrite elem_of_nil. naive_solver.
  - case_bool_decide as Hy.
    + rewrite IH, elem_of_cons. naive_solver.
    + rewrite fmap_cons, !elem_of_cons, IH, elem_of_cons.
      destruct (decide (k = f y)); naive_solver.
Qed.

Lemma NoDup_fmap_uniq_seen f seen l : NoDup (f <$> Lodash.uniq_seen f seen l).
Proof.
  revert seen. induction l as [|y l IH]; intros seen; simpl.
  - constructor.
  - case_bool_decide as Hy; [apply IH|].
    rewrite fmap_cons. constructor; [|apply IH].
    rewrite elem_of_fmap_uniq_seen. intros [_ Hn]. apply Hn. by left.
Qed.

(** Removing repeated values first does not change what [uniq] keeps. *)
Lemma uniq_seen_uniq_seen `{EqDecision A} f seen (seen0 : list A) l :
  (∀ x, x ∈ seen0 → f x ∈ seen) →
  Lodash.uniq_seen f seen (Lodash.uniq_seen (λ x, x) seen0 l)
  = Lodash.uniq_seen f seen l.
Proof.
  revert seen seen0. induction l as [|y l IH]; intros seen seen0 Hs; simpl; [done|].
  case_bool_decide as Hy.
  - rewrite (bool_decide_eq_true_2 (f y ∈ seen)) by auto. by apply IH.
  - simpl. case_bool_decide as Hf.
    + apply IH. intros x [->|?]%elem_of_cons; auto.
    + f_equal. apply IH. intros x [->|?]%elem_of_cons; [by left|right; auto].
Qed.

End LodashFacts.

Lemma uniq_union {A K} `{EqDecision A, EqDecision K} (f : A → K) (a b : list A) :
  Lodash.uniq (Lodash.union [a; b]) f = Lodash.uniq (a ++ b) f.
Proof.
  unfold Lodash.uniq, Lodash.union, Lodash.uniq. simpl. rewrite app_nil_r.
  apply uniq_seen_uniq_seen. by intros x ?%elem_of_nil.
Qed.

(** ** The definitions store *)

Lemma indexBy_snoc (l : list Definition_) (d : Definition_) :
  Lodash.indexBy (l ++ [d]) = <[identifier d := d]> (Lodash.indexBy l).
Proof. unfold Lodash.indexBy. by rewrite foldl_app. Qed.

Lemma indexBy_lookup_None (l : list Definition_) (k : string) :
  Lodash.indexBy l !! k = None → ∀ d, d ∈ l → identifier d ≠ k.
Proof.
  induction l as [|x l IH] using rev_ind; intros Hk d Hd.
  - by apply elem_of_nil in Hd.
  - rewrite indexBy_snoc in Hk.
    apply lookup_insert_None in Hk as [Hl Hx].
    apply elem_of_app in Hd as [Hd|Hd%list_elem_of_singleton].
    + by apply IH.
    + by subst d.
Qed.

Lemma indexBy_lookup_Some (l : list Definition_) (k : string) (d : Definition_) :
  Lodash.indexBy l !! k = Some d → d ∈ l ∧ identifier d = k.
Proof.
  induction l as [|x l IH] using rev_ind; intros Hk.
  - unfold Lodash.indexBy in Hk. simpl in Hk. by rewrite lookup_empty in Hk.
  - rewrite indexBy_snoc in Hk.
    apply lookup_insert_Some in Hk as [[<- <-]|[Hne Hk]].
    + split; [|done]. apply elem_of_app. right. by apply list_elem_of_singleton.
    + destruct (IH Hk) as [? ?]. split; [|done]. apply elem_of_app. by left.
Qed.

(** An identifier is never strictly equal to a stored definition. *)
Lemma indexOf_from_string (i : Z) (l : list Definition_) (s : string) :
  Lodash.indexOf_from i (VDefinition <$> l) (VString s) = -1.
Proof. revert i. induction l as [|x l IH]; intros i; simpl; [done|apply IH]. Qed.

Lemma indexOf_from_snoc (i : Z) (l : list Definition_) (d : Definition_) :
  (∀ x, x ∈ l → x ≠ d) →
  Lodash.indexOf_from i (VDefinition <$> (l ++ [d])) (VDefinition d)
  = i + Z.of_nat (length l).
Proof.
  revert i. induction l as [|x l IH]; intros i Hl; simpl.
  - rewrite bool_decide_eq_true_2 by done. lia.
  - rewrite bool_decide_eq_false_2 by (apply Hl; by left).
    rewrite IH by (intros y ?; apply Hl; by right). lia.
Qed.

Lemma store_consistent_new : store_consistent DefinitionsStore.new.
Proof. done. Qed.

Lemma store_consistent_addDefinition (s : DefinitionsStore.t) (d : Definition_) :
  store_consistent (DefinitionsStore.addDefinition s d).1.
Proof.
  unfold store_consistent, DefinitionsStore.addDefinition.
  by destruct (DefinitionsStore.definitionsByIdentifier s !! identifier d).
Qed.

(** [removeDefinition] never finds its argument, whatever is stored. *)
Lemma removeDefinition_noop (s : DefinitionsStore.t) (id : string) :
  DefinitionsStore.removeDefinition s id = s.
Proof.
  unfold DefinitionsStore.removeDefinition, Lodash.indexOf.
  by rewrite indexOf_from_string.
Qed.

Lemma store_consistent_removeDefinition (s : DefinitionsStore.t) (id : string) :
  store_consistent s → store_consistent (DefinitionsStore.removeDefinition s id).
Proof. by rewrite removeDefinition_noop. Qed.

Lemma filter_identifier_fresh (l : list Definition_) (k : string) :
  (∀ d, d ∈ l → identifier d ≠ k) →
  filter (λ d, identifier d = k) l = [].
Proof.
  induction l as [|x l IH]; intros Hl; [done|].
  rewrite filter_cons_False by (apply Hl; by left).
  apply IH. intros d ?. apply Hl. by right.
Qed.

Lemma addDefinition_fresh (s : DefinitionsStore.t) (D : Definition_) :
  DefinitionsStore.getDefinition s (identifier D) = None →
  DefinitionsStore.addDefinition s D
  = ({| DefinitionsStore.definitions := DefinitionsStore.definitions s ++ [D];
        DefinitionsStore.definitionsByIdentifier :=
          Lodash.indexBy (DefinitionsStore.definitions s ++ [D]) |}, D).
Proof.
  unfold DefinitionsStore.getDefinition, DefinitionsStore.addDefinition.
  by intros ->.
Qed.

Lemma addDefinition_last (l : list Definition_) (D1 D2 : Definition_) :
  (∀ d, d ∈ l → identifier d ≠ identifier D1) →
  identifier D1 = identifier D2 →
  let stored :=
    {| identifier := identifier D2; type := type D2;
       fields := Lodash.uniq (fields D1 ++ fields D2) name |} in
  DefinitionsStore.addDefinition
    {| DefinitionsStore.definitions := l ++ [D1];
       DefinitionsStore.definitionsByIdentifier := Lodash.indexBy (l ++ [D1]) |} D2
  = ({| DefinitionsStore.definitions := l ++ [stored];
        DefinitionsStore.definitionsByIdentifier := Lodash.indexBy (l ++ [stored]) |},
     stored).
Proof.
  intros Hl Hid stored. unfold DefinitionsStore.addDefinition. simpl.
  rewrite <- Hid, indexBy_snoc, lookup_insert_eq.
  unfold Lodash.indexOf.
  rewrite indexOf_from_snoc by (intros x Hx ->; by apply (Hl _ Hx)).
  unfold DefinitionsStore.array_set.
  rewrite (proj2 (Z.leb_le _ _)) by lia.
  rewrite Z.add_0_l, Nat2Z.id.
  replace (length l) with (length l + 0)%nat by lia.
  rewrite insert_app_r. simpl.
  rewrite uniq_union. subst stored. by rewrite <- Hid.
Qed.



(** C5. After [addDefinition] of a definition named [a], [removeDefinition
    "a"] leaves the store as it was and [getDefinition "a"] still finds the
    definition. *)
Theorem removeDefinition_keeps_definition :
  let D := {| identifier := "a"; type := "action"; fields := [] |} in
  let s := (DefinitionsStore.addDefinition DefinitionsStore.new D).1 in
  DefinitionsStore.removeDefinition s "a" = s
  ∧ DefinitionsStore.getDefinition (DefinitionsStore.removeDefinition s "a") "a"
    = Some D.
Proof. split; reflexivity. Qed.

(** ** Computations *)

Section Preservation.
Context {S E : Type} (I : S → Prop).

Lemma preserves_ret {A} (a : A) : preserves (E:=E) I (ret a).
Proof. by intros s. Qed.

Lemma preserves_throw {A} (e : error) : preserves (E:=E) I (@throw S E A e).
Proof. by intros s. Qed.

Lemma preserves_out_of_fuel {A} : preserves (E:=E) I (@out_of_fuel S E A).
Proof. by intros s. Qed.

Lemma preserves_emit (e : E) : preserves (E:=E) I (emit e).
Proof. by intros s. Qed.

Lemma preserves_write (s' : S) : I s' → preserves (E:=E) I (write s').
Proof. by intros ? s. Qed.

Lemma preserves_bind {A B} (m : M S E A) (k : A → M S E B) :
  preserves (E:=E) I m → (∀ a, preserves (E:=E) I (k a)) → preserves (E:=E) I (bind m k).
Proof.
  intros Hm Hk s Hs. unfold bind. specialize (Hm s Hs).
  destruct (m s) as [[s1 log1] [a|e|]]; simpl in *; [|done..].
  specialize (Hk a s1 Hm). by destruct (k a s1) as [[s2 log2] r].
Qed.

(** After [read] the continuation runs on the state it was given. *)
Lemma preserves_read_bind {B} (k : S → M S E B) :
  (∀ s, I s → I (k s s).1.1) → preserves (E:=E) I (bind read k).
Proof.
  intros Hk s Hs. unfold bind, read. specialize (Hk s Hs).
  by destruct (k s s) as [[s2 log2] r].
Qed.

Lemma preserves_bind_at {A B} (m : M S E A) (k : A → M S E B) (s : S) :
  I (m s).1.1 → (∀ a, preserves (E:=E) I (k a)) → I (bind m k s).1.1.
Proof.
  intros Hm Hk. unfold bind.
  destruct (m s) as [[s1 log1] [a|e|]]; simpl in *; [|done..].
  specialize (Hk a s1 Hm). by destruct (k a s1) as [[s2 log2] r].
Qed.

Lemma preserves_read_then {B} (k : S → M S E B) :
  (∀ s, I s → preserves (E:=E) I (k s)) → preserves (E:=E) I (bind read k).
Proof. intros Hk. apply preserves_read_bind. intros s Hs. by apply Hk. Qed.

Lemma preserves_catch {A} (m : M S E A) : preserves (E:=E) I m → preserves (E:=E) I (catch m).
Proof.
  intros Hm s Hs. unfold catch. specialize (Hm s Hs).
  by destruct (m s) as [[s1 log1] [a|e|]].
Qed.

Lemma preserves_and_then {A} (m : M S E A) (k : M S E unit) :
  preserves (E:=E) I m → preserves (E:=E) I k → preserves (E:=E) I (and_then m k).
Proof.
  intros Hm Hk s Hs. unfold and_then. specialize (Hm s Hs).
  destruct (m s) as [[s1 log1] r]; simpl in *.
  specialize (Hk s1 Hm). by destruct (k s1) as [[s2 log2] [a|e|]].
Qed.

Lemma preserves_for_each {A} (xs : list A) (body : A → M S E unit) :
  (∀ x, preserves (E:=E) I (body x)) → preserves (E:=E) I (for_each xs body).
Proof.
  intros Hb. induction xs as [|x xs IH]; simpl.
  - apply preserves_ret.
  - apply preserves_bind; [apply Hb|by intros _].
Qed.

Lemma preserves_map_each {A B} (xs : list A) (body : A → M S E B) :
  (∀ x, preserves (E:=E) I (body x)) → preserves (E:=E) I (map_each xs body).
Proof.
  intros Hb. induction xs as [|x xs IH]; simpl.
  - apply preserves_ret.
  - apply preserves_bind; [apply Hb|]. intros y.
    apply preserves_bind; [apply IH|]. intros ys. apply preserves_ret.
Qed.

End Preservation.

(** Splits a computation along its combinators; what is left are the
    states written and the calls of functions that are no combinators. *)
Ltac preserve :=
  repeat match goal with
  | |- preserves _ (bind read _) => apply preserves_read_then; intros ? ?
  | |- preserves _ (bind _ _) => apply preserves_bind; [|intros ?]
  | |- preserves _ (ret _) => apply preserves_ret
  | |- preserves _ (throw _) => apply preserves_throw
  | |- preserves _ out_of_fuel => apply preserves_out_of_fuel
  | |- preserves _ (emit _) => apply preserves_emit
  | |- preserves _ (write _) => apply preserves_write
  | |- preserves _ (catch _) => apply preserves_catch
  | |- preserves _ (and_then _ _) => apply preserves_and_then
  | |- preserves _ (for_each _ _) => apply preserves_for_each; intros ?
  | |- preserves _ (map_each _ _) => apply preserves_map_each; intros ?
  | |- preserves _ (match ?x with _ => _ end) => destruct x
  end.

Lemma bind_normal {S E A B} (m : M S E A) (k : A → M S E B) (s s1 : S)
    (log1 : list E) (a : A) :
  m s = (s1, log1, Normal a) →
  bind m k s = match k a s1 with (s2, log2, r) => (s2, log1 ++ log2, r) end.
Proof. intros Hm. unfold bind. by rewrite Hm. Qed.

Lemma for_each_emit {S E A} (f : A → E) (xs : list A) (s : S) :
  for_each xs (λ x, emit (f x)) s = (s, f <$> xs, Normal tt).
Proof.
  induction xs as [|x xs IH]; simpl; [done|].
  unfold bind. simpl. by rewrite IH.
Qed.

(** ** The client *)

Lemma for_each_send {A} (f : A → Packet) (xs : list A) (s : Client.t) (c : nat) :
  Client.connection s = Some c →
  for_each xs (λ x, Client.send (f x)) s
  = (s, (λ x, Client.Sent c (f x)) <$> xs, Normal tt).
Proof.
  intros Hc. induction xs as [|x xs IH]; simpl; [done|].
  unfold bind at 1. unfold Client.send at 1. unfold bind, read, emit. simpl.
  rewrite Hc. simpl. by rewrite IH.
Qed.

(** C10. A decoded packet whose type is none of [event], [action], [def]
    and [undef] leaves the whole client as it was (every store and every
    manager), calls no handler, sends nothing and raises no exception. *)
Theorem handleMessage_other_type_dropped (s : Client.t) (c : nat) (packet : Packet) :
  Client.connection s = Some c →
  packet_type packet ∉ ["event"; "action"; "def"; "undef"] →
  Client.handleMessage (Some packet) s = (s, [], Normal tt).
Proof.
  intros Hc Ht. unfold Client.handleMessage, bind, read. simpl. rewrite Hc.
  assert (∀ x, x ∈ ["event"; "action"; "def"; "undef"] → packet_type packet ≠ x)
    as Hne by (intros x Hx Heq; by rewrite Heq in Ht).
  rewrite !bool_decide_eq_false_2; [done|apply Hne; set_solver..].
Qed.

Lemma handleMessage_other_type_dropped_witness :
  Client.handleMessage (Some (RotondeConnection.sendSubscribe "e"))
    (Client.run [Client.Connect; Client.SocketOpen 0;
                 Client.Attach Client.EventHandlers "e" 1 None] Client.new).1
  = ((Client.run [Client.Connect; Client.SocketOpen 0;
                  Client.Attach Client.EventHandlers "e" 1 None] Client.new).1,
     [], Normal tt).
Proof.
  apply (handleMessage_other_type_dropped _ 0%nat); [reflexivity|].
  vm_compute. intros H. repeat (apply elem_of_cons in H as [H|H]; [discriminate H|]).
  by apply elem_of_nil in H.
Defined.

(** An identifier with registrations is a key of the manager. *)
Lemma registeredIdentifiers_holds_entries (h : HandlerManager.t) (identifier : string)
    (entries : list HandlerManager.entry) :
  HandlerManager.properties h !! identifier = Some (Some entries) →
  identifier ∈ HandlerManager.registeredIdentifiers h.
Proof.
  intros Hp. unfold HandlerManager.registeredIdentifiers.
  apply list_elem_of_fmap. exists (identifier, Some entries). split; [done|].
  by apply elem_of_map_to_list.
Qed.

(** C6, as the code has it. When the socket of a connection opens, every
    queued ready callback is called once, in the order of the queue, and the
    queue is left as it is; then a [sub] packet is sent for every key of the
    event manager, among them every identifier that has registrations, and
    then a [def] packet for every definition of the two local stores; all
    packets go to the current connection. *)
Theorem onopen_replays (s : Client.t) (c0 c : nat) :
  Client.connection s = Some c →
  let s' := Client.set_connection s (Some c)
              (<[c0 := {| RotondeConnection.connected := true |}]> (Client.connections s)) in
  Client.onopen c0 s
  = (s',
     (Client.ReadyCalled <$> Client.readyCallbacks s)
     ++ ((λ identifier, Client.Sent c (RotondeConnection.sendSubscribe identifier))
           <$> HandlerManager.each (Client.eventHandlers s))
     ++ ((λ definition, Client.Sent c (RotondeConnection.sendDefinition definition))
           <$> (DefinitionsStore.definitions (Client.action (Client.localDefinitions s))
                ++ DefinitionsStore.definitions (Client.event (Client.localDefinitions s)))),
     Normal tt)
  ∧ Client.readyCallbacks s' = Client.readyCallbacks s
  ∧ (∀ identifier entries,
       HandlerManager.properties (Client.eventHandlers s) !! identifier
       = Some (Some entries) →
       identifier ∈ HandlerManager.each (Client.eventHandlers s)).
Proof.
  intros Hc s'. split; [|split; [done|]].
  - unfold Client.onopen, Client.ready, bind, read, write. simpl.
    rewrite Hc. fold s'.
    rewrite for_each_emit.
    rewrite (for_each_send _ _ s' c) by done.
    unfold bind. simpl. unfold DefinitionsStore.forEach.
    rewrite !(for_each_send _ _ s' c) by done. simpl.
    by rewrite !app_nil_r, fmap_app.
  - intros identifier entries. apply registeredIdentifiers_holds_entries.
Qed.

Lemma onopen_replays_witness :
  (Client.onopen 0
     (Client.run [Client.OnReady 3; Client.Attach Client.EventHandlers "e" 1 None;
                  Client.AddLocalDefinition "action" "a" []; Client.Connect]
                 Client.new).1).1.2
  = [Client.ReadyCalled 3;
     Client.Sent 0 (RotondeConnection.sendSubscribe "e");
     Client.Sent 0 (RotondeConnection.sendDefinition
                      {| identifier := "a"; type := "action"; fields := [] |})].
Proof.
  rewrite (proj1 (onopen_replays
                    (Client.run [Client.OnReady 3;
                                 Client.Attach Client.EventHandlers "e" 1 None;
                                 Client.AddLocalDefinition "action" "a" [];
                                 Client.Connect] Client.new).1
                    0 0 eq_refl)).
  reflexivity.
Defined.

(** C6, as the specification has it, fails: a callback queued before the
    first [connect] is still in the queue after the first connection opened,
    and it is called again when the connection of a second [connect]
    opens. *)
Lemma ready_queue_not_cleared :
  (Client.run [Client.OnReady 3; Client.Connect; Client.SocketOpen 0] Client.new).2
  = [Client.ReadyCalled 3]
  ∧ Client.readyCallbacks
      (Client.run [Client.OnReady 3; Client.Connect; Client.SocketOpen 0] Client.new).1
    = [3%nat]
  ∧ (Client.run [Client.Connect; Client.SocketOpen 1]
       (Client.run [Client.OnReady 3; Client.Connect; Client.SocketOpen 0] Client.new).1).2
    = [Client.ReadyCalled 3].
Proof. vm_compute. done. Qed.

(** *** Without [connect] there is no connection *)

Lemma no_connection_send (packet : Packet) : preserves no_connection (Client.send packet).
Proof. unfold Client.send. preserve. Qed.

Lemma no_connection_hook (m : Client.manager) (e : HandlerManager.effect) :
  preserves no_connection (Client.hook m e).
Proof. unfold Client.hook. preserve; apply no_connection_send. Qed.

Lemma no_connection_on_manager {A} (m : Client.manager) (r : HandlerManager.R A) :
  preserves no_connection (Client.on_manager m r).
Proof.
  intros s Hs. unfold Client.on_manager.
  destruct (r (Client.manager_of s m)) as [[h effects] result].
  pose proof (preserves_for_each no_connection effects (Client.hook m)
                (no_connection_hook m) (Client.set_manager s m h) Hs) as Hh.
  by destruct (for_each effects (Client.hook m) (Client.set_manager s m h)) as [[s' log] ?].
Qed.

Lemma no_connection_promises actions events timeout :
  preserves no_connection (Client.promises actions events timeout).
Proof.
  unfold Client.promises.
  preserve; [apply no_connection_on_manager|apply no_connection_send].
Qed.

Lemma no_connection_run_reactions : preserves no_connection Client.run_reactions.
Proof.
  unfold Client.run_reactions, Client.settle_then, Client.settle_all,
    Client.set_composite.
  preserve; try done; apply no_connection_promises.
Qed.

Lemma no_connection_handler (i : Client.input) :
  i ≠ Client.Connect → preserves no_connection (Client.handler i).
Proof.
  intros Hi. destruct i; simpl; try done;
    unfold Client.onReady, Client.addLocalDefinition, Client.removeLocalDefinition,
      Client.sendEvent, Client.sendAction, Client.requireDefinitions, Client.bootstrap,
      Client.promise_all, Client.then_, Client.onopen, Client.ready,
      Client.handleMessage;
    preserve;
    try done;
    try apply no_connection_send;
    try apply no_connection_on_manager;
    try apply no_connection_promises.
  unfold Client.requireDefinitions, Client.promise_all.
  preserve; [apply no_connection_on_manager|done].
Qed.

Lemma no_connection_run (inputs : list Client.input) (s : Client.t) :
  Client.Connect ∉ inputs → no_connection s → no_connection (Client.run inputs s).1.
Proof.
  revert s. induction inputs as [|i inputs IH]; intros s Hin Hs; simpl; [done|].
  apply not_elem_of_cons in Hin as [Hi Hin].
  pose proof (preserves_and_then no_connection _ _
                (no_connection_handler i (not_eq_sym Hi))
                no_connection_run_reactions s Hs) as Ht.
  unfold Client.task. destruct (and_then _ _ s) as [[s1 log1] r1]. simpl in Ht.
  specialize (IH s1 Hin Ht).
  by destruct (Client.run inputs s1) as [s2 log2].
Qed.

(** C9. As long as [connect] has not been called, whatever else was called
    or happened, [isConnected()] gives [undefined], and [sendEvent] and
    [sendAction] throw a [TypeError] on reading a member of the undefined
    connection: nothing is sent, nothing is queued, the client is left as
    it was. *)
Theorem send_without_connect_throws (inputs : list Client.input)
    (identifier data : string) :
  Client.Connect ∉ inputs →
  let s := (Client.run inputs Client.new).1 in
  Client.isConnected s = None
  ∧ Client.truthy (Client.isConnected s) = false
  ∧ Client.sendEvent identifier data s = (s, [], Throw TypeError)
  ∧ Client.sendAction identifier data s = (s, [], Throw TypeError).
Proof.
  intros Hin s.
  assert (Hs : Client.connection s = None)
    by (apply no_connection_run; [done|reflexivity]).
  unfold Client.isConnected, Client.sendEvent, Client.sendAction, Client.send,
    bind, read, throw. simpl. by rewrite Hs.
Qed.

Lemma send_without_connect_throws_witness :
  Client.sendAction "GAMEPAD_MOVE" "value"
    (Client.run [Client.OnReady 0; Client.AddLocalDefinition "action" "GAMEPAD_MOVE" []]
                Client.new).1
  = ((Client.run [Client.OnReady 0; Client.AddLocalDefinition "action" "GAMEPAD_MOVE" []]
                 Client.new).1,
     [], Throw TypeError).
Proof.
  refine (proj2 (proj2 (proj2 (send_without_connect_throws
    [Client.OnReady 0; Client.AddLocalDefinition "action" "GAMEPAD_MOVE" []]
    "GAMEPAD_MOVE" "value" _)))).
  intros H. repeat (apply elem_of_cons in H as [H|H]; [discriminate H|]).
  by apply elem_of_nil in H.
Defined.

(** ** The handler manager *)

(** C1. With a handler to call once registered before a permanent one,
    [callHandlers] calls the first only: the permanent handler, registered
    when the call began, is not called.  The entry of the first is removed
    by the splice, the second moves to its index, and the loop goes on at
    the next index. *)
Theorem callHandlers_skips_after_consumed :
  HandlerManager.properties example_once_then_permanent !! "e"
  = Some (Some [(Function_ 0, 1); (Function_ 1, -1)])
  ∧ HandlerManager.callHandlers "e" (Ident "e") example_once_then_permanent
    = ({| HandlerManager.map_keys := [];
          HandlerManager.properties := {["e" := Some [(Function_ 1, -1)]]};
          HandlerManager.promises := [] |},
       [HandlerManager.Called 0 (Ident "e")],
       Normal tt).
Proof. split; vm_compute; reflexivity. Qed.

(** A handler attached with [callCount = 1] and dispatched twice: the first
    dispatch removes the entry and runs the last hook before it calls the
    handler, the second finds no entry. *)
Example callHandlers_once_twice :
  (HandlerManager.attach "e" (Function_ 0) (Some 1) >>
   HandlerManager.callHandlers "e" (Ident "e") >>
   HandlerManager.callHandlers "e" (Ident "e"))%comp HandlerManager.new
  = ({| HandlerManager.map_keys := [];
        HandlerManager.properties := {["e" := None]};
        HandlerManager.promises := [] |},
     [HandlerManager.FirstAdded "e"; HandlerManager.LastRemoved "e";
      HandlerManager.Called 0 (Ident "e")],
     Normal tt).
Proof. vm_compute. reflexivity. Qed.

(** C4. After [attach] and [detach] of the only handler of [e], both hooks
    have run once and [e] has no registration, yet [e] is still a key of
    [handlers] and [registeredIdentifiers()] still lists it. *)
Theorem registeredIdentifiers_keeps_detached :
  (HandlerManager.attach "e" (Function_ 0) None >>
   HandlerManager.detach "e" (Function_ 0))%comp HandlerManager.new
  = ({| HandlerManager.map_keys := [];
        HandlerManager.properties := {["e" := None]};
        HandlerManager.promises := [] |},
     [HandlerManager.FirstAdded "e"; HandlerManager.LastRemoved "e"],
     Normal tt)
  ∧ HandlerManager.registeredIdentifiers
      {| HandlerManager.map_keys := [];
         HandlerManager.properties := {["e" := None]};
         HandlerManager.promises := [] |}
    = ["e"].
Proof. split; vm_compute; reflexivity. Qed.

(** C7. Of two promises made for [e], the next [callHandlers] for [e]
    fulfils the first only; the function of the second is skipped and stays
    registered, and when its timer runs out the second promise is rejected
    with a timeout, although [e] was dispatched after it was made. *)
Theorem makePromise_second_not_resolved :
  HandlerManager.callHandlers "e" (Message "e" "data") example_two_promises
  = ({| HandlerManager.map_keys := [];
        HandlerManager.properties := {["e" := Some [(PromiseFn 1, 1)]]};
        HandlerManager.promises :=
          [{| settled := Promise.Fulfilled (Message "e" "data");
              timer := Cleared; awaited := "e" |};
           {| settled := Promise.Pending; timer := Armed; awaited := "e" |}] |},
     [], Normal tt)
  ∧ settled <$>
      HandlerManager.promises
        ((HandlerManager.callHandlers "e" (Message "e" "data") >>
          HandlerManager.timeout_elapses 1)%comp example_two_promises).1.1 !! 1%nat
    = Some (Promise.Rejected (Promise.Rejection "time out e")).
Proof. split; vm_compute; reflexivity. Qed.

(** C8. [detachAll] on a manager with one handler removes nothing and runs
    no hook: [handlers.keys()] is empty, the lists being properties of the
    object and no entries of the [Map]. *)
Theorem detachAll_removes_nothing :
  HandlerManager.properties example_one_handler !! "e" = Some (Some [(Function_ 0, -1)])
  ∧ HandlerManager.detachAll example_one_handler
    = (example_one_handler, [], Normal tt).
Proof. split; vm_compute; reflexivity. Qed.

(** [detachAll] does nothing as long as [handlers.keys()] is empty. *)
Lemma detachAll_noop (s : HandlerManager.t) :
  no_map_keys s → HandlerManager.detachAll s = (s, [], Normal tt).
Proof.
  unfold no_map_keys, HandlerManager.detachAll, bind, read. simpl. by intros ->.
Qed.

(** C3. The same [bootstrap] is called twice on a connected client, and the
    definitions of [A] and [D1] arrive.  Nothing is sent before the second
    definition is there; then one [action] packet is sent in all, by the
    first call; the second call still waits for both definitions, whose
    handlers were skipped, and has sent nothing. *)
Theorem bootstrap_second_call_sends_nothing :
  (Client.run (take 5 example_two_bootstraps) Client.new).2 = []
  ∧ (Client.run example_two_bootstraps Client.new).2
    = [Client.Sent 0 (RotondeConnection.sendAction "A" "payload")]
  ∧ Client.composites (Client.run example_two_bootstraps Client.new).1
    = [{| Client.source := Client.EventHandlers; Client.waits := [];
          Client.continuation := None; Client.outcome := Promise.Fulfilled [] |};
       {| Client.source := Client.DefinitionHandlers; Client.waits := [2%nat; 3%nat];
          Client.continuation := Some ([("A", "payload")], [], Some 1000);
          Client.outcome := Promise.Pending |}]
  ∧ Client.searchDefinitions
      (Client.remoteDefinitions (Client.run example_two_bootstraps Client.new).1) "A"
    = [{| identifier := "A"; type := "action"; fields := [] |}]
  ∧ Client.searchDefinitions
      (Client.remoteDefinitions (Client.run example_two_bootstraps Client.new).1) "D1"
    = [{| identifier := "D1"; type := "event"; fields := [] |}].
Proof. repeat split; vm_compute; reflexivity. Qed.

(** *** [handlers.keys()] stays empty *)

Section ManagerInvariant.
Context (I : HandlerManager.t → Prop).

(** An invariant that is kept by the three kinds of writes of a manager (a
    property is assigned; a promise is settled if it was pending, or its
    timer changes; a promise is made) is kept by every method. *)
Hypothesis I_set_property : ∀ s identifier v,
  I s → I (HandlerManager.with_property s identifier v).

Hypothesis I_alter : ∀ s p f,
  I s →
  (∀ c, settled c ≠ Promise.Pending → settled (f c) = settled c) →
  (∀ c, awaited (f c) = awaited c) →
  I (HandlerManager.with_promises s (alter f p (HandlerManager.promises s))).

Hypothesis I_new_cell : ∀ s c,
  I s → I (HandlerManager.with_promises s (HandlerManager.promises s ++ [c])).

Lemma manager_set_property identifier v :
  preserves I (HandlerManager.set_property identifier v).
Proof. unfold HandlerManager.set_property. preserve. by apply I_set_property. Qed.

Lemma manager_property identifier : preserves I (HandlerManager.property identifier).
Proof. unfold HandlerManager.property. preserve. Qed.

Lemma manager_resolve p data : preserves I (HandlerManager.resolve p data).
Proof.
  intros s Hs. simpl.
  apply I_alter; [done|by intros [? ? ?] ?; destruct settled0|done].
Qed.

Lemma manager_reject p message : preserves I (HandlerManager.reject p message).
Proof.
  intros s Hs. simpl.
  apply I_alter; [done|by intros [? ? ?] ?; destruct settled0|done].
Qed.

Lemma manager_set_timer p t' : preserves I (HandlerManager.set_timer p t').
Proof. intros s Hs. simpl. by apply I_alter. Qed.

Lemma manager_detachAtIndex identifier index :
  preserves I (HandlerManager.detachAtIndex identifier index).
Proof.
  unfold HandlerManager.detachAtIndex.
  preserve; auto using manager_property, manager_set_property.
Qed.

Lemma manager_fn p data : preserves I (HandlerManager.fn p data).
Proof.
  unfold HandlerManager.fn.
  preserve; auto using manager_resolve, manager_set_timer.
Qed.

Lemma manager_call callback param : preserves I (HandlerManager.call callback param).
Proof. unfold HandlerManager.call. preserve. apply manager_fn. Qed.

Lemma manager_callHandlers_loop fuel identifier param i h :
  preserves I (HandlerManager.callHandlers_loop fuel identifier param i h).
Proof.
  revert i h. induction fuel as [|fuel IH]; intros i h; simpl;
    preserve; auto using manager_set_property, manager_detachAtIndex, manager_call.
Qed.

Lemma manager_callHandlers identifier param :
  preserves I (HandlerManager.callHandlers identifier param).
Proof.
  unfold HandlerManager.callHandlers.
  preserve; auto using manager_property, manager_callHandlers_loop.
Qed.

Lemma manager_attach identifier callback callCount :
  preserves I (HandlerManager.attach identifier callback callCount).
Proof.
  unfold HandlerManager.attach.
  preserve; auto using manager_property, manager_set_property.
Qed.

Lemma manager_detach_loop fuel identifier callback i h :
  preserves I (HandlerManager.detach_loop fuel identifier callback i h).
Proof.
  revert i h. induction fuel as [|fuel IH]; intros i h; simpl;
    preserve; auto using manager_detachAtIndex.
Qed.

Lemma manager_detach identifier callback :
  preserves I (HandlerManager.detach identifier callback).
Proof.
  unfold HandlerManager.detach.
  preserve; auto using manager_property, manager_detach_loop.
Qed.

Lemma manager_detachAll_loop fuel identifier i :
  preserves I (HandlerManager.detachAll_loop fuel identifier i).
Proof.
  revert i. induction fuel as [|fuel IH]; intros i; simpl;
    preserve; auto using manager_property, manager_detachAtIndex.
Qed.

Lemma manager_detachAll : preserves I HandlerManager.detachAll.
Proof.
  unfold HandlerManager.detachAll.
  preserve; auto using manager_property, manager_detachAll_loop.
Qed.

Lemma manager_makePromise identifier timeout :
  preserves I (HandlerManager.makePromise identifier timeout).
Proof.
  unfold HandlerManager.makePromise, HandlerManager.attachOnce.
  apply preserves_read_bind. intros s Hs.
  apply preserves_bind_at; [simpl; by apply I_new_cell|]. intros _.
  preserve; auto using manager_attach, manager_set_timer.
Qed.

Lemma manager_timeout_elapses p : preserves I (HandlerManager.timeout_elapses p).
Proof.
  unfold HandlerManager.timeout_elapses, HandlerManager.on_timeout.
  preserve; auto using manager_set_timer, manager_detach, manager_reject.
Qed.

End ManagerInvariant.

(** No method writes an entry of the [Map]. *)
Lemma no_map_keys_run_method (m : method) : preserves no_map_keys (run_method m).
Proof.
  destruct m; simpl.
  - apply (manager_attach no_map_keys); by intros.
  - apply (manager_attach no_map_keys); by intros.
  - apply (manager_detach no_map_keys); by intros.
  - apply (manager_detachAll no_map_keys); by intros.
  - apply (manager_callHandlers no_map_keys); by intros.
  - apply preserves_bind; [|intros; apply preserves_ret].
    apply (manager_makePromise no_map_keys); by intros.
  - apply (manager_timeout_elapses no_map_keys); by intros.
Qed.

Lemma no_map_keys_run_methods (ms : list method) (s : HandlerManager.t) :
  no_map_keys s → no_map_keys (run_methods ms s).
Proof.
  revert s. induction ms as [|m ms IH]; intros s Hs; simpl; [done|].
  apply IH. by apply no_map_keys_run_method.
Qed.

(** X1. Whatever was called on a manager before, [detachAll] changes
    nothing and runs no hook: the entries stay registered. *)
Theorem detachAll_changes_nothing (ms : list method) :
  HandlerManager.detachAll (run_methods ms HandlerManager.new)
  = (run_methods ms HandlerManager.new, [], Normal tt).
Proof. apply detachAll_noop. by apply no_map_keys_run_methods. Qed.

(** *** A settled promise stays as it is *)

Lemma settled_as_run_method (p : nat) (st : Promise.state Payload) (m : method) :
  st ≠ Promise.Pending → preserves (settled_as p st) (run_method m).
Proof.
  intros Hst.
  assert (H1 : ∀ s identifier v,
            settled_as p st s →
            settled_as p st (HandlerManager.with_property s identifier v)) by done.
  assert (H2 : ∀ s q f,
            settled_as p st s →
            (∀ c, settled c ≠ Promise.Pending → settled (f c) = settled c) →
            (∀ c, awaited (f c) = awaited c) →
            settled_as p st
              (HandlerManager.with_promises s (alter f q (HandlerManager.promises s)))).
  { unfold settled_as. simpl. intros s q f Hs Hf _.
    destruct (decide (q = p)) as [->|Hne].
    - rewrite list_lookup_alter_eq.
      destruct (HandlerManager.promises s !! p) as [c|]; simpl in *; [|done].
      f_equal. injection Hs as Hs. rewrite Hf; [done|]. by rewrite Hs.
    - by rewrite list_lookup_alter_ne. }
  assert (H3 : ∀ s c,
            settled_as p st s →
            settled_as p st
              (HandlerManager.with_promises s (HandlerManager.promises s ++ [c]))).
  { unfold settled_as. simpl. intros s c Hs.
    destruct (HandlerManager.promises s !! p) as [c'|] eqn:Hp; [|done].
    by rewrite (lookup_app_l_Some _ _ _ _ Hp). }
  destruct m; simpl.
  - by apply manager_attach.
  - by apply manager_attach.
  - by apply manager_detach.
  - by apply manager_detachAll.
  - by apply manager_callHandlers.
  - apply preserves_bind; [|intros; apply preserves_ret]. by apply manager_makePromise.
  - by apply manager_timeout_elapses.
Qed.

(** X2. Once a promise is fulfilled or rejected, no later call of a
    method, no dispatch and no timeout changes that. *)
Theorem settled_as_run_methods (p : nat) (st : Promise.state Payload) (ms : list method)
    (s : HandlerManager.t) :
  st ≠ Promise.Pending → settled_as p st s → settled_as p st (run_methods ms s).
Proof.
  intros Hst. revert s. induction ms as [|m ms IH]; intros s Hs; simpl; [done|].
  apply IH. by apply settled_as_run_method.
Qed.

Lemma settled_as_run_methods_witness :
  settled_as 0 (Promise.Fulfilled (Message "e" "data"))
    (run_methods [MTimeoutElapses 0; MCallHandlers "e" (Message "e" "other")]
       (HandlerManager.callHandlers "e" (Message "e" "data")
          (HandlerManager.makePromise "e" (Some 50) HandlerManager.new).1.1).1.1).
Proof.
  apply (settled_as_run_methods 0 (Promise.Fulfilled (Message "e" "data"))
           [MTimeoutElapses 0; MCallHandlers "e" (Message "e" "other")]);
    [discriminate|reflexivity].
Defined.

(** *** What the loops compute *)

Lemma get_with_property (s : HandlerManager.t) (identifier : string)
    (v : option (list HandlerManager.entry)) :
  HandlerManager.get (HandlerManager.with_property s identifier v) identifier = v.
Proof. unfold HandlerManager.get. simpl. by rewrite lookup_insert_eq. Qed.

Lemma get_with_property_ne (s : HandlerManager.t) (identifier identifier' : string)
    (v : option (list HandlerManager.entry)) :
  identifier ≠ identifier' →
  HandlerManager.get (HandlerManager.with_property s identifier v) identifier'
  = HandlerManager.get s identifier'.
Proof. intros ?. unfold HandlerManager.get. simpl. by rewrite lookup_insert_ne. Qed.

Lemma detachAtIndex_run (identifier : string) (index : nat) (s : HandlerManager.t)
    (h : list HandlerManager.entry) :
  HandlerManager.get s identifier = Some h →
  HandlerManager.detachAtIndex identifier index s
  = if bool_decide (length (delete index h) = 0%nat)
    then (HandlerManager.with_property
            (HandlerManager.with_property s identifier (Some (delete index h)))
            identifier None,
          [HandlerManager.LastRemoved identifier], Normal (delete index h))
    else (HandlerManager.with_property s identifier (Some (delete index h)),
          [], Normal (delete index h)).
Proof.
  intros Hh.
  unfold HandlerManager.detachAtIndex, HandlerManager.property, bind, read, ret.
  simpl. rewrite Hh. simpl. by case_bool_decide.
Qed.

(** A call changes no property, and is logged if it is one of a function of
    the application. *)
Lemma call_run (callback : Callback) (param : Payload) (s : HandlerManager.t) :
  ∃ cells,
    HandlerManager.call callback param s
    = (HandlerManager.with_promises s cells,
       match callback with
       | Function_ n => [HandlerManager.Called n param]
       | PromiseFn _ => []
       end,
       Normal tt).
Proof.
  destruct callback as [n|p]; simpl.
  - exists (HandlerManager.promises s). by destruct s.
  - unfold HandlerManager.fn, HandlerManager.resolve, HandlerManager.set_promises,
      bind, read, write. simpl.
    match goal with
    | |- context [timer <$> ?l !! p] => destruct (timer <$> l !! p) as [[]|]
    end; simpl; eexists; reflexivity.
Qed.

Lemma drop_S_delete {A} (l : list A) (i : nat) :
  (i < length l)%nat → drop (S i) (delete i l) = drop (S (S i)) l.
Proof.
  intros Hi. rewrite delete_take_drop.
  rewrite drop_app_ge by (rewrite length_take; lia).
  rewrite length_take, drop_drop. f_equal. lia.
Qed.

Lemma called_skip_true (l : list HandlerManager.entry) :
  called_skip true l = called (drop 1 l).
Proof. by destruct l as [|[? ?] ?]. Qed.

Lemma calls_of_app (l1 l2 : list HandlerManager.effect) :
  calls_of (l1 ++ l2) = calls_of l1 ++ calls_of l2.
Proof. unfold calls_of. apply omap_app. Qed.

(** C1 in general.  The loop of [callHandlers] ends without exception on
    every array, and the functions it calls from index [i] on are those of
    [called]: each entry in order, but for the entry that follows one
    called for the last time. *)
Lemma callHandlers_loop_run (fuel : nat) (identifier : string) (param : Payload)
    (i : nat) (h : list HandlerManager.entry) (s : HandlerManager.t) :
  h = [] ∨ HandlerManager.get s identifier = Some h →
  (length h - i < fuel)%nat →
  ∃ s' log,
    HandlerManager.callHandlers_loop fuel identifier param i h s = (s', log, Normal tt)
    ∧ calls_of log = functions_of (called (drop i h)).
Proof.
  revert i h s. induction fuel as [|fuel IH]; intros i h s Hh Hfuel; [lia|].
  destruct (h !! i) as [[callback callCount]|] eqn:Hi.
  2:{ exists s, []. cbn [HandlerManager.callHandlers_loop]. rewrite Hi. split; [done|].
      apply lookup_ge_None in Hi. by rewrite drop_ge. }
  pose proof (lookup_lt_Some _ _ _ Hi) as Hlt.
  destruct Hh as [->|Hh]; [simpl in Hlt; lia|].
  rewrite (drop_S _ _ _ Hi). unfold called.
  cbn [HandlerManager.callHandlers_loop called_skip]. rewrite Hi.
  destruct (0 <? callCount) eqn:Hpos.
  - set (h1 := <[i := (callback, callCount - 1)]> h).
    set (s1 := HandlerManager.with_property s identifier (Some h1)).
    assert (Hs1 : HandlerManager.get s1 identifier = Some h1) by apply get_with_property.
    assert (Hlen1 : length h1 = length h) by apply length_insert.
    destruct (callCount - 1 =? 0) eqn:Hzero.
    + assert ((callCount =? 1) = true) as -> by lia.
      set (h2 := delete i h1).
      assert (Hlen2 : (length h2 = length h - 1)%nat)
        by (unfold h2; rewrite length_delete; [lia|by apply lookup_lt_is_Some; lia]).
      assert (∃ s2 log2,
                 HandlerManager.detachAtIndex identifier i s1 = (s2, log2, Normal h2)
                 ∧ calls_of log2 = []
                 ∧ (h2 = [] ∨ HandlerManager.get s2 identifier = Some h2))
        as (s2 & log2 & Hd & Hlog2 & Hs2).
      { rewrite (detachAtIndex_run _ _ _ _ Hs1). fold h2. case_bool_decide as Hnil.
        - eexists _, _. split; [done|]. split; [done|]. left.
          by apply length_zero_iff_nil.
        - eexists _, _. split; [done|]. split; [done|]. right. apply get_with_property. }
      destruct (call_run callback param s2) as [cells Hc].
      destruct (IH (S i) h2 (HandlerManager.with_promises s2 cells)) as (s' & log' & Hl & Hcalls).
      { destruct Hs2 as [?|?]; [by left|by right]. }
      { lia. }
      exists s', (log2 ++ (match callback with
                           | Function_ n => [HandlerManager.Called n param]
                           | PromiseFn _ => []
                           end ++ log')).
      split.
      * unfold bind at 1. unfold bind at 1.
        change (HandlerManager.set_property identifier (Some h1) s) with (s1, @nil HandlerManager.effect, Normal tt).
        simpl. rewrite Hd. simpl.
        unfold bind at 1. rewrite Hc. by rewrite Hl.
      * rewrite !calls_of_app, Hlog2, Hcalls. simpl.
        rewrite called_skip_true, drop_drop.
        unfold h2. rewrite drop_S_delete by lia.
        unfold h1. rewrite drop_insert_lt by lia.
        replace (S (S i)) with (S i + 1)%nat by lia.
        by destruct callback.
    + assert ((callCount =? 1) = false) as -> by lia.
      destruct (call_run callback param s1) as [cells Hc].
      destruct (IH (S i) h1 (HandlerManager.with_promises s1 cells)) as (s' & log' & Hl & Hcalls).
      { by right. }
      { lia. }
      exists s', (match callback with
                  | Function_ n => [HandlerManager.Called n param]
                  | PromiseFn _ => []
                  end ++ log').
      split.
      * unfold bind at 1. unfold bind at 1.
        change (HandlerManager.set_property identifier (Some h1) s) with (s1, @nil HandlerManager.effect, Normal tt).
        simpl. unfold bind at 1. rewrite Hc. by rewrite Hl.
      * rewrite calls_of_app, Hcalls. unfold h1. rewrite drop_insert_lt by lia.
        by destruct callback.
  - assert ((callCount =? 1) = false) as -> by lia.
    destruct (call_run callback param s) as [cells Hc].
    destruct (IH (S i) h (HandlerManager.with_promises s cells)) as (s' & log' & Hl & Hcalls).
    { by right. }
    { lia. }
    exists s', (match callback with
                | Function_ n => [HandlerManager.Called n param]
                | PromiseFn _ => []
                end ++ log').
    split.
    + unfold bind at 1. simpl. unfold bind at 1. rewrite Hc. by rewrite Hl.
    + rewrite calls_of_app, Hcalls. by destruct callback.
Qed.

Lemma callHandlers_run (identifier : string) (param : Payload) (s : HandlerManager.t) :
  ∃ s' log,
    HandlerManager.callHandlers identifier param s = (s', log, Normal tt)
    ∧ calls_of log
      = functions_of (called (default [] (HandlerManager.get s identifier))).
Proof.
  unfold HandlerManager.callHandlers, HandlerManager.property.
  unfold bind at 1. unfold bind at 1. unfold read, ret. cbn beta iota.
  destruct (HandlerManager.get s identifier) as [h|] eqn:Hh; cbn beta iota.
  - destruct (callHandlers_loop_run (S (length h)) identifier param 0 h s)
      as (s' & log & Hl & Hc); [by right|lia|].
    exists s', log. by rewrite Hl.
  - by exists s, [].
Qed.

(** Where no entry is called for the last time, every entry is called, in
    the order of registration. *)
Lemma called_all (h : list HandlerManager.entry) :
  (∀ e, e ∈ h → e.2 ≠ 1) → called h = h.*1.
Proof.
  unfold called. induction h as [|[callback callCount] h IH]; intros Hh; [done|].
  simpl. assert ((callCount =? 1) = false) as ->.
  { apply Z.eqb_neq. apply (Hh (callback, callCount)). by left. }
  f_equal. apply IH. intros e ?. apply Hh. by right.
Qed.

(** [attach] runs the first hook exactly when the identifier has no list,
    and appends the entry. *)
Lemma attach_run (identifier : string) (callback : Callback) (callCount : option Z)
    (s : HandlerManager.t) :
  ∃ s',
    HandlerManager.attach identifier callback callCount s
    = (s',
       match HandlerManager.get s identifier with
       | None => [HandlerManager.FirstAdded identifier]
       | Some _ => []
       end,
       Normal tt)
    ∧ HandlerManager.get s' identifier
      = Some (default [] (HandlerManager.get s identifier)
              ++ [(callback, default (-1) callCount)]).
Proof.
  unfold HandlerManager.attach, HandlerManager.property, bind, read, ret. simpl.
  destruct (HandlerManager.get s identifier) as [h|] eqn:Hh; simpl.
  - eexists. split; [done|]. apply get_with_property.
  - eexists. split; [done|]. apply get_with_property.
Qed.

(** *** [detach] and the timeout of a promise *)

Lemma detach_loop_no_match (fuel : nat) (identifier : string) (callback : Callback)
    (i : nat) (h : list HandlerManager.entry) (s : HandlerManager.t) :
  (∀ j e, (i ≤ j)%nat → h !! j = Some e → e.1 ≠ callback) →
  (length h - i < fuel)%nat →
  HandlerManager.detach_loop fuel identifier callback i h s = (s, [], Normal tt).
Proof.
  revert i. induction fuel as [|fuel IH]; intros i Hne Hfuel; [lia|].
  cbn [HandlerManager.detach_loop].
  destruct (h !! i) as [[cb c]|] eqn:Hi; [|done].
  pose proof (lookup_lt_Some _ _ _ Hi) as Hlt.
  rewrite bool_decide_eq_false_2 by (apply (Hne i (cb, c)); [lia|done]).
  unfold bind at 1. simpl.
  rewrite IH; [done| |lia].
  intros j e ? ?. apply (Hne j); [lia|done].
Qed.

(** When the callback has one entry, [detach] removes it, and runs the last
    hook if the list is empty then. *)
Lemma detach_loop_one (fuel : nat) (identifier : string) (callback : Callback)
    (i : nat) (pre post : list HandlerManager.entry) (c : Z) (s : HandlerManager.t) :
  HandlerManager.get s identifier = Some (pre ++ (callback, c) :: post) →
  callback ∉ pre.*1 → callback ∉ post.*1 →
  (i ≤ length pre)%nat →
  (length (pre ++ (callback, c) :: post) - i < fuel)%nat →
  HandlerManager.detach_loop fuel identifier callback i (pre ++ (callback, c) :: post) s
  = if bool_decide (length (pre ++ post) = 0%nat)
    then (HandlerManager.with_property
            (HandlerManager.with_property s identifier (Some (pre ++ post)))
            identifier None,
          [HandlerManager.LastRemoved identifier], Normal tt)
    else (HandlerManager.with_property s identifier (Some (pre ++ post)),
          [], Normal tt).
Proof.
  intros Hs Hpre Hpost. revert i.
  induction fuel as [|fuel IH]; intros i Hi Hfuel; [lia|].
  rewrite length_app in Hfuel. simpl in Hfuel.
  cbn [HandlerManager.detach_loop].
  destruct (decide (i = length pre)) as [->|Hne].
  - rewrite list_lookup_middle by done.
    rewrite bool_decide_eq_true_2 by done.
    unfold bind at 1. rewrite (detachAtIndex_run _ _ _ _ Hs).
    rewrite delete_middle.
    assert (Hrest : ∀ s2,
              HandlerManager.detach_loop fuel identifier callback (S (length pre))
                (pre ++ post) s2 = (s2, [], Normal tt)).
    { intros s2. apply detach_loop_no_match; [|rewrite length_app; lia].
      intros j [cb' c'] Hj Hl. simpl. intros ->.
      rewrite lookup_app_r in Hl by lia.
      apply Hpost. apply list_elem_of_fmap. exists (callback, c').
      split; [done|]. by apply list_elem_of_lookup_2 in Hl. }
    case_bool_decide; rewrite Hrest; by rewrite ?app_nil_r.
  - assert (is_Some (pre !! i)) as [[cb' c'] Hl] by (apply lookup_lt_is_Some; lia).
    rewrite (lookup_app_l_Some _ _ _ _ Hl).
    rewrite bool_decide_eq_false_2.
    2:{ intros ->. apply Hpre. apply list_elem_of_fmap. exists (callback, c').
        split; [done|]. by apply list_elem_of_lookup_2 in Hl. }
    unfold bind at 1. simpl. rewrite IH; [|lia|rewrite length_app; simpl; lia].
    by case_bool_decide.
Qed.

(** X3. When the timer of a pending promise runs out while its function
    is registered, the function is detached first and the promise is then
    rejected with a message that carries the identifier. *)
Theorem timeout_elapses_rejects (p : nat) (identifier : string)
    (pre post : list HandlerManager.entry) (c : Z) (s : HandlerManager.t) :
  HandlerManager.promises s !! p
  = Some {| settled := Promise.Pending; timer := Armed; awaited := identifier |} →
  HandlerManager.get s identifier = Some (pre ++ (PromiseFn p, c) :: post) →
  PromiseFn p ∉ pre.*1 → PromiseFn p ∉ post.*1 →
  (HandlerManager.timeout_elapses p s).2 = Normal tt
  ∧ HandlerManager.promises (HandlerManager.timeout_elapses p s).1.1 !! p
    = Some {| settled := Promise.Rejected (Promise.Rejection ("time out " +:+ identifier));
              timer := Fired; awaited := identifier |}
  ∧ HandlerManager.get (HandlerManager.timeout_elapses p s).1.1 identifier
    = (if bool_decide (length (pre ++ post) = 0%nat) then None else Some (pre ++ post)).
Proof.
  intros Hp Hs Hpre Hpost.
  set (s1 := HandlerManager.with_promises s
               (alter (λ c0, {| settled := settled c0; timer := Fired;
                                awaited := awaited c0 |}) p (HandlerManager.promises s))).
  assert (Hs1 : HandlerManager.get s1 identifier = Some (pre ++ (PromiseFn p, c) :: post))
    by done.
  assert (Hd : HandlerManager.detach identifier (PromiseFn p) s1
               = HandlerManager.detach_loop (S (length (pre ++ (PromiseFn p, c) :: post)))
                   identifier (PromiseFn p) 0 (pre ++ (PromiseFn p, c) :: post) s1).
  { unfold HandlerManager.detach, HandlerManager.property.
    unfold bind at 1. unfold bind at 1. unfold read, ret. cbn beta iota.
    rewrite Hs1. cbn beta iota.
    by destruct (HandlerManager.detach_loop _ _ _ _ _ _) as [[? ?] ?]. }
  rewrite (detach_loop_one _ _ _ _ _ _ _ _ Hs1 Hpre Hpost) in Hd by lia.
  assert (Hcell : ∀ l : list Cell,
            l !! p = Some {| settled := Promise.Pending; timer := Armed;
                             awaited := identifier |} →
            alter (λ c0, {| settled := Promise.reject (settled c0)
                                         (Promise.Rejection ("time out " +:+ identifier));
                            timer := timer c0; awaited := awaited c0 |}) p
              (alter (λ c0, {| settled := settled c0; timer := Fired;
                               awaited := awaited c0 |}) p l) !! p
            = Some {| settled := Promise.Rejected
                                   (Promise.Rejection ("time out " +:+ identifier));
                      timer := Fired; awaited := identifier |}).
  { intros l Hl. by rewrite !list_lookup_alter_eq, Hl. }
  assert (Hrun : ∃ s2 log,
            HandlerManager.detach identifier (PromiseFn p) s1 = (s2, log, Normal tt)
            ∧ HandlerManager.promises s2 = HandlerManager.promises s1
            ∧ HandlerManager.get s2 identifier
              = (if bool_decide (length (pre ++ post) = 0%nat) then None
                 else Some (pre ++ post))).
  { rewrite Hd. case_bool_decide; eexists _, _;
      (split; [done|]); (split; [done|]); by rewrite get_with_property. }
  destruct Hrun as (s2 & log & Hd2 & Hp2 & Hg2).
  assert (Ht : HandlerManager.timeout_elapses p s
               = (HandlerManager.with_promises s2
                    (alter (λ c0, {| settled := Promise.reject (settled c0)
                                      (Promise.Rejection ("time out " +:+ identifier));
                                     timer := timer c0; awaited := awaited c0 |})
                           p (HandlerManager.promises s2)),
                  log ++ [], Normal tt)).
  { unfold HandlerManager.timeout_elapses. unfold bind at 1. unfold read. cbn beta iota.
    rewrite Hp. cbn [timer awaited].
    rewrite (bind_normal _ _ s s1 [] tt) by reflexivity.
    unfold HandlerManager.on_timeout.
    by rewrite (bind_normal _ _ s1 _ _ tt Hd2). }
  rewrite Ht. cbn [fst snd HandlerManager.promises HandlerManager.with_promises].
  split; [done|]. split; [|done].
  rewrite Hp2. by apply Hcell.
Qed.

Lemma timeout_elapses_rejects_witness :
  HandlerManager.promises
    (HandlerManager.timeout_elapses 0
       (HandlerManager.makePromise "e" (Some 50) HandlerManager.new).1.1).1.1 !! 0%nat
  = Some {| settled := Promise.Rejected (Promise.Rejection "time out e");
            timer := Fired; awaited := "e" |}.
Proof.
  refine (proj1 (proj2 (timeout_elapses_rejects 0 "e" [] [] 1
    (HandlerManager.makePromise "e" (Some 50) HandlerManager.new).1.1 _ _ _ _)));
    [reflexivity|reflexivity|apply not_elem_of_nil|apply not_elem_of_nil].
Defined.

(** *** The hooks follow the transitions *)

Lemma hooks_of_app (l1 l2 : list HandlerManager.effect) :
  hooks_of (l1 ++ l2) = hooks_of l1 ++ hooks_of l2.
Proof. unfold hooks_of. apply omap_app. Qed.

Lemma get_Some_lookup (s : HandlerManager.t) (identifier : string)
    (h : list HandlerManager.entry) :
  HandlerManager.get s identifier = Some h →
  HandlerManager.properties s !! identifier = Some (Some h).
Proof.
  unfold HandlerManager.get.
  by destruct (HandlerManager.properties s !! identifier) as [[?|]|]; intros [= ->].
Qed.

Lemma hooks_of_call (callback : Callback) (param : Payload) :
  hooks_of match callback with
           | Function_ n => [HandlerManager.Called n param]
           | PromiseFn _ => []
           end = [].
Proof. by destruct callback. Qed.

(** What is left of the list of [identifier] after the loop, as it is
    stored: [undefined] when nothing is left. *)
Lemma callHandlers_loop_hooks (fuel : nat) (identifier : string) (param : Payload)
    (i : nat) (h : list HandlerManager.entry) (s : HandlerManager.t) :
  h ≠ [] → HandlerManager.get s identifier = Some h → (length h - i < fuel)%nat →
  ∃ s' log h',
    HandlerManager.callHandlers_loop fuel identifier param i h s = (s', log, Normal tt)
    ∧ HandlerManager.map_keys s' = HandlerManager.map_keys s
    ∧ HandlerManager.properties s'
      = <[identifier := if bool_decide (h' = []) then None else Some h']>
          (HandlerManager.properties s)
    ∧ hooks_of log
      = if bool_decide (h' = []) then [HandlerManager.LastRemoved identifier] else [].
Proof.
  revert i h s. induction fuel as [|fuel IH]; intros i h s Hne Hh Hfuel; [lia|].
  cbn [HandlerManager.callHandlers_loop].
  destruct (h !! i) as [[callback callCount]|] eqn:Hi.
  2:{ exists s, [], h. rewrite bool_decide_eq_false_2 by done.
      split; [done|]. split; [done|]. split; [|done].
      symmetry. apply insert_id. by apply get_Some_lookup. }
  pose proof (lookup_lt_Some _ _ _ Hi) as Hlt.
  assert (Hcont : ∀ h1 s1,
            h1 ≠ [] → (length h1 ≤ length h)%nat →
            HandlerManager.get s1 identifier = Some h1 →
            HandlerManager.map_keys s1 = HandlerManager.map_keys s →
            HandlerManager.properties s1
            = <[identifier := Some h1]> (HandlerManager.properties s) →
            ∃ s' log h',
              (HandlerManager.call callback param >>
               HandlerManager.callHandlers_loop fuel identifier param (S i) h1)%comp s1
              = (s', log, Normal tt)
              ∧ HandlerManager.map_keys s' = HandlerManager.map_keys s
              ∧ HandlerManager.properties s'
                = <[identifier := if bool_decide (h' = []) then None else Some h']>
                    (HandlerManager.properties s)
              ∧ hooks_of log
                = if bool_decide (h' = []) then [HandlerManager.LastRemoved identifier]
                  else []).
  { intros h1 s1 Hne1 Hlen Hs1 Hk1 Hp1.
    destruct (call_run callback param s1) as [cells Hc].
    destruct (IH (S i) h1 (HandlerManager.with_promises s1 cells))
      as (s' & log' & h' & Hl & Hk & Hp & Hlog); [done|done|lia|].
    eexists s', _, h'.
    rewrite (bind_normal _ _ _ _ _ _ Hc), Hl.
    split; [done|]. split; [by rewrite Hk|]. split.
    - rewrite Hp. simpl. by rewrite Hp1, insert_insert_eq.
    - by rewrite hooks_of_app, hooks_of_call, Hlog. }
  destruct (0 <? callCount) eqn:Hpos.
  - set (h1 := <[i := (callback, callCount - 1)]> h).
    set (s1 := HandlerManager.with_property s identifier (Some h1)).
    assert (Hs1 : HandlerManager.get s1 identifier = Some h1) by apply get_with_property.
    assert (Hlen1 : length h1 = length h) by apply length_insert.
    destruct (callCount - 1 =? 0) eqn:Hzero.
    + set (h2 := delete i h1).
      assert (Hlen2 : (length h2 = length h - 1)%nat)
        by (unfold h2; rewrite length_delete; [lia|by apply lookup_lt_is_Some; lia]).
      destruct (decide (h2 = [])) as [Hnil|Hnil].
      * assert (Hin : (HandlerManager.set_property identifier (Some h1) >>
                       HandlerManager.detachAtIndex identifier i)%comp s
                      = (HandlerManager.with_property
                           (HandlerManager.with_property s1 identifier (Some h2))
                           identifier None,
                         [] ++ [HandlerManager.LastRemoved identifier], Normal h2)).
        { rewrite (bind_normal _ _ s s1 [] tt) by reflexivity.
          rewrite (detachAtIndex_run _ _ _ _ Hs1). fold h2.
          rewrite bool_decide_eq_true_2; [done|by rewrite Hnil]. }
        rewrite (bind_normal _ _ _ _ _ _ Hin).
        destruct (call_run callback param
                    (HandlerManager.with_property
                       (HandlerManager.with_property s1 identifier (Some h2))
                       identifier None)) as [cells Hc].
        rewrite (bind_normal _ _ _ _ _ _ Hc).
        destruct fuel as [|fuel]; [lia|].
        cbn [HandlerManager.callHandlers_loop]. rewrite Hnil. cbn [lookup list_lookup].
        eexists _, _, []. split; [done|]. split; [done|]. split.
        -- unfold s1. simpl. by rewrite !insert_insert_eq.
        -- by destruct callback.
      * assert (Hin : (HandlerManager.set_property identifier (Some h1) >>
                       HandlerManager.detachAtIndex identifier i)%comp s
                      = (HandlerManager.with_property s1 identifier (Some h2),
                         [] ++ [], Normal h2)).
        { rewrite (bind_normal _ _ s s1 [] tt) by reflexivity.
          rewrite (detachAtIndex_run _ _ _ _ Hs1). fold h2.
          rewrite bool_decide_eq_false_2; [done|].
          by intros ?%length_zero_iff_nil. }
        rewrite (bind_normal _ _ _ _ _ _ Hin).
        destruct (Hcont h2 (HandlerManager.with_property s1 identifier (Some h2)))
          as (s' & log & h' & Hl & Hrest).
        { done. }
        { lia. }
        { apply get_with_property. }
        { done. }
        { simpl. by rewrite insert_insert_eq. }
        exists s', log, h'. by rewrite Hl.
    + assert (Hin : (HandlerManager.set_property identifier (Some h1) >> ret h1)%comp s
                    = (s1, [] ++ [], Normal h1)) by reflexivity.
      rewrite (bind_normal _ _ _ _ _ _ Hin).
      destruct (Hcont h1 s1) as (s' & log & h' & Hl & Hrest); try done.
      { intros Heq. rewrite Heq in Hlen1. simpl in Hlen1. lia. }
      { lia. }
      exists s', log, h'. by rewrite Hl.
  - rewrite (bind_normal _ _ s s [] h) by reflexivity.
    destruct (Hcont h s) as (s' & log & h' & Hl & Hrest); try done.
    { symmetry. apply insert_id. by apply get_Some_lookup. }
    exists s', log, h'. by rewrite Hl.
Qed.

Lemma detach_loop_hooks (fuel : nat) (identifier : string) (callback : Callback)
    (i : nat) (h : list HandlerManager.entry) (s : HandlerManager.t) :
  h ≠ [] → HandlerManager.get s identifier = Some h → (length h - i < fuel)%nat →
  ∃ s' log h',
    HandlerManager.detach_loop fuel identifier callback i h s = (s', log, Normal tt)
    ∧ HandlerManager.map_keys s' = HandlerManager.map_keys s
    ∧ HandlerManager.promises s' = HandlerManager.promises s
    ∧ HandlerManager.properties s'
      = <[identifier := if bool_decide (h' = []) then None else Some h']>
          (HandlerManager.properties s)
    ∧ log = if bool_decide (h' = []) then [HandlerManager.LastRemoved identifier] else [].
Proof.
  revert i h s. induction fuel as [|fuel IH]; intros i h s Hne Hh Hfuel; [lia|].
  cbn [HandlerManager.detach_loop].
  destruct (h !! i) as [[cb c]|] eqn:Hi.
  2:{ exists s, [], h. rewrite bool_decide_eq_false_2 by done.
      split; [done|]. split; [done|]. split; [done|]. split; [|done].
      symmetry. apply insert_id. by apply get_Some_lookup. }
  pose proof (lookup_lt_Some _ _ _ Hi) as Hlt.
  case_bool_decide as Hcb.
  - set (h2 := delete i h).
    assert (Hlen2 : (length h2 = length h - 1)%nat)
      by (unfold h2; rewrite length_delete; [lia|by apply lookup_lt_is_Some; lia]).
    unfold bind at 1. rewrite (detachAtIndex_run _ _ _ _ Hh). fold h2.
    destruct (decide (h2 = [])) as [Hnil|Hnil].
    + rewrite bool_decide_eq_true_2 by (by rewrite Hnil).
      destruct fuel as [|fuel]; [lia|].
      cbn [HandlerManager.detach_loop]. rewrite Hnil. cbn [lookup list_lookup].
      eexists _, _, []. split; [done|]. split; [done|]. split; [done|]. split; [|done].
      simpl. by rewrite !insert_insert_eq.
    + rewrite bool_decide_eq_false_2 by (by intros ?%length_zero_iff_nil).
      destruct (IH (S i) h2 (HandlerManager.with_property s identifier (Some h2)))
        as (s' & log & h' & Hl & Hk & Hpr & Hp & Hlog);
        [done|apply get_with_property|lia|].
      exists s', log, h'. rewrite Hl.
      split; [done|]. split; [done|]. split; [done|]. split; [|done].
      rewrite Hp. simpl. by rewrite insert_insert_eq.
  - rewrite (bind_normal _ _ s s [] h) by reflexivity.
    destruct (IH (S i) h s) as (s' & log & h' & Hl & Hrest); [done|done|lia|].
    exists s', log, h'. by rewrite Hl.
Qed.

Lemma transition_none (s : HandlerManager.t) : transition s s [].
Proof. split; [done|]. by left. Qed.

Lemma transition_with_promises (s s' : HandlerManager.t)
    (log : list HandlerManager.effect) (cells : list Cell) :
  transition s s' log → transition (HandlerManager.with_promises s cells) s' log.
Proof. done. Qed.

Lemma callHandlers_transition (identifier : string) (param : Payload)
    (s : HandlerManager.t) :
  well_formed s →
  ∃ s' log,
    HandlerManager.callHandlers identifier param s = (s', log, Normal tt)
    ∧ transition s s' log.
Proof.
  intros [_ Hwf].
  unfold HandlerManager.callHandlers, HandlerManager.property.
  unfold bind at 1. unfold bind at 1. unfold read, ret. cbn beta iota.
  destruct (HandlerManager.get s identifier) as [h|] eqn:Hh; cbn beta iota.
  - destruct (callHandlers_loop_hooks (S (length h)) identifier param 0 h s)
      as (s' & log & h' & Hl & Hk & Hp & Hlog); [|done|lia|].
    { intros ->. by apply (Hwf identifier). }
    exists s', log. rewrite Hl. split; [done|]. split; [done|]. right.
    exists identifier, (if bool_decide (h' = []) then None else Some h').
    rewrite Hh, Hlog. case_bool_decide; (split; [|done]); [done|by intros [= ?]].
  - exists s, []. split; [done|]. apply transition_none.
Qed.

Lemma detach_transition (identifier : string) (callback : Callback)
    (s : HandlerManager.t) :
  well_formed s →
  ∃ s' log,
    HandlerManager.detach identifier callback s = (s', log, Normal tt)
    ∧ HandlerManager.promises s' = HandlerManager.promises s
    ∧ transition s s' log.
Proof.
  intros [_ Hwf].
  unfold HandlerManager.detach, HandlerManager.property.
  unfold bind at 1. unfold bind at 1. unfold read, ret. cbn beta iota.
  destruct (HandlerManager.get s identifier) as [h|] eqn:Hh; cbn beta iota.
  - destruct (detach_loop_hooks (S (length h)) identifier callback 0 h s)
      as (s' & log & h' & Hl & Hk & Hpr & Hp & Hlog); [|done|lia|].
    { intros ->. by apply (Hwf identifier). }
    exists s', log. rewrite Hl. split; [done|]. split; [done|]. split; [done|]. right.
    exists identifier, (if bool_decide (h' = []) then None else Some h').
    rewrite Hh, Hlog. case_bool_decide; (split; [|done]); [done|by intros [= ?]].
  - exists s, []. split; [done|]. split; [done|]. apply transition_none.
Qed.

Lemma attach_transition (identifier : string) (callback : Callback)
    (callCount : option Z) (s : HandlerManager.t) :
  ∃ s' log,
    HandlerManager.attach identifier callback callCount s = (s', log, Normal tt)
    ∧ HandlerManager.promises s' = HandlerManager.promises s
    ∧ transition s s' log.
Proof.
  unfold HandlerManager.attach, HandlerManager.property.
  unfold bind at 1. unfold bind at 1. unfold read, ret. cbn beta iota.
  destruct (HandlerManager.get s identifier) as [h|] eqn:Hh; cbn beta iota.
  - eexists _, _. split; [reflexivity|]. split; [done|]. split; [done|]. right.
    exists identifier, (Some (h ++ [(callback, default (-1) callCount)])).
    rewrite Hh. split; [|done]. intros [= Heq]. by destruct h.
  - eexists _, _. split; [reflexivity|]. split; [done|]. split; [done|]. right.
    exists identifier, (Some [(callback, default (-1) callCount)]).
    rewrite Hh. split; [done|]. split; [|done].
    simpl. by rewrite insert_insert_eq.
Qed.

(** Every method changes the lists of at most one identifier, and runs the
    hook that belongs to the change, if any. *)
Lemma run_method_transition (m : method) (s : HandlerManager.t) :
  well_formed s →
  ∃ s' log, run_method m s = (s', log, Normal tt) ∧ transition s s' log.
Proof.
  intros Hwf. destruct m as [id cb cc|id cb|id cb| |id param|id timeout|p]; simpl.
  - destruct (attach_transition id (Function_ cb) cc s) as (s' & log & ? & _ & ?). eauto.
  - destruct (attach_transition id (Function_ cb) (Some 1) s) as (s' & log & ? & _ & ?).
    eauto.
  - destruct (detach_transition id (Function_ cb) s Hwf) as (s' & log & ? & _ & ?). eauto.
  - exists s, []. split; [apply detachAll_noop, Hwf|apply transition_none].
  - by apply callHandlers_transition.
  - unfold HandlerManager.makePromise. unfold bind at 1. unfold bind at 1.
    unfold read. cbn beta iota.
    rewrite (bind_normal _ _ s
               (HandlerManager.with_promises s
                  (HandlerManager.promises s ++
                   [{| settled := Promise.Pending; timer := NotSet; awaited := id |}]))
               [] tt) by reflexivity.
    match goal with
    | |- context [HandlerManager.attachOnce id ?cb] =>
        destruct (attach_transition id cb (Some 1)
                    (HandlerManager.with_promises s
                       (HandlerManager.promises s ++
                        [{| settled := Promise.Pending; timer := NotSet;
                            awaited := id |}])))
          as (s' & log & Ha & _ & Ht)
    end.
    unfold HandlerManager.attachOnce.
    rewrite (bind_normal _ _ _ _ _ _ Ha).
    destruct (truthy_timeout timeout).
    + eexists _, _. split; [reflexivity|]. rewrite !app_nil_r. simpl.
      destruct Ht as [Hk Ht]. split; [done|]. exact Ht.
    + eexists _, _. split; [reflexivity|]. by rewrite !app_nil_r.
  - unfold HandlerManager.timeout_elapses. unfold bind at 1. unfold read. cbn beta iota.
    destruct (HandlerManager.promises s !! p) as [c|]; [|eexists _, _; split; [done|apply transition_none]].
    destruct (timer c); try (eexists _, _; split; [done|apply transition_none]).
    rewrite (bind_normal _ _ s _ [] tt) by reflexivity.
    unfold HandlerManager.on_timeout.
    match goal with
    | |- context [HandlerManager.detach ?i ?cb >> _] =>
        match goal with
        | |- context [bind _ _ ?s1] =>
            destruct (detach_transition i cb s1) as (s' & log & Hd & _ & Ht); [done|]
        end
    end.
    rewrite (bind_normal _ _ _ _ _ _ Hd).
    eexists _, _. split; [reflexivity|]. rewrite !app_nil_r. simpl.
    destruct Ht as [Hk Ht]. split; [done|]. exact Ht.
Qed.

Lemma transition_hooks (s s' : HandlerManager.t) (log : list HandlerManager.effect)
    (identifier : string) :
  well_formed s → transition s s' log →
  well_formed s'
  ∧ first_added identifier log
    = (if bool_decide (entries s identifier = [] ∧ entries s' identifier ≠ [])
       then 1 else 0)%nat
  ∧ last_removed identifier log
    = (if bool_decide (entries s identifier ≠ [] ∧ entries s' identifier = [])
       then 1 else 0)%nat.
Proof.
  intros [Hkeys Hwf] [Hk [[Hp Hlog]|(id0 & h' & Hh' & Hp & Hlog)]].
  - assert (Hget : ∀ i, HandlerManager.get s' i = HandlerManager.get s i)
      by (intros i; unfold HandlerManager.get; by rewrite Hp).
    split; [split; [unfold no_map_keys; by rewrite Hk|]|].
    { intros i. rewrite Hget. apply Hwf. }
    unfold first_added, last_removed, entries. rewrite Hlog, Hget. simpl.
    rewrite !bool_decide_eq_false_2; [done|naive_solver..].
  - assert (Hget0 : HandlerManager.get s' id0 = h')
      by (unfold HandlerManager.get; by rewrite Hp, lookup_insert_eq).
    assert (Hget : ∀ i, i ≠ id0 → HandlerManager.get s' i = HandlerManager.get s i)
      by (intros i ?; unfold HandlerManager.get; by rewrite Hp, lookup_insert_ne).
    split; [split; [unfold no_map_keys; by rewrite Hk|]|].
    { intros i. destruct (decide (i = id0)) as [->|Hne].
      - by rewrite Hget0.
      - rewrite Hget by done. apply Hwf. }
    unfold first_added, last_removed, entries. rewrite Hlog.
    destruct (decide (identifier = id0)) as [->|Hne].
    + rewrite Hget0. pose proof (Hwf id0) as Hwf0.
      destruct (HandlerManager.get s id0) as [[|e l]|], h' as [[|e' l']|]; try done;
        simpl;
        rewrite ?filter_cons_True, ?filter_cons_False, ?filter_nil by (done || congruence);
        simpl;
        repeat case_bool_decide; naive_solver.
    + rewrite Hget by done.
      assert (∀ l : list HandlerManager.entry, ¬ (l = [] ∧ l ≠ [])) as Hl by naive_solver.
      assert (∀ l : list HandlerManager.entry, ¬ (l ≠ [] ∧ l = [])) as Hl' by naive_solver.
      rewrite !bool_decide_eq_false_2 by done.
      destruct (HandlerManager.get s id0), h'; simpl;
        rewrite ?filter_cons_False, ?filter_nil by congruence; done.
Qed.



Lemma well_formed_new : well_formed HandlerManager.new.
Proof. split; [done|]. intros identifier. unfold HandlerManager.get. simpl.
  by rewrite lookup_empty. Qed.

Lemma well_formed_run_methods (ms : list method) (s : HandlerManager.t) :
  well_formed s → well_formed (run_methods ms s).
Proof.
  revert s. induction ms as [|m ms IH]; intros s Hs; simpl; [done|].
  apply IH. destruct (run_method_transition m s Hs) as (s' & log & -> & Ht).
  by apply (transition_hooks s s' log "").
Qed.

(** ** Definitions before traffic *)

Lemma preserves_bind_yields {S E A B} (I : S → Prop) (Q : A → Prop)
    (m : M S E A) (k : A → M S E B) :
  yields I m Q → (∀ a, Q a → preserves I (k a)) → preserves I (bind m k).
Proof.
  intros Hm Hk s Hs. unfold bind. destruct (Hm s Hs) as [HI HQ].
  destruct (m s) as [[s1 log1] [a|e|]]; simpl in *; [|done..].
  specialize (Hk a (HQ a eq_refl) s1 HI). by destruct (k a s1) as [[s2 log2] r].
Qed.

Lemma yields_ret {S E A} (I : S → Prop) (Q : A → Prop) (a : A) :
  Q a → yields (E:=E) I (ret a) Q.
Proof. intros Ha s Hs. split; [done|]. by intros ? [= <-]. Qed.

(** Invariants of a manager that restrict which callbacks are registered
    under which identifier. *)
Section Policy.
Context (Inv : HandlerManager.t → Prop) (allowed : string → Callback → Prop)
        (callable : string → Prop).
Local Abbreviation adm := (admitted allowed).

Hypothesis Inv_with_property : ∀ s identifier' v,
  Inv s → (∀ h, v = Some h → adm identifier' h) →
  Inv (HandlerManager.with_property s identifier' v).
Hypothesis Inv_admitted : ∀ s identifier' h,
  Inv s → HandlerManager.get s identifier' = Some h → adm identifier' h.
Hypothesis Inv_call : ∀ identifier' callback param,
  allowed identifier' callback → callable identifier' →
  preserves Inv (HandlerManager.call callback param).
Hypothesis Inv_set_timer : ∀ p' t', preserves Inv (HandlerManager.set_timer p' t').
Hypothesis Inv_reject : ∀ p' message, preserves Inv (HandlerManager.reject p' message).

Lemma policy_set_property identifier' v :
  (∀ h, v = Some h → adm identifier' h) →
  preserves Inv (HandlerManager.set_property identifier' v).
Proof. intros Hv s Hs. simpl. by apply Inv_with_property. Qed.

Lemma policy_bind_property {B} identifier'
    (k : option (list HandlerManager.entry) → HandlerManager.R B) :
  (∀ h, (∀ l, h = Some l → adm identifier' l) → preserves Inv (k h)) →
  preserves Inv (bind (HandlerManager.property identifier') k).
Proof.
  intros Hk s Hs.
  rewrite (bind_normal _ _ s s [] (HandlerManager.get s identifier')) by reflexivity.
  assert (Hp : preserves Inv (k (HandlerManager.get s identifier'))).
  { apply Hk. intros l Hl. by apply (Inv_admitted s). }
  specialize (Hp s Hs). by destruct (k _ s) as [[? ?] ?].
Qed.

Lemma admitted_delete identifier' h i : adm identifier' h → adm identifier' (delete i h).
Proof.
  intros Hh cb Hin. apply Hh.
  apply list_elem_of_fmap in Hin as (e & -> & He).
  apply list_elem_of_fmap. exists e. split; [done|].
  by eapply list_elem_of_delete_inv.
Qed.

Lemma admitted_insert identifier' h i callback c c' :
  h !! i = Some (callback, c) →
  adm identifier' h → adm identifier' (<[i := (callback, c')]> h).
Proof.
  intros Hi Hh cb Hin. apply Hh.
  apply list_elem_of_fmap in Hin as (e & -> & He).
  apply list_elem_of_lookup in He as [j Hj].
  destruct (decide (i = j)) as [->|Hij].
  - rewrite list_lookup_insert_eq in Hj by (by eapply lookup_lt_Some).
    injection Hj as <-. apply list_elem_of_fmap. exists (callback, c).
    split; [done|]. by eapply list_elem_of_lookup_2.
  - rewrite list_lookup_insert_ne in Hj by done.
    apply list_elem_of_fmap. exists e. split; [done|]. by eapply list_elem_of_lookup_2.
Qed.

Lemma policy_detachAtIndex identifier' i :
  yields Inv (HandlerManager.detachAtIndex identifier' i) (adm identifier').
Proof.
  intros s Hs.
  destruct (HandlerManager.get s identifier') as [h|] eqn:Hh.
  - pose proof (admitted_delete _ _ i (Inv_admitted _ _ _ Hs Hh)) as Hd.
    rewrite (detachAtIndex_run _ _ _ _ Hh). case_bool_decide; simpl.
    + split; [|by intros ? [= <-]].
      apply Inv_with_property; [|done]. apply Inv_with_property; [done|].
      by intros ? [= <-].
    + split; [|by intros ? [= <-]]. apply Inv_with_property; [done|]. by intros ? [= <-].
  - unfold HandlerManager.detachAtIndex, HandlerManager.property, bind, read, ret. simpl.
    rewrite Hh. simpl. done.
Qed.

Lemma policy_callHandlers_loop fuel identifier' param i h :
  callable identifier' → adm identifier' h →
  preserves Inv (HandlerManager.callHandlers_loop fuel identifier' param i h).
Proof.
  intros Hcall. revert i h. induction fuel as [|fuel IH]; intros i h Hh; simpl;
    [apply preserves_out_of_fuel|].
  destruct (h !! i) as [[callback callCount]|] eqn:Hi; [|apply preserves_ret].
  assert (Hcb : allowed identifier' callback).
  { apply Hh. apply list_elem_of_fmap. exists (callback, callCount).
    split; [done|]. by eapply list_elem_of_lookup_2. }
  apply (preserves_bind_yields Inv (adm identifier')).
  - destruct (0 <? callCount); [|by apply yields_ret].
    pose proof (admitted_insert _ _ _ _ _ (callCount - 1) Hi Hh) as Hh1.
    destruct (callCount - 1 =? 0).
    + intros s Hs.
      rewrite (bind_normal _ _ s _ [] tt) by reflexivity.
      destruct (policy_detachAtIndex identifier' i
                  (HandlerManager.with_property s identifier'
                     (Some (<[i:=(callback, callCount - 1)]> h)))) as [HI HQ].
      { apply Inv_with_property; [done|]. by intros ? [= <-]. }
      destruct (HandlerManager.detachAtIndex identifier' i _) as [[s2 log2] r].
      simpl in *. split; [done|]. intros a ->. by apply HQ.
    + intros s Hs.
      rewrite (bind_normal _ _ s _ [] tt) by reflexivity. simpl.
      split; [|by intros ? [= <-]].
      apply Inv_with_property; [done|]. by intros ? [= <-].
  - intros h' Hh'. apply preserves_bind; [by apply (Inv_call identifier')|].
    intros _. by apply IH.
Qed.

Lemma policy_callHandlers identifier' param :
  callable identifier' →
  preserves Inv (HandlerManager.callHandlers identifier' param).
Proof.
  intros Hcall. unfold HandlerManager.callHandlers. apply policy_bind_property.
  intros [h|] Hh; [|apply preserves_ret].
  apply policy_callHandlers_loop; [done|]. by apply Hh.
Qed.

Lemma policy_detach_loop fuel identifier' callback i h :
  adm identifier' h →
  preserves Inv (HandlerManager.detach_loop fuel identifier' callback i h).
Proof.
  revert i h. induction fuel as [|fuel IH]; intros i h Hh; simpl;
    [apply preserves_out_of_fuel|].
  destruct (h !! i) as [[cb c]|] eqn:Hi; [|apply preserves_ret].
  apply (preserves_bind_yields Inv (adm identifier')).
  - case_bool_decide; [apply policy_detachAtIndex|by apply yields_ret].
  - intros h' Hh'. by apply IH.
Qed.

Lemma policy_detach identifier' callback :
  preserves Inv (HandlerManager.detach identifier' callback).
Proof.
  unfold HandlerManager.detach. apply policy_bind_property.
  intros [h|] Hh; [|apply preserves_ret]. apply policy_detach_loop. by apply Hh.
Qed.

Lemma policy_detachAll_loop fuel identifier' i :
  preserves Inv (HandlerManager.detachAll_loop fuel identifier' i).
Proof.
  revert i. induction fuel as [|fuel IH]; intros i; simpl; [apply preserves_out_of_fuel|].
  apply policy_bind_property. intros [h|] Hh; [|apply preserves_throw].
  case_bool_decide; [|apply preserves_ret].
  apply (preserves_bind_yields Inv (adm identifier')); [apply policy_detachAtIndex|].
  intros _ _. apply IH.
Qed.

Lemma policy_detachAll : preserves Inv HandlerManager.detachAll.
Proof.
  unfold HandlerManager.detachAll. apply preserves_read_then. intros s Hs.
  apply preserves_for_each. intros identifier'.
  apply policy_bind_property. intros h _. apply policy_detachAll_loop.
Qed.

Lemma policy_attach identifier' callback callCount :
  allowed identifier' callback →
  preserves Inv (HandlerManager.attach identifier' callback callCount).
Proof.
  intros Hcb. unfold HandlerManager.attach. apply policy_bind_property.
  assert (Hone : adm identifier' [(callback, default (-1) callCount)]).
  { intros cb Hin. apply list_elem_of_fmap in Hin as (e & He & Hin).
    apply list_elem_of_singleton in Hin as ->. by subst. }
  intros [h|] Hh.
  - apply policy_set_property. intros ? [= <-] cb. rewrite fmap_app.
    intros [Hin|Hin]%elem_of_app; [by apply (Hh h eq_refl)|by apply Hone].
  - apply preserves_bind; [apply policy_set_property; by intros ? [= <-] cb ?%elem_of_nil|].
    intros _. apply preserves_bind; [apply preserves_emit|]. intros _.
    apply policy_set_property. by intros ? [= <-].
Qed.

Lemma policy_timeout_elapses p' : preserves Inv (HandlerManager.timeout_elapses p').
Proof.
  unfold HandlerManager.timeout_elapses, HandlerManager.on_timeout.
  preserve; auto using policy_detach.
Qed.

End Policy.

(** The first policy: the function of the promise [p], made for
    [identifier], is registered under no other identifier, and the promise
    is not fulfilled. *)
Section Unfulfilled.
Context (p : nat) (identifier : string).
Local Abbreviation G := (unfulfilled p identifier).
Local Abbreviation allowed := (λ (identifier' : string) (callback : Callback),
                                 identifier' ≠ identifier → callback ≠ PromiseFn p).

Lemma G_with_property s identifier' v :
  G s → (∀ h, v = Some h → admitted allowed identifier' h) →
  G (HandlerManager.with_property s identifier' v).
Proof.
  intros [Hc Hl] Hv. split; [done|]. intros id' h Hne Hh.
  destruct (decide (identifier' = id')) as [->|Hne'].
  - rewrite get_with_property in Hh. intros Hin. by apply (Hv h Hh _ Hin).
  - rewrite get_with_property_ne in Hh by done. by apply (Hl id').
Qed.

Lemma G_admitted s identifier' h :
  G s → HandlerManager.get s identifier' = Some h → admitted allowed identifier' h.
Proof. intros [_ Hl] Hh cb Hin Hne ->. by apply (Hl identifier' h). Qed.

Lemma G_alter s p' f :
  G s →
  (p' = p → ∀ c v, settled (f c) = Promise.Fulfilled v → settled c = Promise.Fulfilled v) →
  (∀ c, awaited (f c) = awaited c) →
  G (HandlerManager.with_promises s (alter f p' (HandlerManager.promises s))).
Proof.
  intros [(c & Hc & Ha & Hs) Hl] Hf Haw. split; [|done]. simpl.
  destruct (decide (p' = p)) as [->|Hne].
  - exists (f c). rewrite list_lookup_alter_eq, Hc. split; [done|].
    split; [by rewrite Haw|]. intros v Hv. by apply (Hs v), Hf.
  - exists c. by rewrite list_lookup_alter_ne.
Qed.

Lemma G_new_cell s c :
  G s → G (HandlerManager.with_promises s (HandlerManager.promises s ++ [c])).
Proof.
  intros [(c0 & Hc & Ha & Hs) Hl]. split; [|done]. simpl.
  exists c0. by rewrite (lookup_app_l_Some _ _ _ _ Hc).
Qed.

Lemma G_reject p' message : preserves G (HandlerManager.reject p' message).
Proof.
  intros s Hs. simpl. apply G_alter; [done| |done].
  intros _ [st ? ?] v. simpl. by destruct st.
Qed.

Lemma G_set_timer p' t' : preserves G (HandlerManager.set_timer p' t').
Proof. intros s Hs. simpl. by apply G_alter. Qed.

Lemma G_call identifier' callback param :
  allowed identifier' callback → identifier' ≠ identifier →
  preserves G (HandlerManager.call callback param).
Proof.
  intros Hcb Hne. specialize (Hcb Hne).
  destruct callback as [n|p']; simpl; [apply preserves_emit|].
  unfold HandlerManager.fn. preserve; auto using G_set_timer.
  intros s Hs. simpl. apply G_alter; [done| |done]. congruence.
Qed.

Lemma G_callHandlers identifier' param :
  identifier' ≠ identifier → preserves G (HandlerManager.callHandlers identifier' param).
Proof.
  exact (policy_callHandlers G allowed (λ identifier', identifier' ≠ identifier)
           G_with_property G_admitted G_call identifier' param).
Qed.

Lemma G_detach identifier' callback :
  preserves G (HandlerManager.detach identifier' callback).
Proof.
  exact (policy_detach G allowed G_with_property G_admitted identifier' callback).
Qed.

Lemma G_detachAll : preserves G HandlerManager.detachAll.
Proof. exact (policy_detachAll G allowed G_with_property G_admitted). Qed.

Lemma G_attach identifier' callback callCount :
  callback ≠ PromiseFn p →
  preserves G (HandlerManager.attach identifier' callback callCount).
Proof.
  intros Hcb.
  by apply (policy_attach G allowed G_with_property G_admitted).
Qed.

Lemma G_timeout_elapses p' : preserves G (HandlerManager.timeout_elapses p').
Proof.
  exact (policy_timeout_elapses G allowed G_with_property G_admitted
           G_set_timer G_reject p').
Qed.

Lemma G_makePromise identifier' timeout :
  preserves G (HandlerManager.makePromise identifier' timeout).
Proof.
  unfold HandlerManager.makePromise, HandlerManager.attachOnce.
  apply preserves_read_bind. intros s Hs.
  assert (Hp : PromiseFn (length (HandlerManager.promises s)) ≠ PromiseFn p).
  { destruct Hs as [(c & Hc & _) _]. apply lookup_lt_Some in Hc. intros [= Heq]. lia. }
  apply preserves_bind_at; [simpl; by apply G_new_cell|]. intros _.
  apply preserves_bind; [by apply G_attach|]. intros _.
  destruct (truthy_timeout timeout); [|apply preserves_ret].
  apply preserves_bind; [apply G_set_timer|]. intros _. apply preserves_ret.
Qed.

End Unfulfilled.

(** A computation that writes nothing keeps every invariant. *)
Lemma preserves_unchanged {S E A} (I : S → Prop) (m : M S E A) :
  (∀ s, (m s).1.1 = s) → preserves I m.
Proof. intros Hm s Hs. by rewrite Hm. Qed.

Lemma send_unchanged (packet : Packet) (s : Client.t) : (Client.send packet s).1.1 = s.
Proof.
  unfold Client.send, bind, read, emit, throw. simpl. by destruct (Client.connection s).
Qed.

Lemma hook_unchanged (m : Client.manager) (e : HandlerManager.effect) (s : Client.t) :
  (Client.hook m e s).1.1 = s.
Proof.
  destruct e, m; simpl; try done;
    unfold bind, read; simpl; destruct (Client.truthy _); simpl; try done;
    match goal with
    | |- context [Client.send ?packet s] =>
        pose proof (send_unchanged packet s) as Hs;
        by destruct (Client.send packet s) as [[? ?] ?]
    end.
Qed.

Lemma for_each_unchanged {S E A} (xs : list A) (body : A → M S E unit) (s : S) :
  (∀ x s, (body x s).1.1 = s) → (for_each xs body s).1.1 = s.
Proof.
  intros Hb. induction xs as [|x xs IH]; simpl; [done|].
  unfold bind. pose proof (Hb x s) as Hx.
  destruct (body x s) as [[s1 log1] [a|e|]]; simpl in *; subst; [|done..].
  by destruct (for_each xs body s) as [[s2 log2] r].
Qed.

Lemma addDefinition_identifier (s : DefinitionsStore.t) (d : Definition_) :
  identifier (DefinitionsStore.addDefinition s d).2 = identifier d.
Proof.
  unfold DefinitionsStore.addDefinition.
  by destruct (DefinitionsStore.definitionsByIdentifier s !! identifier d).
Qed.

(** [Promise.all] is fulfilled only when each of its promises is. *)
Lemma all_state_Fulfilled (cells : list Cell) (ws : list nat) (vs : list Payload)
    (p : nat) :
  Client.all_state cells ws = Promise.Fulfilled vs → p ∈ ws →
  ∃ c v, cells !! p = Some c ∧ settled c = Promise.Fulfilled v.
Proof.
  revert vs. induction ws as [|w ws IH]; intros vs Hall Hp.
  - by apply elem_of_nil in Hp.
  - simpl in Hall.
    destruct (cells !! w) as [c|] eqn:Hw; simpl in Hall.
    2:{ by destruct (Client.all_state cells ws). }
    destruct (settled c) as [|v|r] eqn:Hc.
    + by destruct (Client.all_state cells ws).
    + destruct (Client.all_state cells ws) as [|vs'|] eqn:Hws; try done.
      apply elem_of_cons in Hp as [->|Hp]; [by exists c, v|]. by apply (IH vs').
    + done.
Qed.

Section Waiting.
Context (q p : nat) (identifier : string).
Local Abbreviation W := (waiting q p identifier).
Local Abbreviation G := (unfulfilled p identifier).

Lemma W_on_manager {A} (m : Client.manager) (r : HandlerManager.R A) :
  (m = Client.DefinitionHandlers → preserves G r) →
  preserves W (Client.on_manager m r).
Proof.
  intros Hr s [HG HC]. unfold Client.on_manager.
  destruct (r (Client.manager_of s m)) as [[h effects] result] eqn:Hrun.
  pose proof (for_each_unchanged effects (Client.hook m) (Client.set_manager s m h)
                (hook_unchanged m)) as Hh.
  destruct (for_each effects (Client.hook m) (Client.set_manager s m h)) as [[s' log] ?].
  simpl in *. subst s'. split; [|done].
  destruct (decide (m = Client.DefinitionHandlers)) as [->|Hne].
  - simpl. specialize (Hr eq_refl _ HG). simpl in Hrun. by rewrite Hrun in Hr.
  - by destruct m.
Qed.

Lemma W_send (packet : Packet) : preserves W (Client.send packet).
Proof. apply preserves_unchanged, send_unchanged. Qed.

Lemma W_append (s : Client.t) (c : Client.Composite) :
  W s → W (Client.set_composites s (Client.composites s ++ [c])).
Proof.
  intros [HG (c0 & Hc & ?)]. split; [done|]. exists c0. simpl.
  by rewrite (lookup_app_l_Some _ _ _ _ Hc).
Qed.

Lemma W_insert (s : Client.t) (q' : nat) (c' : Client.Composite) :
  W s →
  (q' = q → Client.source c' = Client.DefinitionHandlers
            ∧ p ∈ Client.waits c' ∧ is_Some (Client.continuation c')) →
  W (Client.set_composites s (<[q' := c']> (Client.composites s))).
Proof.
  intros [HG (c0 & Hc & ?)] Hq. split; [done|]. simpl.
  destruct (decide (q' = q)) as [->|Hne].
  - exists c'. rewrite list_lookup_insert_eq by (by eapply lookup_lt_Some). auto.
  - exists c0. by rewrite list_lookup_insert_ne.
Qed.

Lemma W_promises actions events timeout :
  preserves W (Client.promises actions events timeout).
Proof.
  unfold Client.promises. preserve; try apply W_send.
  apply W_on_manager. intros [=].
Qed.

Lemma W_requireDefinitions identifiers timeout :
  preserves W (Client.requireDefinitions identifiers timeout).
Proof.
  unfold Client.requireDefinitions, Client.promise_all. preserve.
  - apply W_on_manager. intros _. apply G_makePromise.
  - by apply W_append.
Qed.

Lemma W_settle_then (q' : nat) : preserves W (Client.settle_then q').
Proof.
  unfold Client.settle_then, Client.set_composite.
  apply preserves_read_then. intros s Hs.
  destruct (Client.composites s !! q') as [c|] eqn:Hc; [|apply preserves_ret].
  destruct (Client.outcome c); try apply preserves_ret.
  destruct (Client.continuation c) as [[[actions events] timeout]|] eqn:Hk;
    [|apply preserves_ret].
  assert (Hsame : q' = q →
            Client.source c = Client.DefinitionHandlers ∧ p ∈ Client.waits c).
  { intros ->. destruct Hs as [_ (c0 & Hc0 & ? & ? & _)].
    rewrite Hc in Hc0. by injection Hc0 as ->. }
  destruct (Client.all_state _ _) as [|vs|r] eqn:Hall.
  - apply preserves_ret.
  - assert (q' ≠ q) as Hne.
    { intros Heq. destruct (Hsame Heq) as [Hsrc Hp]. rewrite Hsrc in Hall. simpl in Hall.
      destruct (all_state_Fulfilled _ _ _ _ Hall Hp) as (c1 & v & Hc1 & Hv).
      destruct Hs as [[(c2 & Hc2 & _ & Hnot) _] _].
      rewrite Hc1 in Hc2. injection Hc2 as ->. by apply (Hnot v). }
    apply preserves_bind; [apply preserves_catch, W_promises|].
    intros [e|eventPromises]; apply preserves_read_then; intros s' Hs';
      apply preserves_write; by apply W_insert.
  - apply preserves_read_then. intros s' Hs'. apply preserves_write.
    apply W_insert; [done|]. intros Heq. destruct (Hsame Heq). simpl. eauto.
Qed.

Lemma W_settle_all (q' : nat) : preserves W (Client.settle_all q').
Proof.
  unfold Client.settle_all, Client.set_composite.
  apply preserves_read_then. intros s Hs.
  destruct (Client.composites s !! q') as [c|] eqn:Hc; [|apply preserves_ret].
  destruct (Client.outcome c); try apply preserves_ret.
  destruct (Client.continuation c) eqn:Hk; [apply preserves_ret|].
  apply preserves_read_then. intros s' Hs'. apply preserves_write.
  apply W_insert; [done|]. intros ->.
  destruct Hs as [_ (c0 & Hc0 & _ & _ & Hsome)].
  rewrite Hc in Hc0. injection Hc0 as ->. rewrite Hk in Hsome. by destruct Hsome.
Qed.

Lemma W_run_reactions : preserves W Client.run_reactions.
Proof.
  unfold Client.run_reactions. preserve; [apply W_settle_then|apply W_settle_all].
Qed.

Lemma W_handler (i : Client.input) :
  ¬ delivers identifier i → preserves W (Client.handler i).
Proof.
  intros Hi.
  destruct i as [|cb|ty id fs|ty id|id d|id d|m id cb cc|m id cb|m id cb|m|m id param
                 |m id t|ids t|actions events defs t|c|data|m p']; simpl.
  - unfold Client.connect. by preserve.
  - unfold Client.onReady. by preserve.
  - unfold Client.addLocalDefinition. preserve; try apply W_send. done.
  - unfold Client.removeLocalDefinition. preserve; try apply W_send. done.
  - apply W_send.
  - apply W_send.
  - apply W_on_manager. intros _. by apply G_attach.
  - apply W_on_manager. intros _. by apply G_attach.
  - apply W_on_manager. intros _. apply G_detach.
  - apply W_on_manager. intros _. apply G_detachAll.
  - apply W_on_manager. intros ->. apply G_callHandlers. intros ->. by apply Hi.
  - preserve. apply W_on_manager. intros _. apply G_makePromise.
  - preserve. apply W_requireDefinitions.
  - unfold Client.bootstrap, Client.then_, Client.promise_all.
    preserve; try apply W_requireDefinitions; try apply W_promises.
    + destruct H0 as [HG (c0 & Hc & Hsrc & Hp & Hk)].
      split; [done|]. simpl.
      destruct (decide (a = q)) as [->|Hne].
      * eexists. rewrite list_lookup_alter_eq, Hc. simpl. eauto.
      * exists c0. by rewrite list_lookup_alter_ne.
    + by apply W_append.
  - unfold Client.onopen, Client.ready. preserve; try apply W_send. done.
  - preserve. unfold Client.handleMessage.
    destruct data as [packet|]; [|apply preserves_throw].
    apply preserves_read_then. intros s' Hs'.
    destruct (Client.connection s'); [|apply preserves_throw].
    repeat case_bool_decide.
    + apply W_on_manager. intros [=].
    + apply W_on_manager. intros [=].
    + destruct (packet_payload packet) as [| definition |] eqn:Hpl;
        try apply preserves_throw.
      destruct (Client.store _ _); [|apply preserves_throw].
      pose proof (addDefinition_identifier t definition) as Hid.
      destruct (DefinitionsStore.addDefinition t definition) as [d' definition'].
      simpl in Hid.
      preserve; try apply W_send.
      * done.
      * apply W_on_manager. intros _. apply G_callHandlers.
        rewrite Hid. intros Heq. apply Hi. split; [done|]. by rewrite Hpl.
    + destruct (packet_payload packet) as [| unDefinition |];
        try apply preserves_throw.
      destruct (Client.store _ _); [|apply preserves_throw].
      preserve; [done|].
      apply W_on_manager. intros [=].
    + apply preserves_ret.
  - apply W_on_manager. intros _. apply G_timeout_elapses.
Qed.

(** C3, definitions before traffic.  As long as no [def] packet has come
    for an identifier a [bootstrap] waits for (and the application has not
    dispatched it to the definition handlers itself), the continuation of
    that [bootstrap], which alone sends its [action] packets, has not run,
    whatever else was called or happened. *)
Theorem continuation_waits_for_definition (inputs : list Client.input) (s : Client.t) :
  W s → (∀ i, i ∈ inputs → ¬ delivers identifier i) → W (Client.run inputs s).1.
Proof.
  revert s. induction inputs as [|i inputs IH]; intros s Hs Hin; simpl; [done|].
  pose proof (preserves_and_then W _ _
                (W_handler i (Hin i ltac:(by left))) W_run_reactions s Hs) as Ht.
  unfold Client.task. destruct (and_then _ _ s) as [[s1 log1] r1]. simpl in Ht.
  specialize (IH s1 Ht (λ i' Hi', Hin i' ltac:(by right))).
  by destruct (Client.run inputs s1) as [s2 log2].
Qed.

End Waiting.

(** *** What a call of [bootstrap] leaves behind *)

Lemma attach_explicit (identifier : string) (callback : Callback) (callCount : option Z)
    (s : HandlerManager.t) :
  HandlerManager.attach identifier callback callCount s
  = match HandlerManager.get s identifier with
    | Some h =>
        (HandlerManager.with_property s identifier
           (Some (h ++ [(callback, default (-1) callCount)])),
         [], Normal tt)
    | None =>
        (HandlerManager.with_property
           (HandlerManager.with_property s identifier (Some []))
           identifier (Some [(callback, default (-1) callCount)]),
         [HandlerManager.FirstAdded identifier], Normal tt)
    end.
Proof.
  unfold HandlerManager.attach, HandlerManager.property.
  unfold bind at 1. unfold bind at 1. unfold read, ret. cbn beta iota.
  by destruct (HandlerManager.get s identifier).
Qed.

Lemma makePromise_run (identifier : string) (timeout : option Z) (s : HandlerManager.t) :
  ∃ s' log,
    HandlerManager.makePromise identifier timeout s
    = (s', log, Normal (length (HandlerManager.promises s)))
    ∧ (∀ e, e ∈ log → e = HandlerManager.FirstAdded identifier)
    ∧ HandlerManager.get s' identifier
      = Some (default [] (HandlerManager.get s identifier)
              ++ [(PromiseFn (length (HandlerManager.promises s)), 1)])
    ∧ (∀ identifier', identifier' ≠ identifier →
         HandlerManager.get s' identifier' = HandlerManager.get s identifier')
    ∧ length (HandlerManager.promises s') = S (length (HandlerManager.promises s))
    ∧ (∃ c, HandlerManager.promises s' !! length (HandlerManager.promises s) = Some c
            ∧ awaited c = identifier ∧ settled c = Promise.Pending).
Proof.
  set (cell := {| settled := Promise.Pending; timer := NotSet; awaited := identifier |}).
  set (s1 := HandlerManager.with_promises s (HandlerManager.promises s ++ [cell])).
  set (pn := length (HandlerManager.promises s)).
  assert (Hcell : (HandlerManager.promises s ++ [cell]) !! pn = Some cell).
  { rewrite lookup_app_r by done. unfold pn. by rewrite Nat.sub_diag. }
  assert (Ha : ∃ s2 log,
            HandlerManager.attach identifier (PromiseFn pn) (Some 1) s1 = (s2, log, Normal tt)
            ∧ (∀ e, e ∈ log → e = HandlerManager.FirstAdded identifier)
            ∧ HandlerManager.promises s2 = HandlerManager.promises s ++ [cell]
            ∧ HandlerManager.get s2 identifier
              = Some (default [] (HandlerManager.get s identifier) ++ [(PromiseFn pn, 1)])
            ∧ (∀ identifier', identifier' ≠ identifier →
                 HandlerManager.get s2 identifier' = HandlerManager.get s identifier')).
  { rewrite attach_explicit.
    change (HandlerManager.get s1 identifier) with (HandlerManager.get s identifier).
    destruct (HandlerManager.get s identifier) as [h|]; eexists _, _;
      (split; [reflexivity|]); (split; [|split; [done|split]]).
    - by intros e ?%elem_of_nil.
    - apply get_with_property.
    - intros identifier' Hne. by rewrite get_with_property_ne.
    - by intros e ->%list_elem_of_singleton.
    - apply get_with_property.
    - intros identifier' Hne. by rewrite !get_with_property_ne. }
  destruct Ha as (s2 & log & Ha & Hlog & Hp2 & Hg2 & Hother).
  assert (Hrun : HandlerManager.makePromise identifier timeout s
                 = if truthy_timeout timeout
                   then (HandlerManager.with_promises s2
                           (alter (λ c, {| settled := settled c; timer := Armed;
                                           awaited := awaited c |})
                                  pn (HandlerManager.promises s2)),
                         [] ++ log ++ [] ++ [], Normal pn)
                   else (s2, [] ++ log ++ [], Normal pn)).
  { unfold HandlerManager.makePromise. unfold bind at 1. unfold read. cbn beta iota.
    rewrite (bind_normal _ _ s s1 [] tt) by reflexivity.
    unfold HandlerManager.attachOnce. fold pn.
    rewrite (bind_normal _ _ s1 s2 log tt Ha).
    by destruct (truthy_timeout timeout). }
  rewrite Hrun. destruct (truthy_timeout timeout).
  - exists (HandlerManager.with_promises s2
              (alter (λ c, {| settled := settled c; timer := Armed;
                              awaited := awaited c |}) pn (HandlerManager.promises s2))),
      log.
    split; [by rewrite !app_nil_r|]. split; [done|]. split; [done|]. split; [done|].
    cbn [HandlerManager.promises HandlerManager.with_promises].
    rewrite length_alter, Hp2, length_app. split; [simpl; lia|].
    exists {| settled := Promise.Pending; timer := Armed; awaited := identifier |}.
    by rewrite list_lookup_alter_eq, Hcell.
  - exists s2, log.
    split; [by rewrite !app_nil_r|]. split; [done|]. split; [done|]. split; [done|].
    rewrite Hp2, length_app. split; [simpl; lia|]. by exists cell.
Qed.

Lemma for_each_hook_definition (log : list HandlerManager.effect) (identifier : string)
    (s : Client.t) :
  (∀ e, e ∈ log → e = HandlerManager.FirstAdded identifier) →
  for_each log (Client.hook Client.DefinitionHandlers) s = (s, [], Normal tt).
Proof.
  induction log as [|e log IH]; intros Hlog; simpl; [done|].
  rewrite (Hlog e) by (by left).
  rewrite (bind_normal _ _ s s [] tt) by reflexivity.
  rewrite IH; [done|]. intros e' ?. apply Hlog. by right.
Qed.

Lemma on_manager_makePromise (identifier : string) (timeout : option Z) (s : Client.t) :
  ∃ h',
    Client.on_manager Client.DefinitionHandlers
      (HandlerManager.makePromise identifier timeout) s
    = (Client.set_manager s Client.DefinitionHandlers h', [],
       Normal (length (HandlerManager.promises (Client.definitionHandlers s))))
    ∧ (fresh (Client.definitionHandlers s) → fresh h')
    ∧ (∀ p identifier', unfulfilled p identifier' (Client.definitionHandlers s) →
         unfulfilled p identifier' h')
    ∧ (fresh (Client.definitionHandlers s) →
       unfulfilled (length (HandlerManager.promises (Client.definitionHandlers s)))
         identifier h').
Proof.
  destruct (makePromise_run identifier timeout (Client.definitionHandlers s))
    as (h' & log & Hrun & Hlog & Hg & Hother & Hlen & (c & Hc & Hawaited & Hpending)).
  exists h'. split; [|split; [|split]].
  - unfold Client.on_manager. simpl. rewrite Hrun.
    by rewrite (for_each_hook_definition _ _ _ Hlog).
  - intros Hfresh identifier' h p Hh Hp. rewrite Hlen.
    destruct (decide (identifier' = identifier)) as [->|Hne].
    + rewrite Hg in Hh. injection Hh as <-. rewrite fmap_app in Hp.
      apply elem_of_app in Hp as [Hp|Hp].
      * destruct (HandlerManager.get (Client.definitionHandlers s) identifier) as [h0|] eqn:H0;
          simpl in Hp; [|by apply elem_of_nil in Hp].
        pose proof (Hfresh identifier h0 p H0 Hp). lia.
      * apply list_elem_of_singleton in Hp. injection Hp as ->. lia.
    + rewrite Hother in Hh by done. pose proof (Hfresh identifier' h p Hh Hp). lia.
  - intros p identifier' Hu.
    pose proof (G_makePromise p identifier' identifier timeout _ Hu) as Hp.
    by rewrite Hrun in Hp.
  - intros Hfresh. split.
    + exists c. split; [done|]. split; [done|]. intros v. by rewrite Hpending.
    + intros identifier' h Hne Hh Hin. rewrite Hother in Hh by done.
      pose proof (Hfresh identifier' h _ Hh Hin). lia.
Qed.

Lemma map_each_makePromise (identifiers : list string) (timeout : option Z)
    (identifier : string) (s : Client.t) :
  ∃ s1 ps,
    map_each identifiers (λ identifier',
      Client.on_manager Client.DefinitionHandlers
        (HandlerManager.makePromise identifier' timeout)) s
    = (s1, [], Normal ps)
    ∧ Client.composites s1 = Client.composites s
    ∧ (fresh (Client.definitionHandlers s) → fresh (Client.definitionHandlers s1))
    ∧ (∀ p, unfulfilled p identifier (Client.definitionHandlers s) →
            unfulfilled p identifier (Client.definitionHandlers s1))
    ∧ (fresh (Client.definitionHandlers s) → identifier ∈ identifiers →
       ∃ p, p ∈ ps ∧ unfulfilled p identifier (Client.definitionHandlers s1)).
Proof.
  revert s. induction identifiers as [|id1 rest IH]; intros s.
  - exists s, []. split; [done|]. split; [done|]. split; [done|]. split; [done|].
    by intros _ ?%elem_of_nil.
  - destruct (on_manager_makePromise id1 timeout s) as (h' & Hrun & Hf & Hu & Hnew).
    destruct (IH (Client.set_manager s Client.DefinitionHandlers h'))
      as (s1 & ps & Hrest & Hcomp & Hf1 & Hu1 & Hex).
    exists s1, (length (HandlerManager.promises (Client.definitionHandlers s)) :: ps).
    split; [|split; [done|split; [|split]]].
    + simpl. rewrite (bind_normal _ _ _ _ _ _ Hrun).
      by rewrite (bind_normal _ _ _ _ _ _ Hrest).
    + intros ?. apply Hf1. simpl. by apply Hf.
    + intros p ?. apply Hu1. simpl. by apply Hu.
    + intros Hfresh [->|Hin]%elem_of_cons.
      * eexists. split; [by left|]. apply Hu1. simpl. by apply Hnew.
      * destruct Hex as (p & Hp & Hup); [simpl; by apply Hf|done|].
        exists p. split; [by right|done].
Qed.

(** A call of [bootstrap] with missing definitions sends nothing and
    leaves a promise that waits for each of them. *)
Lemma bootstrap_waiting (actions : list (string * string)) (events defs : list string)
    (timeout : option Z) (identifier : string) (s : Client.t) :
  fresh (Client.definitionHandlers s) →
  identifier ∈ Client.missingDefs s actions events defs →
  ∃ s0 p,
    Client.bootstrap actions events defs timeout s
    = (s0, [], Normal (length (Client.composites s)))
    ∧ waiting (length (Client.composites s)) p identifier s0.
Proof.
  intros Hfresh Hin.
  destruct (map_each_makePromise (Client.missingDefs s actions events defs) timeout
              identifier s) as (s1 & ps & Hrun & Hcomp & _ & _ & Hex).
  destruct (Hex Hfresh Hin) as (p & Hp & Hu).
  set (c := {| Client.source := Client.DefinitionHandlers; Client.waits := ps;
               Client.continuation := Some (actions, events, timeout);
               Client.outcome := Promise.Pending |}).
  exists (Client.set_composites s1 (Client.composites s1 ++ [c])), p.
  assert (Hq : (Client.composites s1 ++
                  [{| Client.source := Client.DefinitionHandlers; Client.waits := ps;
                      Client.continuation := None; Client.outcome := Promise.Pending |}])
               !! length (Client.composites s1)
               = Some {| Client.source := Client.DefinitionHandlers; Client.waits := ps;
                         Client.continuation := None;
                         Client.outcome := Promise.Pending |}).
  { rewrite lookup_app_r by done. by rewrite Nat.sub_diag. }
  split.
  - unfold Client.bootstrap. unfold bind at 1. unfold read. cbn beta iota.
    rewrite bool_decide_eq_true_2 by (intros Heq; rewrite Heq in Hin; by apply elem_of_nil in Hin).
    unfold Client.requireDefinitions.
    unfold bind at 1. rewrite (bind_normal _ _ _ _ _ _ Hrun).
    unfold Client.promise_all, Client.then_, bind, read, write, ret.
    cbn -[alter]. rewrite Hcomp. repeat f_equal.
    rewrite <- Hcomp. apply list_eq. intros j.
    destruct (decide (j = length (Client.composites s1))) as [->|Hne].
    + rewrite list_lookup_alter_eq, Hq. rewrite lookup_app_r by done.
      by rewrite Nat.sub_diag.
    + rewrite list_lookup_alter_ne by done.
      destruct (decide (j < length (Client.composites s1))%nat).
      * by rewrite !lookup_app_l.
      * rewrite !lookup_app_r by lia.
        destruct (j - length (Client.composites s1))%nat as [|k] eqn:Hj; [lia|done].
  - split; [done|]. exists c. simpl. rewrite <- Hcomp.
    rewrite lookup_app_r by done. rewrite Nat.sub_diag. eauto.
Qed.

(** C3, definitions before traffic, from the call on.  A [bootstrap] that
    misses the definition of [identifier] sends nothing when it is called,
    and as long as no [def] packet has come for [identifier] (and the
    application has not dispatched it itself) its continuation, which alone
    sends its [action] packets, has not run. *)
Theorem bootstrap_definitions_before_traffic (actions : list (string * string))
    (events defs : list string) (timeout : option Z) (identifier : string)
    (inputs : list Client.input) (s : Client.t) :
  fresh (Client.definitionHandlers s) →
  identifier ∈ Client.missingDefs s actions events defs →
  (∀ i, i ∈ inputs → ¬ delivers identifier i) →
  (Client.bootstrap actions events defs timeout s).1.2 = []
  ∧ ∃ c,
      Client.composites
        (Client.run (Client.Bootstrap actions events defs timeout :: inputs) s).1
      !! length (Client.composites s) = Some c
      ∧ is_Some (Client.continuation c).
Proof.
  intros Hfresh Hin Hins.
  destruct (bootstrap_waiting actions events defs timeout identifier s Hfresh Hin)
    as (s0 & p & Hrun & Hw).
  split; [by rewrite Hrun|].
  assert (Htask : waiting (length (Client.composites s)) p identifier
                    (Client.task (Client.Bootstrap actions events defs timeout) s).1.1).
  { unfold Client.task, and_then. simpl.
    rewrite (bind_normal _ _ _ _ _ _ Hrun). simpl.
    pose proof (W_run_reactions _ _ _ s0 Hw) as Hr.
    by destruct (Client.run_reactions s0) as [[s2 log2] [|?|]]. }
  pose proof (continuation_waits_for_definition _ _ _ inputs _ Htask Hins) as Hfinal.
  simpl. destruct (Client.task _ s) as [[s1 log1] r1]. simpl in *.
  destruct (Client.run inputs s1) as [s2 log2]. simpl in *.
  destruct Hfinal as [_ (c & Hc & _ & _ & Hk)]. eauto.
Qed.

(** *** Only functions of promises that were made are registered *)

(** The second policy: the functions of promises that are registered are
    those of the [n] promises made so far. *)
Section Fresh.
Context (n : nat).
Local Abbreviation F := (fresh_at n).
Local Abbreviation allowed := (λ (_ : string) (callback : Callback),
                                 ∀ p, callback = PromiseFn p → (p < n)%nat).

Lemma F_with_property s identifier' v :
  F s → (∀ h, v = Some h → admitted allowed identifier' h) →
  F (HandlerManager.with_property s identifier' v).
Proof.
  intros [Hf Hn] Hv. split; [|done]. intros id' h p Hh Hin. simpl. rewrite Hn.
  destruct (decide (identifier' = id')) as [->|Hne'].
  - rewrite get_with_property in Hh. by apply (Hv h Hh _ Hin).
  - rewrite get_with_property_ne in Hh by done. rewrite <- Hn. by apply (Hf id' h).
Qed.

Lemma F_admitted s identifier' h :
  F s → HandlerManager.get s identifier' = Some h → admitted allowed identifier' h.
Proof. intros [Hf Hn] Hh cb Hin p ->. rewrite <- Hn. by apply (Hf identifier' h). Qed.

Lemma F_alter s p' f :
  F s → F (HandlerManager.with_promises s (alter f p' (HandlerManager.promises s))).
Proof.
  intros [Hf Hn]. split; [|simpl; by rewrite length_alter].
  intros id' h p Hh Hin. simpl. rewrite length_alter. by apply (Hf id' h).
Qed.

Lemma F_set_timer p' t' : preserves F (HandlerManager.set_timer p' t').
Proof. intros s Hs. simpl. by apply F_alter. Qed.

Lemma F_reject p' message : preserves F (HandlerManager.reject p' message).
Proof. intros s Hs. simpl. by apply F_alter. Qed.

Lemma F_call (identifier' : string) callback param :
  allowed identifier' callback → True →
  preserves F (HandlerManager.call callback param).
Proof.
  intros _ _. destruct callback as [k|p']; simpl; [apply preserves_emit|].
  unfold HandlerManager.fn. preserve; auto using F_set_timer.
  intros s Hs. simpl. by apply F_alter.
Qed.

Lemma F_callHandlers identifier' param :
  preserves F (HandlerManager.callHandlers identifier' param).
Proof.
  exact (policy_callHandlers F allowed (λ _, True)
           F_with_property F_admitted F_call identifier' param I).
Qed.

Lemma F_detach identifier' callback :
  preserves F (HandlerManager.detach identifier' callback).
Proof.
  exact (policy_detach F allowed F_with_property F_admitted identifier' callback).
Qed.

Lemma F_detachAll : preserves F HandlerManager.detachAll.
Proof. exact (policy_detachAll F allowed F_with_property F_admitted). Qed.

Lemma F_attach identifier' k callCount :
  preserves F (HandlerManager.attach identifier' (Function_ k) callCount).
Proof.
  by apply (policy_attach F allowed F_with_property F_admitted).
Qed.

Lemma F_timeout_elapses p' : preserves F (HandlerManager.timeout_elapses p').
Proof.
  exact (policy_timeout_elapses F allowed F_with_property F_admitted
           F_set_timer F_reject p').
Qed.

End Fresh.

Lemma fresh_from_fresh_at {A} (r : HandlerManager.R A) :
  (∀ n, preserves (fresh_at n) r) → preserves fresh r.
Proof.
  intros Hr s Hs.
  by destruct (Hr (length (HandlerManager.promises s)) s (conj Hs eq_refl)).
Qed.

Lemma fresh_makePromise (identifier : string) (timeout : option Z) :
  preserves fresh (HandlerManager.makePromise identifier timeout).
Proof.
  intros s Hfresh.
  destruct (makePromise_run identifier timeout s)
    as (h' & log & Hrun & _ & Hg & Hother & Hlen & _).
  rewrite Hrun. simpl. intros identifier' h p Hh Hp. rewrite Hlen.
  destruct (decide (identifier' = identifier)) as [->|Hne].
  - rewrite Hg in Hh. injection Hh as <-. rewrite fmap_app in Hp.
    apply elem_of_app in Hp as [Hp|Hp].
    + destruct (HandlerManager.get s identifier) as [h0|] eqn:H0;
        simpl in Hp; [|by apply elem_of_nil in Hp].
      pose proof (Hfresh identifier h0 p H0 Hp). lia.
    + apply list_elem_of_singleton in Hp. injection Hp as ->. lia.
  - rewrite Hother in Hh by done. pose proof (Hfresh identifier' h p Hh Hp). lia.
Qed.

Lemma fresh_new : fresh HandlerManager.new.
Proof.
  intros identifier h p Hh. unfold HandlerManager.get in Hh. simpl in Hh.
  by rewrite lookup_empty in Hh.
Qed.

(** An invariant of the definition handlers is one of the client when the
    methods called on them keep it. *)
Lemma definitionHandlers_on_manager {A} (P : HandlerManager.t → Prop)
    (m : Client.manager) (r : HandlerManager.R A) :
  (m = Client.DefinitionHandlers → preserves P r) →
  preserves (λ s, P (Client.definitionHandlers s)) (Client.on_manager m r).
Proof.
  intros Hr s HP. unfold Client.on_manager.
  destruct (r (Client.manager_of s m)) as [[h effects] result] eqn:Hrun.
  pose proof (for_each_unchanged effects (Client.hook m) (Client.set_manager s m h)
                (hook_unchanged m)) as Hh.
  destruct (for_each effects (Client.hook m) (Client.set_manager s m h)) as [[s' log] ?].
  simpl in *. subst s'.
  destruct (decide (m = Client.DefinitionHandlers)) as [->|Hne].
  - simpl. specialize (Hr eq_refl _ HP). simpl in Hrun. by rewrite Hrun in Hr.
  - by destruct m.
Qed.

Section FreshClient.
Local Abbreviation Fr := (λ s : Client.t, fresh (Client.definitionHandlers s)).

Lemma Fr_send (packet : Packet) : preserves Fr (Client.send packet).
Proof. apply (preserves_unchanged Fr), send_unchanged. Qed.

Lemma Fr_on_manager_other {A} (m : Client.manager) (r : HandlerManager.R A) :
  m ≠ Client.DefinitionHandlers → preserves Fr (Client.on_manager m r).
Proof. intros Hm. by apply (definitionHandlers_on_manager fresh). Qed.

Lemma Fr_makePromise (m : Client.manager) identifier timeout :
  preserves Fr (Client.on_manager m (HandlerManager.makePromise identifier timeout)).
Proof. apply (definitionHandlers_on_manager fresh). intros _. apply fresh_makePromise. Qed.

Lemma Fr_promises actions events timeout :
  preserves Fr (Client.promises actions events timeout).
Proof. unfold Client.promises. preserve; [apply Fr_makePromise|apply Fr_send]. Qed.

Lemma Fr_requireDefinitions identifiers timeout :
  preserves Fr (Client.requireDefinitions identifiers timeout).
Proof.
  unfold Client.requireDefinitions, Client.promise_all.
  preserve; [apply Fr_makePromise|done].
Qed.

Lemma Fr_run_reactions : preserves Fr Client.run_reactions.
Proof.
  unfold Client.run_reactions, Client.settle_then, Client.settle_all,
    Client.set_composite.
  preserve; try done; apply Fr_promises.
Qed.

Lemma Fr_handler (i : Client.input) : preserves Fr (Client.handler i).
Proof.
  destruct i; simpl;
    unfold Client.connect, Client.onReady, Client.addLocalDefinition,
      Client.removeLocalDefinition, Client.sendEvent, Client.sendAction,
      Client.bootstrap, Client.then_, Client.promise_all, Client.onopen, Client.ready,
      Client.handleMessage;
    preserve;
    try done;
    try apply Fr_send;
    try apply Fr_makePromise;
    try apply Fr_requireDefinitions;
    try apply Fr_promises;
    try (apply Fr_on_manager_other; discriminate);
    apply (definitionHandlers_on_manager fresh); intros _;
    apply fresh_from_fresh_at; intros k;
    unfold HandlerManager.attachOnce;
    auto using F_attach, F_detach, F_detachAll, F_callHandlers, F_timeout_elapses.
Qed.

(** In every state the client reaches, the definition handlers hold only
    functions of promises that were made. *)
Lemma fresh_reachable (inputs : list Client.input) (s : Client.t) :
  Fr s → Fr (Client.run inputs s).1.
Proof.
  revert s. induction inputs as [|i inputs IH]; intros s Hs; simpl; [done|].
  pose proof (preserves_and_then Fr _ _ (Fr_handler i) Fr_run_reactions s Hs) as Ht.
  unfold Client.task. destruct (and_then _ _ s) as [[s1 log1] r1]. simpl in Ht.
  specialize (IH s1 Ht). by destruct (Client.run inputs s1) as [s2 log2].
Qed.

End FreshClient.



(** * Further properties of the store *)

Lemma NoDup_fmap_eq {A B} (f : A → B) (l : list A) (x y : A) :
  NoDup (f <$> l) → x ∈ l → y ∈ l → f x = f y → x = y.
Proof.
  intros Hnd Hx Hy Hf.
  apply list_elem_of_lookup in Hx as [i Hi]. apply list_elem_of_lookup in Hy as [j Hj].
  assert (i = j) as ->; [|congruence].
  apply (NoDup_lookup (f <$> l) i j (f x)); [done| |].
  - by rewrite list_lookup_fmap, Hi.
  - by rewrite list_lookup_fmap, Hj, Hf.
Qed.

Lemma indexBy_lookup_NoDup (l : list Definition_) (d : Definition_) :
  NoDup (identifier <$> l) → d ∈ l → Lodash.indexBy l !! identifier d = Some d.
Proof.
  induction l as [|x l IH] using rev_ind; intros Hnd Hd.
  - by apply elem_of_nil in Hd.
  - rewrite indexBy_snoc. rewrite fmap_app in Hnd.
    apply NoDup_app in Hnd as (Hl & Hx & _).
    apply elem_of_app in Hd as [Hd|Hd%list_elem_of_singleton].
    + rewrite lookup_insert_ne; [by apply IH|].
      intros Heq. apply (Hx (identifier d)).
      * apply list_elem_of_fmap. by exists d.
      * rewrite <- Heq. simpl. by left.
    + subst d. apply lookup_insert_eq.
Qed.

Lemma indexOf_from_lookup (i : Z) (l : list Definition_) (n : nat) (d : Definition_) :
  NoDup l → l !! n = Some d →
  Lodash.indexOf_from i (VDefinition <$> l) (VDefinition d) = i + Z.of_nat n.
Proof.
  revert i n. induction l as [|x l IH]; intros i n Hnd Hn; [done|].
  apply NoDup_cons in Hnd as [Hx Hl]. simpl. destruct n as [|n]; simpl in Hn.
  - injection Hn as ->. rewrite bool_decide_eq_true_2 by done. lia.
  - rewrite bool_decide_eq_false_2.
    + rewrite (IH _ n) by done. lia.
    + intros ->. apply Hx. by apply list_elem_of_lookup_2 in Hn.
Qed.

(** What [addDefinition] does when the identifier is already stored, at
    position [n]. *)
Lemma addDefinition_known (s : DefinitionsStore.t) (d old : Definition_) (n : nat) :
  one_per_identifier s →
  DefinitionsStore.definitions s !! n = Some old →
  identifier old = identifier d →
  DefinitionsStore.addDefinition s d
  = ({| DefinitionsStore.definitions :=
          <[n := {| identifier := identifier d; type := type d;
                    fields := Lodash.uniq (fields old ++ fields d) name |}]>
            (DefinitionsStore.definitions s);
        DefinitionsStore.definitionsByIdentifier :=
          Lodash.indexBy
            (<[n := {| identifier := identifier d; type := type d;
                       fields := Lodash.uniq (fields old ++ fields d) name |}]>
               (DefinitionsStore.definitions s)) |},
     {| identifier := identifier d; type := type d;
        fields := Lodash.uniq (fields old ++ fields d) name |}).
Proof.
  intros [Hc Hnd] Hn Hid. unfold DefinitionsStore.addDefinition.
  rewrite Hc, <- Hid.
  rewrite indexBy_lookup_NoDup; [|done|by apply list_elem_of_lookup_2 in Hn].
  unfold Lodash.indexOf.
  rewrite (indexOf_from_lookup 0 _ n) by (by apply NoDup_fmap_1 in Hnd).
  unfold DefinitionsStore.array_set.
  rewrite (proj2 (Z.leb_le _ _)) by lia.
  rewrite Z.add_0_l, Nat2Z.id, uniq_union. by rewrite Hid.
Qed.

(** The identifiers of the list after [addDefinition]: as before when the
    identifier is stored, with the new one at the end when it is not. *)
Lemma addDefinition_identifiers (s : DefinitionsStore.t) (d : Definition_) :
  one_per_identifier s →
  identifier <$> DefinitionsStore.definitions (DefinitionsStore.addDefinition s d).1
  = match DefinitionsStore.getDefinition s (identifier d) with
    | Some _ => identifier <$> DefinitionsStore.definitions s
    | None => (identifier <$> DefinitionsStore.definitions s) ++ [identifier d]
    end.
Proof.
  intros Hs. destruct (DefinitionsStore.getDefinition s (identifier d)) as [old|] eqn:Hg.
  - pose proof Hs as [Hc Hnd].
    unfold DefinitionsStore.getDefinition in Hg. rewrite Hc in Hg.
    apply indexBy_lookup_Some in Hg as [[n Hn]%list_elem_of_lookup Hid].
    rewrite (addDefinition_known s d old n) by done. simpl.
    rewrite list_fmap_insert. apply list_insert_id.
    by rewrite list_lookup_fmap, Hn; simpl; rewrite Hid.
  - rewrite addDefinition_fresh by done. simpl. by rewrite fmap_app.
Qed.

Lemma one_per_identifier_addDefinition (s : DefinitionsStore.t) (d : Definition_) :
  one_per_identifier s → one_per_identifier (DefinitionsStore.addDefinition s d).1.
Proof.
  intros Hs. split; [apply store_consistent_addDefinition|].
  rewrite addDefinition_identifiers by done.
  destruct Hs as [Hc Hnd].
  destruct (DefinitionsStore.getDefinition s (identifier d)) as [old|] eqn:Hg; [done|].
  apply NoDup_app. split; [done|]. split; [|apply NoDup_singleton].
  intros k Hk Hk'%list_elem_of_singleton. subst k.
  apply list_elem_of_fmap in Hk as (x & Hx & Hin).
  unfold DefinitionsStore.getDefinition in Hg. rewrite Hc in Hg.
  by apply (indexBy_lookup_None _ _ Hg x).
Qed.

Lemma one_per_identifier_new : one_per_identifier DefinitionsStore.new.
Proof. split; [done|]. apply NoDup_nil_2. Qed.

Lemma one_per_identifier_run_store_call (s : DefinitionsStore.t) (c : store_call) :
  one_per_identifier s → one_per_identifier (run_store_call s c).
Proof.
  intros Hs. destruct c as [d|id]; simpl.
  - by apply one_per_identifier_addDefinition.
  - by rewrite removeDefinition_noop.
Qed.

Lemma one_per_identifier_run_store_calls (cs : list store_call) (s : DefinitionsStore.t) :
  one_per_identifier s → one_per_identifier (run_store_calls cs s).
Proof.
  revert s. induction cs as [|c cs IH]; intros s Hs; simpl; [done|].
  apply IH. by apply one_per_identifier_run_store_call.
Qed.

(** What [getDefinition] finds is what the list holds. *)
Lemma getDefinition_Some (s : DefinitionsStore.t) (id : string) (d : Definition_) :
  one_per_identifier s →
  DefinitionsStore.getDefinition s id = Some d
  ↔ d ∈ DefinitionsStore.definitions s ∧ identifier d = id.
Proof.
  intros [Hc Hnd]. unfold DefinitionsStore.getDefinition. rewrite Hc. split.
  - apply indexBy_lookup_Some.
  - intros [Hd <-]. by apply indexBy_lookup_NoDup.
Qed.

Lemma getDefinition_is_Some (s : DefinitionsStore.t) (id : string) :
  one_per_identifier s →
  is_Some (DefinitionsStore.getDefinition s id)
  ↔ id ∈ identifier <$> DefinitionsStore.definitions s.
Proof.
  intros Hs. split.
  - intros [d Hd]. apply (getDefinition_Some s id d Hs) in Hd as [Hd <-].
    apply list_elem_of_fmap. by exists d.
  - intros (d & -> & Hd)%list_elem_of_fmap. exists d.
    by apply (getDefinition_Some s _ d Hs).
Qed.

Lemma run_store_calls_app (cs1 cs2 : list store_call) (s : DefinitionsStore.t) :
  run_store_calls (cs1 ++ cs2) s = run_store_calls cs2 (run_store_calls cs1 s).
Proof. apply foldl_app. Qed.

Lemma identifiers_run_store_calls (cs : list store_call) (s : DefinitionsStore.t)
    (id : string) :
  one_per_identifier s →
  id ∈ identifier <$> DefinitionsStore.definitions s →
  id ∈ identifier <$> DefinitionsStore.definitions (run_store_calls cs s).
Proof.
  revert s. induction cs as [|c cs IH]; intros s Hs Hid; simpl; [done|].
  apply IH; [by apply one_per_identifier_run_store_call|].
  destruct c as [d|id']; simpl; [|by rewrite removeDefinition_noop].
  rewrite addDefinition_identifiers by done.
  destruct (DefinitionsStore.getDefinition s (identifier d)); [done|].
  apply elem_of_app. by left.
Qed.

(** The definitions with an identifier other than the one of [d] are the
    same in the list before and after [addDefinition] of [d]. *)
Lemma addDefinition_others (s : DefinitionsStore.t) (d x : Definition_) :
  one_per_identifier s →
  identifier x ≠ identifier d →
  x ∈ DefinitionsStore.definitions (DefinitionsStore.addDefinition s d).1
  ↔ x ∈ DefinitionsStore.definitions s.
Proof.
  intros Hs Hx.
  destruct (DefinitionsStore.getDefinition s (identifier d)) as [old|] eqn:Hg.
  - pose proof Hs as [Hc Hnd].
    unfold DefinitionsStore.getDefinition in Hg. rewrite Hc in Hg.
    apply indexBy_lookup_Some in Hg as [[n Hn]%list_elem_of_lookup Hid].
    rewrite (addDefinition_known s d old n) by done. simpl.
    rewrite !list_elem_of_lookup. split; intros [i Hi].
    + destruct (decide (n = i)) as [->|Hne].
      * rewrite list_lookup_insert_eq in Hi by (by eapply lookup_lt_Some).
        injection Hi as <-. by destruct Hx.
      * rewrite list_lookup_insert_ne in Hi by done. by exists i.
    + destruct (decide (n = i)) as [->|Hne].
      * rewrite Hn in Hi. injection Hi as ->. by destruct Hx.
      * exists i. by rewrite list_lookup_insert_ne.
  - rewrite addDefinition_fresh by done. simpl. rewrite elem_of_app.
    split; [|by left]. intros [?|Hd%list_elem_of_singleton]; [done|by subst x].
Qed.

(** X6. After any sequence of [addDefinition] and [removeDefinition]
    calls on a new store, no two stored definitions have the same
    identifier, and [getDefinition] returns a definition exactly when the
    list holds it under that identifier. *)
Theorem store_one_definition_per_identifier (cs : list store_call) (id : string)
    (d : Definition_) :
  NoDup (identifier <$>
           DefinitionsStore.definitions (run_store_calls cs DefinitionsStore.new))
  ∧ (DefinitionsStore.getDefinition (run_store_calls cs DefinitionsStore.new) id = Some d
     ↔ d ∈ DefinitionsStore.forEach (run_store_calls cs DefinitionsStore.new)
       ∧ identifier d = id).
Proof.
  pose proof (one_per_identifier_run_store_calls cs _ one_per_identifier_new) as Hs.
  split; [apply Hs|]. by apply getDefinition_Some.
Qed.

Lemma addDefinition_type (s : DefinitionsStore.t) (d : Definition_) :
  type (DefinitionsStore.addDefinition s d).2 = type d.
Proof.
  unfold DefinitionsStore.addDefinition.
  by destruct (DefinitionsStore.definitionsByIdentifier s !! identifier d).
Qed.

(** On a store with one definition per identifier, what [addDefinition]
    stores and returns, and what [getDefinition] finds afterwards. *)
Lemma addDefinition_stored (s : DefinitionsStore.t) (d : Definition_) :
  one_per_identifier s →
  DefinitionsStore.getDefinition (DefinitionsStore.addDefinition s d).1 (identifier d)
  = Some (DefinitionsStore.addDefinition s d).2
  ∧ identifier (DefinitionsStore.addDefinition s d).2 = identifier d
  ∧ type (DefinitionsStore.addDefinition s d).2 = type d
  ∧ fields (DefinitionsStore.addDefinition s d).2
    = match DefinitionsStore.getDefinition s (identifier d) with
      | Some old => Lodash.uniq (fields old ++ fields d) name
      | None => fields d
      end.
Proof.
  intros Hs.
  pose proof (one_per_identifier_addDefinition s d Hs) as Hs'.
  assert ((DefinitionsStore.addDefinition s d).2
          ∈ DefinitionsStore.definitions (DefinitionsStore.addDefinition s d).1
          ∧ fields (DefinitionsStore.addDefinition s d).2
            = match DefinitionsStore.getDefinition s (identifier d) with
              | Some old => Lodash.uniq (fields old ++ fields d) name
              | None => fields d
              end) as [Hin Hfs].
  { destruct (DefinitionsStore.getDefinition s (identifier d)) as [old|] eqn:Hg.
    - pose proof Hs as [Hc Hnd].
      unfold DefinitionsStore.getDefinition in Hg. rewrite Hc in Hg.
      apply indexBy_lookup_Some in Hg as [[n Hn]%list_elem_of_lookup Hid].
      rewrite (addDefinition_known s d old n) by done. simpl.
      split; [|done]. apply list_elem_of_lookup. exists n.
      apply list_lookup_insert_eq. by eapply lookup_lt_Some.
    - rewrite addDefinition_fresh by done. simpl.
      split; [|done]. apply elem_of_app. right. by apply list_elem_of_singleton. }
  split; [|by rewrite addDefinition_identifier, addDefinition_type].
  apply getDefinition_Some; [done|]. split; [done|]. apply addDefinition_identifier.
Qed.

(** What [getDefinition] finds under the other identifiers is the same
    before and after [addDefinition]. *)
Lemma addDefinition_other (s : DefinitionsStore.t) (d : Definition_) (id : string) :
  one_per_identifier s →
  id ≠ identifier d →
  DefinitionsStore.getDefinition (DefinitionsStore.addDefinition s d).1 id
  = DefinitionsStore.getDefinition s id.
Proof.
  intros Hs Hne.
  pose proof (one_per_identifier_addDefinition s d Hs) as Hs'.
  destruct (DefinitionsStore.getDefinition s id) as [x|] eqn:Hx.
  - apply (getDefinition_Some s id x Hs) in Hx as [Hx Hxid].
    apply getDefinition_Some; [done|]. split; [|done].
    apply addDefinition_others; [done|congruence|done].
  - destruct (DefinitionsStore.getDefinition (DefinitionsStore.addDefinition s d).1 id)
      as [y|] eqn:Hy; [|done].
    apply (getDefinition_Some _ id y Hs') in Hy as [Hy Hyid].
    apply addDefinition_others in Hy; [|done|congruence].
    assert (DefinitionsStore.getDefinition s id = Some y) as Hget
      by by apply getDefinition_Some.
    congruence.
Qed.


(** X8. A store never forgets: once [getDefinition] finds a definition
    under an identifier, it finds one after every further sequence of
    [addDefinition] and [removeDefinition] calls. *)
Theorem store_never_forgets (cs1 cs2 : list store_call) (id : string) :
  is_Some (DefinitionsStore.getDefinition (run_store_calls cs1 DefinitionsStore.new) id) →
  is_Some (DefinitionsStore.getDefinition
             (run_store_calls (cs1 ++ cs2) DefinitionsStore.new) id).
Proof.
  intros Hid. rewrite run_store_calls_app.
  pose proof (one_per_identifier_run_store_calls cs1 _ one_per_identifier_new) as Hs.
  apply getDefinition_is_Some; [by apply one_per_identifier_run_store_calls|].
  apply identifiers_run_store_calls; [done|].
  by apply getDefinition_is_Some.
Qed.

Lemma store_never_forgets_witness :
  is_Some (DefinitionsStore.getDefinition
             (run_store_calls ([AddDefinition example_D1]
                               ++ [RemoveDefinition "a"; AddDefinition example_other])
                DefinitionsStore.new) "a").
Proof.
  apply (store_never_forgets [AddDefinition example_D1]
           [RemoveDefinition "a"; AddDefinition example_other] "a").
  by eexists.
Defined.

(** * Further properties of the handler manager *)

Lemma with_promises_id (s : HandlerManager.t) :
  HandlerManager.with_promises s (HandlerManager.promises s) = s.
Proof. by destruct s. Qed.

(** A call of a callback, in full. *)
Lemma call_explicit (callback : Callback) (param : Payload) (s : HandlerManager.t) :
  HandlerManager.call callback param s
  = (HandlerManager.with_promises s (settle param (HandlerManager.promises s) callback),
     call_effects param [callback], Normal tt).
Proof.
  destruct callback as [n|p]; simpl.
  - unfold emit. by rewrite with_promises_id.
  - unfold HandlerManager.fn, HandlerManager.resolve, HandlerManager.set_timer,
      HandlerManager.set_promises, bind, read, write, ret. simpl.
    rewrite list_lookup_alter_eq.
    destruct (HandlerManager.promises s !! p) as [[st tm aw]|] eqn:Hp; simpl.
    + destruct tm; simpl; unfold HandlerManager.with_promises; simpl;
        do 2 f_equal; f_equal.
      all: try rewrite list_alter_alter_eq.
      all: apply list_alter_ext; [|done]; intros c Hc;
        rewrite Hp in Hc; by injection Hc as <-.
    + unfold HandlerManager.with_promises; simpl. do 2 f_equal. f_equal.
      apply list_alter_ext; [|done]. intros c Hc. by rewrite Hp in Hc.
Qed.

Lemma called_cons (callback : Callback) (callCount : Z)
    (rest : list HandlerManager.entry) :
  called ((callback, callCount) :: rest)
  = callback :: (if callCount =? 1 then called (drop 1 rest) else called rest).
Proof.
  unfold called. simpl. destruct (callCount =? 1); [|done].
  by rewrite called_skip_true.
Qed.

Lemma call_effects_cons (param : Payload) (callback : Callback)
    (callbacks : list Callback) :
  call_effects param (callback :: callbacks)
  = call_effects param [callback] ++ call_effects param callbacks.
Proof. unfold call_effects. by destruct callback. Qed.

(** The loop is over when the index is past the end of the array. *)
Lemma callHandlers_loop_end (fuel : nat) (identifier : string) (param : Payload)
    (i : nat) (h : list HandlerManager.entry) (s : HandlerManager.t) :
  (length h ≤ i)%nat →
  HandlerManager.callHandlers_loop (S fuel) identifier param i h s = (s, [], Normal tt).
Proof.
  intros Hi. cbn [HandlerManager.callHandlers_loop].
  by rewrite lookup_ge_None_2.
Qed.

(** The loop of [callHandlers] in full, when it is at the entry that
    follows [pre] and has [post] to visit: the state it leaves and what it
    logs. *)
Lemma callHandlers_loop_explicit (fuel : nat) (identifier : string) (param : Payload)
    (pre post : list HandlerManager.entry) (s : HandlerManager.t) :
  pre ++ post ≠ [] →
  HandlerManager.get s identifier = Some (pre ++ post) →
  (length post < fuel)%nat →
  HandlerManager.callHandlers_loop fuel identifier param (length pre) (pre ++ post) s
  = ({| HandlerManager.map_keys := HandlerManager.map_keys s;
        HandlerManager.properties :=
          <[identifier := if bool_decide (pre ++ remaining post = []) then None
                          else Some (pre ++ remaining post)]>
            (HandlerManager.properties s);
        HandlerManager.promises :=
          foldl (settle param) (HandlerManager.promises s) (called post) |},
     (if bool_decide (pre ++ remaining post = [])
      then [HandlerManager.LastRemoved identifier] else [])
     ++ call_effects param (called post),
     Normal tt).
Proof.
  revert pre post s. induction fuel as [|fuel IH]; intros pre post s Hne Hh Hfuel; [lia|].
  destruct post as [|[callback callCount] rest].
  { rewrite callHandlers_loop_end by (rewrite app_nil_r; lia).
    rewrite app_nil_r in *. unfold remaining, called. simpl. rewrite app_nil_r.
    rewrite bool_decide_eq_false_2 by done.
    rewrite insert_id by (by apply get_Some_lookup). by destruct s. }
  simpl in Hfuel.
  cbn [HandlerManager.callHandlers_loop].
  rewrite list_lookup_middle by done. cbn beta iota.
  assert (Hcont : ∀ pre' post' s1,
            length pre' = S (length pre) →
            (length post' < fuel)%nat →
            HandlerManager.get s1 identifier = Some (pre' ++ post') →
            HandlerManager.map_keys s1 = HandlerManager.map_keys s →
            HandlerManager.properties s1
            = <[identifier := Some (pre' ++ post')]> (HandlerManager.properties s) →
            HandlerManager.promises s1 = HandlerManager.promises s →
            (HandlerManager.call callback param >>
             HandlerManager.callHandlers_loop fuel identifier param (S (length pre))
               (pre' ++ post'))%comp s1
            = ({| HandlerManager.map_keys := HandlerManager.map_keys s;
                  HandlerManager.properties :=
                    <[identifier := Some (pre' ++ remaining post')]>
                      (HandlerManager.properties s);
                  HandlerManager.promises :=
                    foldl (settle param)
                      (settle param (HandlerManager.promises s) callback)
                      (called post') |},
               call_effects param [callback] ++ call_effects param (called post'),
               Normal tt)).
  { intros pre' post' s1 Hlen Hfuel' Hs1 Hk1 Hp1 Hc1.
    rewrite (bind_normal _ _ _ _ _ _ (call_explicit callback param s1)).
    rewrite <- Hlen.
    rewrite IH; [|by destruct pre'|done|done].
    assert (pre' ++ remaining post' ≠ []) as Hne' by by destruct pre'.
    rewrite bool_decide_eq_false_2 by done. simpl.
    by rewrite Hk1, Hp1, Hc1, insert_insert_eq. }
  destruct (0 <? callCount) eqn:Hpos.
  - set (h1 := pre ++ (callback, callCount - 1) :: rest).
    assert (Hh1 : <[length pre := (callback, callCount - 1)]>
                    (pre ++ (callback, callCount) :: rest) = h1).
    { rewrite insert_app_r_alt by lia. by rewrite Nat.sub_diag. }
    rewrite Hh1.
    set (s1 := HandlerManager.with_property s identifier (Some h1)).
    assert (Hs1 : HandlerManager.get s1 identifier = Some h1) by apply get_with_property.
    destruct (callCount - 1 =? 0) eqn:Hzero.
    + assert (callCount = 1) as -> by lia.
      assert (Hdel : delete (length pre) h1 = pre ++ rest) by apply delete_middle.
      rewrite called_cons. unfold remaining. simpl. fold (remaining (drop 1 rest)).
      destruct rest as [|x rest'].
      * (* the entry is the last of the array *)
        rewrite app_nil_r in Hdel. simpl. rewrite app_nil_r.
        assert (Hin : (HandlerManager.set_property identifier (Some h1) >>
                       HandlerManager.detachAtIndex identifier (length pre))%comp s
                      = (if bool_decide (pre = [])
                         then HandlerManager.with_property
                                (HandlerManager.with_property s1 identifier (Some pre))
                                identifier None
                         else HandlerManager.with_property s1 identifier (Some pre),
                         [] ++ (if bool_decide (pre = [])
                                then [HandlerManager.LastRemoved identifier] else []),
                         Normal pre)).
        { rewrite (bind_normal _ _ s s1 [] tt) by reflexivity.
          rewrite (detachAtIndex_run _ _ _ _ Hs1), Hdel.
          destruct pre; by simpl. }
        rewrite (bind_normal _ _ _ _ _ _ Hin).
        rewrite (bind_normal _ _ _ _ _ _ (call_explicit callback param _)).
        simpl in Hfuel. destruct fuel as [|fuel]; [lia|].
        rewrite callHandlers_loop_end by lia.
        rewrite !app_nil_r. unfold called. simpl.
        case_bool_decide; unfold HandlerManager.with_promises, s1; simpl;
          by rewrite !insert_insert_eq.
      * (* the next entry moves to the place of this one and is passed over *)
        assert (Hin : (HandlerManager.set_property identifier (Some h1) >>
                       HandlerManager.detachAtIndex identifier (length pre))%comp s
                      = (HandlerManager.with_property s1 identifier
                           (Some (pre ++ x :: rest')),
                         [] ++ [], Normal (pre ++ x :: rest'))).
        { rewrite (bind_normal _ _ s s1 [] tt) by reflexivity.
          rewrite (detachAtIndex_run _ _ _ _ Hs1), Hdel.
          rewrite bool_decide_eq_false_2; [done|].
          rewrite length_app. simpl. lia. }
        rewrite (bind_normal _ _ _ _ _ _ Hin).
        replace (pre ++ x :: rest') with ((pre ++ [x]) ++ rest')
          by (by rewrite <- app_assoc).
        rewrite Hcont.
        -- destruct x as [cb' c']. simpl. rewrite drop_0.
           rewrite bool_decide_eq_false_2 by (by destruct pre).
           by rewrite <- !app_assoc, (call_effects_cons param callback (called rest')).
        -- rewrite length_app. simpl. lia.
        -- simpl in Hfuel. lia.
        -- apply get_with_property.
        -- done.
        -- simpl. by rewrite insert_insert_eq.
        -- done.
    + assert ((callCount =? 1) = false) as Hone by lia.
      assert (Hin : (HandlerManager.set_property identifier (Some h1) >> ret h1)%comp s
                    = (s1, [] ++ [], Normal h1)) by reflexivity.
      rewrite (bind_normal _ _ _ _ _ _ Hin).
      unfold h1.
      replace (pre ++ (callback, callCount - 1) :: rest)
        with ((pre ++ [(callback, callCount - 1)]) ++ rest)
        by (by rewrite <- app_assoc).
      rewrite Hcont.
      * rewrite called_cons, Hone. unfold remaining. simpl. rewrite Hone, Hpos.
        rewrite bool_decide_eq_false_2 by (by destruct pre).
        by rewrite <- !app_assoc, (call_effects_cons param callback (called rest)).
      * rewrite length_app. simpl. lia.
      * lia.
      * rewrite <- app_assoc. apply Hs1.
      * done.
      * by rewrite <- app_assoc.
      * done.
  - assert ((callCount =? 1) = false) as Hone by lia.
    rewrite (bind_normal _ _ s s [] (pre ++ (callback, callCount) :: rest))
      by reflexivity.
    replace (pre ++ (callback, callCount) :: rest)
      with ((pre ++ [(callback, callCount)]) ++ rest)
      by (by rewrite <- app_assoc).
    rewrite Hcont.
    + rewrite called_cons, Hone. unfold remaining. simpl. rewrite Hone, Hpos.
      rewrite bool_decide_eq_false_2 by (by destruct pre).
      by rewrite <- !app_assoc, (call_effects_cons param callback (called rest)).
    + rewrite length_app. simpl. lia.
    + lia.
    + by rewrite <- app_assoc.
    + done.
    + rewrite <- app_assoc. symmetry. apply insert_id. by apply get_Some_lookup.
    + done.
Qed.

(** [callHandlers] in full, for an identifier with entries. *)
Lemma callHandlers_explicit (identifier : string) (param : Payload)
    (s : HandlerManager.t) (h : list HandlerManager.entry) :
  h ≠ [] →
  HandlerManager.get s identifier = Some h →
  HandlerManager.callHandlers identifier param s
  = ({| HandlerManager.map_keys := HandlerManager.map_keys s;
        HandlerManager.properties :=
          <[identifier := if bool_decide (remaining h = []) then None
                          else Some (remaining h)]>
            (HandlerManager.properties s);
        HandlerManager.promises :=
          foldl (settle param) (HandlerManager.promises s) (called h) |},
     (if bool_decide (remaining h = [])
      then [HandlerManager.LastRemoved identifier] else [])
     ++ call_effects param (called h),
     Normal tt).
Proof.
  intros Hne Hh.
  unfold HandlerManager.callHandlers, HandlerManager.property.
  unfold bind at 1. unfold bind at 1. unfold read, ret. cbn beta iota.
  rewrite Hh. cbn beta iota.
  pose proof (callHandlers_loop_explicit (S (length h)) identifier param [] h s) as Hl.
  cbn [app length] in Hl. by rewrite Hl by (done || lia).
Qed.

(** [callHandlers] for an identifier without entries. *)
Lemma callHandlers_no_entries (identifier : string) (param : Payload)
    (s : HandlerManager.t) :
  entries s identifier = [] →
  HandlerManager.callHandlers identifier param s = (s, [], Normal tt).
Proof.
  unfold entries. intros Hh.
  unfold HandlerManager.callHandlers, HandlerManager.property.
  unfold bind at 1. unfold bind at 1. unfold read, ret. cbn beta iota.
  destruct (HandlerManager.get s identifier) as [h|]; [|done].
  simpl in Hh. subst h. reflexivity.
Qed.

Lemma remaining_all_stay (h post : list HandlerManager.entry) :
  (∀ e, e ∈ h → e.2 ≠ 1) →
  remaining (h ++ post) = (lowered <$> h) ++ remaining post.
Proof.
  unfold remaining. induction h as [|[callback callCount] h IH]; intros Hh; [done|].
  simpl. assert ((callCount =? 1) = false) as ->.
  { apply Z.eqb_neq. apply (Hh (callback, callCount)). by left. }
  unfold lowered at 1. simpl. f_equal. apply IH. intros e ?. apply Hh. by right.
Qed.

Lemma called_all_stay (h post : list HandlerManager.entry) :
  (∀ e, e ∈ h → e.2 ≠ 1) → called (h ++ post) = h.*1 ++ called post.
Proof.
  unfold called. induction h as [|[callback callCount] h IH]; intros Hh; [done|].
  simpl. assert ((callCount =? 1) = false) as ->.
  { apply Z.eqb_neq. apply (Hh (callback, callCount)). by left. }
  f_equal. apply IH. intros e ?. apply Hh. by right.
Qed.

Lemma fulfil_fulfil (param : Payload) (c : Cell) :
  fulfil param (fulfil param c) = fulfil param c.
Proof. destruct c as [st tm aw]. by destruct st, tm. Qed.

(** The cell of a promise after the calls of [callbacks]: fulfilled if
    its function is among them, as it was if not. *)
Lemma foldl_settle_lookup (param : Payload) (callbacks : list Callback)
    (cells : list Cell) (p : nat) :
  foldl (settle param) cells callbacks !! p
  = (if bool_decide (PromiseFn p ∈ callbacks) then fulfil param else λ c, c)
      <$> cells !! p.
Proof.
  revert cells. induction callbacks as [|x l IH]; intros cells; cbn [foldl].
  - rewrite bool_decide_eq_false_2 by apply not_elem_of_nil.
    by destruct (cells !! p).
  - rewrite IH. destruct x as [n|p']; cbn [settle].
    + by rewrite (bool_decide_ext (PromiseFn p ∈ Function_ n :: l) (PromiseFn p ∈ l))
        by (rewrite elem_of_cons; naive_solver).
    + destruct (decide (p' = p)) as [->|Hne].
      * rewrite list_lookup_alter_eq.
        rewrite (bool_decide_eq_true_2 (PromiseFn p ∈ PromiseFn p :: l)) by by left.
        destruct (cells !! p) as [c|]; [|done]. simpl.
        case_bool_decide; [by rewrite fulfil_fulfil|done].
      * rewrite list_lookup_alter_ne by done.
        by rewrite (bool_decide_ext (PromiseFn p ∈ PromiseFn p' :: l) (PromiseFn p ∈ l))
          by (rewrite elem_of_cons; naive_solver).
Qed.

Lemma foldl_settle_functions (param : Payload) (callbacks : list Callback)
    (cells : list Cell) :
  (∀ callback, callback ∈ callbacks → ∃ n, callback = Function_ n) →
  foldl (settle param) cells callbacks = cells.
Proof.
  induction callbacks as [|x l IH]; intros Hl; [done|]. simpl.
  destruct (Hl x) as [n ->]; [by left|]. simpl. apply IH.
  intros callback ?. apply Hl. by right.
Qed.


Lemma entries_insert (s s' : HandlerManager.t) (identifier identifier' : string)
    (v : option (list HandlerManager.entry)) :
  HandlerManager.properties s' = <[identifier := v]> (HandlerManager.properties s) →
  entries s' identifier'
  = if bool_decide (identifier' = identifier) then default [] v
    else entries s identifier'.
Proof.
  intros Hp. unfold entries, HandlerManager.get. rewrite Hp.
  case_bool_decide as Heq.
  - subst identifier'. by rewrite lookup_insert_eq.
  - by rewrite lookup_insert_ne.
Qed.


(** X11. [callHandlers] settles exactly the promises whose functions it
    calls: each is resolved with [param] if it was pending, and its timer
    is cleared if it was running; every other promise of the manager is as
    before. *)
Theorem callHandlers_fulfils_called (identifier : string) (param : Payload)
    (s : HandlerManager.t) (p : nat) :
  HandlerManager.promises (HandlerManager.callHandlers identifier param s).1.1 !! p
  = (if bool_decide (PromiseFn p ∈ called (entries s identifier))
     then fulfil param else λ c, c) <$> HandlerManager.promises s !! p.
Proof.
  destruct (decide (entries s identifier = [])) as [Hnil|Hne].
  - rewrite callHandlers_no_entries by done. simpl. rewrite Hnil.
    rewrite bool_decide_eq_false_2 by apply not_elem_of_nil.
    by destruct (HandlerManager.promises s !! p).
  - unfold entries in *.
    destruct (HandlerManager.get s identifier) as [h|] eqn:Hh; [|done]. simpl in *.
    rewrite (callHandlers_explicit identifier param s h) by done. simpl.
    apply foldl_settle_lookup.
Qed.

Lemma remaining_permanent (h : list HandlerManager.entry) :
  (∀ e, e ∈ h → e.2 ≤ 0) → remaining h = h.
Proof.
  intros Hh. rewrite <- (app_nil_r h) at 1.
  rewrite remaining_all_stay by (intros e He; specialize (Hh e He); lia).
  rewrite app_nil_r. rewrite <- (list_fmap_id h) at 2.
  apply list_fmap_ext. intros i [callback callCount] Hi.
  unfold lowered. simpl.
  assert (callCount ≤ 0) as Hc.
  { apply (Hh (callback, callCount)). by apply list_elem_of_lookup_2 in Hi. }
  by rewrite (proj2 (Z.ltb_ge _ _)) by lia.
Qed.



Lemma dispatches_no_entries (k : nat) (identifier : string) (param : Payload)
    (s : HandlerManager.t) :
  entries s identifier = [] →
  dispatches k identifier param s = (s, [], Normal tt).
Proof.
  intros Hnil. induction k as [|k IH]; [done|]. cbn [dispatches].
  rewrite (bind_normal _ _ _ _ _ _ (callHandlers_no_entries identifier param s Hnil)).
  by rewrite IH.
Qed.



(** [makePromise] in full. *)
Lemma makePromise_explicit (identifier : string) (timeout : option Z)
    (s : HandlerManager.t) :
  HandlerManager.makePromise identifier timeout s
  = ({| HandlerManager.map_keys := HandlerManager.map_keys s;
        HandlerManager.properties :=
          <[identifier := Some (entries s identifier
                                ++ [(PromiseFn (length (HandlerManager.promises s)), 1)])]>
            (HandlerManager.properties s);
        HandlerManager.promises :=
          HandlerManager.promises s
          ++ [{| settled := Promise.Pending;
                 timer := if truthy_timeout timeout then Armed else NotSet;
                 awaited := identifier |}] |},
     match HandlerManager.get s identifier with
     | None => [HandlerManager.FirstAdded identifier]
     | Some _ => []
     end,
     Normal (length (HandlerManager.promises s))).
Proof.
  unfold HandlerManager.makePromise. unfold bind at 1. unfold read. cbn beta iota.
  rewrite (bind_normal _ _ s _ [] tt) by reflexivity.
  unfold HandlerManager.attachOnce. unfold bind at 1. rewrite attach_explicit.
  unfold entries.
  change (HandlerManager.get (HandlerManager.with_promises s _) identifier)
    with (HandlerManager.get s identifier).
  destruct (HandlerManager.get s identifier) as [h|], (truthy_timeout timeout);
    cbn -[insert alter]; unfold HandlerManager.with_promises; cbn -[insert alter];
    rewrite ?insert_insert_eq, ?app_nil_r; try done.
  all: unfold HandlerManager.with_property; cbn -[insert alter].
  all: by rewrite ?insert_insert_eq, ?alter_app_r_alt, ?Nat.sub_diag by lia.
Qed.







Lemma first_added_app (identifier : string) (l1 l2 : list HandlerManager.effect) :
  first_added identifier (l1 ++ l2)
  = (first_added identifier l1 + first_added identifier l2)%nat.
Proof. unfold first_added. by rewrite hooks_of_app, filter_app, length_app. Qed.

Lemma last_removed_app (identifier : string) (l1 l2 : list HandlerManager.effect) :
  last_removed identifier (l1 ++ l2)
  = (last_removed identifier l1 + last_removed identifier l2)%nat.
Proof. unfold last_removed. by rewrite hooks_of_app, filter_app, length_app. Qed.

Lemma hooks_balanced_from (ms : list method) (s : HandlerManager.t)
    (identifier : string) :
  well_formed s →
  (first_added identifier (effects_of ms s)
   + (if bool_decide (entries s identifier = []) then 0 else 1)
   = last_removed identifier (effects_of ms s)
     + (if bool_decide (entries (run_methods ms s) identifier = []) then 0 else 1))%nat.
Proof.
  revert s. induction ms as [|m ms IH]; intros s Hs; [done|].
  cbn [effects_of run_methods foldl].
  destruct (run_method_transition m s Hs) as (s' & log & Hrun & Ht).
  rewrite Hrun. cbn [fst snd].
  destruct (transition_hooks s s' log identifier Hs Ht) as (Hs' & Hfirst & Hlast).
  specialize (IH s' Hs'). unfold run_methods in IH.
  rewrite first_added_app, last_removed_app, Hfirst, Hlast.
  repeat case_bool_decide; naive_solver lia.
Qed.

(** X17. The hooks are balanced: in the log of any sequence of calls on
    a new manager, the first hook ran for an identifier as often as the
    last hook if the identifier has no entry at the end, and once more if
    it has one. *)
Theorem hooks_balanced (ms : list method) (identifier : string) :
  first_added identifier (effects_of ms HandlerManager.new)
  = (last_removed identifier (effects_of ms HandlerManager.new)
     + (if bool_decide (entries (run_methods ms HandlerManager.new) identifier = [])
        then 0 else 1))%nat.
Proof.
  pose proof (hooks_balanced_from ms HandlerManager.new identifier well_formed_new) as H.
  assert (entries HandlerManager.new identifier = []) as Hnew.
  { unfold entries, HandlerManager.get. simpl. by rewrite lookup_empty. }
  rewrite Hnew in H. rewrite bool_decide_eq_true_2 in H by done. lia.
Qed.

(** *** A promise without timeout *)

Section WithoutTimer.
Context (p : nat).
Local Abbreviation J := (without_timer p).
Local Abbreviation any := (λ (_ : string) (_ : Callback), True).

Lemma J_with_property s identifier' v :
  J s → (∀ h, v = Some h → admitted any identifier' h) →
  J (HandlerManager.with_property s identifier' v).
Proof. by intros Hs _. Qed.

Lemma J_admitted s identifier' h :
  J s → HandlerManager.get s identifier' = Some h → admitted any identifier' h.
Proof. by intros _ _ ? ?. Qed.

Lemma J_alter_ne s p' f :
  p' ≠ p → J s →
  J (HandlerManager.with_promises s (alter f p' (HandlerManager.promises s))).
Proof.
  intros Hne (c & Hc & Ht & Hr). exists c. simpl.
  by rewrite list_lookup_alter_ne.
Qed.

Lemma J_call identifier' callback param :
  any identifier' callback → True →
  preserves J (HandlerManager.call callback param).
Proof.
  intros _ _ s Hs. rewrite call_explicit. simpl.
  destruct callback as [n|p']; simpl; [by rewrite with_promises_id|].
  destruct (decide (p' = p)) as [->|Hne]; [|by apply J_alter_ne].
  destruct Hs as (c & Hc & Ht & Hr). exists (fulfil param c). simpl.
  rewrite list_lookup_alter_eq, Hc. split; [done|]. unfold fulfil. simpl.
  rewrite Ht. split; [done|]. intros r. specialize (Hr r). by destruct (settled c).
Qed.

Lemma J_makePromise identifier' timeout :
  preserves J (HandlerManager.makePromise identifier' timeout).
Proof.
  intros s (c & Hc & Ht & Hr). rewrite makePromise_explicit. simpl.
  exists c. simpl. by rewrite (lookup_app_l_Some _ _ _ _ Hc).
Qed.

Lemma J_timeout_elapses p' : preserves J (HandlerManager.timeout_elapses p').
Proof.
  unfold HandlerManager.timeout_elapses, HandlerManager.on_timeout.
  apply preserves_read_then. intros s Hs.
  destruct (HandlerManager.promises s !! p') as [c'|] eqn:Hc'; [|apply preserves_ret].
  destruct (timer c') eqn:Ht'; try apply preserves_ret.
  assert (p' ≠ p) as Hne.
  { intros ->. destruct Hs as (c & Hc & Ht & _). congruence. }
  apply preserves_bind; [|intros _; apply preserves_bind; [|intros _]].
  - intros s1 Hs1. simpl. by apply J_alter_ne.
  - exact (policy_detach J any J_with_property J_admitted _ _).
  - intros s1 Hs1. simpl. by apply J_alter_ne.
Qed.

Lemma J_run_method (m : method) : preserves J (run_method m).
Proof.
  destruct m; simpl.
  - by apply (policy_attach J any J_with_property).
  - by apply (policy_attach J any J_with_property).
  - exact (policy_detach J any J_with_property J_admitted _ _).
  - exact (policy_detachAll J any J_with_property J_admitted).
  - by apply (policy_callHandlers J any (λ _, True) J_with_property J_admitted J_call).
  - apply preserves_bind; [apply J_makePromise|intros; apply preserves_ret].
  - apply J_timeout_elapses.
Qed.

Lemma J_run_methods (ms : list method) (s : HandlerManager.t) :
  J s → J (run_methods ms s).
Proof.
  revert s. induction ms as [|m ms IH]; intros s Hs; simpl; [done|].
  apply IH. by apply J_run_method.
Qed.

End WithoutTimer.



(** * Further properties of the client *)

(** ** Methods of the managers, run on the client *)

Lemma hook_explicit (m : Client.manager) (e : HandlerManager.effect) (s : Client.t) :
  Client.hook m e s
  = (s, hook_log m (Client.connection s) (Client.truthy (Client.isConnected s)) e,
     Normal tt).
Proof.
  unfold Client.hook, hook_log, Client.isConnected, Client.send.
  destruct e as [identifier|identifier|n param]; [| |done];
    destruct m; try done; unfold bind, read; simpl;
    destruct (Client.connection s) as [c|] eqn:Hc; simpl; try done;
    destruct (default false _); simpl; by rewrite ?Hc.
Qed.

Lemma for_each_hook (m : Client.manager) (effects : list HandlerManager.effect)
    (s : Client.t) :
  for_each effects (Client.hook m) s
  = (s,
     effects ≫= hook_log m (Client.connection s) (Client.truthy (Client.isConnected s)),
     Normal tt).
Proof.
  induction effects as [|e effects IH]; [done|]. cbn [for_each].
  rewrite (bind_normal _ _ _ _ _ _ (hook_explicit m e s)). by rewrite IH.
Qed.

(** A method of a manager run on the client: the state of the manager
    changes, and the hooks log what the method did. *)
Lemma on_manager_explicit {A} (m : Client.manager) (r : HandlerManager.R A)
    (s : Client.t) :
  Client.on_manager m r s
  = (Client.set_manager s m (r (Client.manager_of s m)).1.1,
     (r (Client.manager_of s m)).1.2
       ≫= hook_log m (Client.connection s) (Client.truthy (Client.isConnected s)),
     (r (Client.manager_of s m)).2).
Proof.
  unfold Client.on_manager.
  destruct (r (Client.manager_of s m)) as [[h effects] result]. simpl.
  by rewrite for_each_hook.
Qed.

Lemma sent_app (l1 l2 : list Client.Event) : sent (l1 ++ l2) = sent l1 ++ sent l2.
Proof. unfold sent. apply omap_app. Qed.

Lemma occurrences_app {A} `{EqDecision A} (x : A) (l1 l2 : list A) :
  occurrences x (l1 ++ l2) = (occurrences x l1 + occurrences x l2)%nat.
Proof. unfold occurrences. by rewrite filter_app, length_app. Qed.

(** X19. The managers of actions, of definitions and of undefinitions
    have empty hooks: whatever is called on them, the client sends no
    packet. *)
Theorem other_managers_never_send {A} (m : Client.manager) (r : HandlerManager.R A)
    (s : Client.t) :
  m ≠ Client.EventHandlers →
  sent (Client.on_manager m r s).1.2 = [].
Proof.
  intros Hm. rewrite on_manager_explicit. simpl.
  induction ((r (Client.manager_of s m)).1.2) as [|e effects IH]; [done|].
  rewrite bind_cons, sent_app, IH, app_nil_r.
  by destruct e, m, (Client.connection s).
Qed.

Lemma other_managers_never_send_witness :
  sent (Client.on_manager Client.DefinitionHandlers
          (HandlerManager.makePromise "D1" (Some 50))
          (Client.run [Client.Connect; Client.SocketOpen 0] Client.new).1).1.2 = [].
Proof.
  apply (other_managers_never_send Client.DefinitionHandlers
           (HandlerManager.makePromise "D1" (Some 50))).
  discriminate.
Defined.

(** The packets the hooks of the event handlers send while the connection
    is open: one [sub] for each run of the first hook, one [unsub] for each
    run of the last hook. *)
Lemma occurrences_subscribe (c : nat) (identifier : string)
    (effects : list HandlerManager.effect) :
  occurrences (c, RotondeConnection.sendSubscribe identifier)
    (sent (effects ≫= hook_log Client.EventHandlers (Some c) true))
  = first_added identifier effects
  ∧ occurrences (c, RotondeConnection.sendUnsubscribe identifier)
      (sent (effects ≫= hook_log Client.EventHandlers (Some c) true))
    = last_removed identifier effects.
Proof.
  induction effects as [|e effects [IH1 IH2]]; [done|].
  rewrite bind_cons, sent_app, !occurrences_app, IH1, IH2.
  change (e :: effects) with ([e] ++ effects).
  rewrite first_added_app, last_removed_app.
  split; f_equal.
  - destruct e as [identifier'|identifier'|n param]; try done;
      unfold occurrences, first_added; simpl;
      rewrite !filter_cons, !filter_nil;
      repeat case_decide; simplify_eq; done.
  - destruct e as [identifier'|identifier'|n param]; try done;
      unfold occurrences, last_removed; simpl;
      rewrite !filter_cons, !filter_nil;
      repeat case_decide; simplify_eq; done.
Qed.

Lemma sent_not_connected (m : Client.manager) (c : option nat)
    (effects : list HandlerManager.effect) :
  sent (effects ≫= hook_log m c false) = [].
Proof.
  induction effects as [|e effects IH]; [done|].
  rewrite bind_cons, sent_app, IH, app_nil_r.
  by destruct e, m, c.
Qed.

(** X20. The peer is told which events the client listens to.  While
    the connection is open, a call of a method of the event handlers sends
    one [sub] packet for an identifier exactly when the identifier had no
    entry before the call and has one after it, and one [unsub] packet
    exactly when it had one and has none; while it is not open, the call
    sends nothing. *)
Theorem subscriptions_follow_entries (meth : method) (identifier : string)
    (s : Client.t) (c : nat) :
  Client.connection s = Some c →
  well_formed (Client.eventHandlers s) →
  let r := Client.on_manager Client.EventHandlers (run_method meth) s in
  occurrences (c, RotondeConnection.sendSubscribe identifier) (sent r.1.2)
  = (if Client.truthy (Client.isConnected s)
     then if bool_decide (entries (Client.eventHandlers s) identifier = []
                          ∧ entries (Client.eventHandlers r.1.1) identifier ≠ [])
          then 1 else 0
     else 0)%nat
  ∧ occurrences (c, RotondeConnection.sendUnsubscribe identifier) (sent r.1.2)
    = (if Client.truthy (Client.isConnected s)
       then if bool_decide (entries (Client.eventHandlers s) identifier ≠ []
                            ∧ entries (Client.eventHandlers r.1.1) identifier = [])
            then 1 else 0
       else 0)%nat.
Proof.
  intros Hc Hwf r. subst r. rewrite on_manager_explicit. simpl. rewrite Hc.
  destruct (run_method_transition meth (Client.eventHandlers s) Hwf)
    as (s' & log & Hrun & Ht).
  rewrite Hrun. simpl.
  destruct (transition_hooks _ s' log identifier Hwf Ht) as (_ & Hfirst & Hlast).
  destruct (Client.truthy (Client.isConnected s)).
  - destruct (occurrences_subscribe c identifier log) as [-> ->]. by rewrite Hfirst, Hlast.
  - by rewrite sent_not_connected.
Qed.

Lemma subscriptions_follow_entries_witness :
  occurrences (0%nat, RotondeConnection.sendSubscribe "e")
    (sent (Client.on_manager Client.EventHandlers (run_method (MAttach "e" 0 None))
             (Client.run [Client.Connect; Client.SocketOpen 0] Client.new).1).1.2)
  = 1%nat.
Proof.
  refine (proj1 (subscriptions_follow_entries (MAttach "e" 0 None) "e"
                   (Client.run [Client.Connect; Client.SocketOpen 0] Client.new).1 0
                   _ _)); [reflexivity|].
  split; [reflexivity|]. intros identifier. unfold HandlerManager.get.
  replace (HandlerManager.properties _) with (∅ : gmap string (option (list HandlerManager.entry)))
    by (vm_compute; reflexivity).
  by rewrite lookup_empty.
Defined.

(** ** Invariants of the client *)

Lemma set_store_same (stores : Client.Stores) (type : string) (d : DefinitionsStore.t) :
  Client.store stores type = Some d → Client.set_store stores type d = stores.
Proof.
  unfold Client.store, Client.set_store. destruct stores as [a e]. simpl.
  repeat case_bool_decide; intros [= <-]; done.
Qed.

Lemma set_localDefinitions_same (s : Client.t) :
  Client.set_localDefinitions s (Client.localDefinitions s) = s.
Proof. by destruct s. Qed.

Lemma set_remoteDefinitions_same (s : Client.t) :
  Client.set_remoteDefinitions s (Client.remoteDefinitions s) = s.
Proof. by destruct s. Qed.

Section ClientFrame.
Context (I : Client.t → Prop).

(** An invariant that is kept when a manager, the connection or the ready
    callbacks change, when a promise is made, gets a continuation or, being
    pending, is settled, and when a definition is added to a store, is
    kept by every call and event. *)
Hypothesis I_manager : ∀ s m h, I s → I (Client.set_manager s m h).
Hypothesis I_append : ∀ s c,
  I s → I (Client.set_composites s (Client.composites s ++ [c])).
Hypothesis I_then : ∀ s q k,
  I s →
  I (Client.set_composites s
       (alter (λ c, {| Client.source := Client.source c; Client.waits := Client.waits c;
                       Client.continuation := Some k;
                       Client.outcome := Client.outcome c |})
              q (Client.composites s))).
Hypothesis I_settle : ∀ s0 q c,
  I s0 → Client.composites s0 !! q = Some c → Client.outcome c = Promise.Pending →
  ∀ s c', I s → I (Client.set_composites s (<[q := c']> (Client.composites s))).
Hypothesis I_connection : ∀ s c cs, I s → I (Client.set_connection s c cs).
Hypothesis I_readyCallbacks : ∀ s callback,
  I s → I (Client.set_readyCallbacks s (Client.readyCallbacks s ++ [callback])).
Hypothesis I_local : ∀ s type d definition,
  I s → Client.store (Client.localDefinitions s) type = Some d →
  I (Client.set_localDefinitions s
       (Client.set_store (Client.localDefinitions s) type
          (DefinitionsStore.addDefinition d definition).1)).
Hypothesis I_remote : ∀ s type d definition,
  I s → Client.store (Client.remoteDefinitions s) type = Some d →
  I (Client.set_remoteDefinitions s
       (Client.set_store (Client.remoteDefinitions s) type
          (DefinitionsStore.addDefinition d definition).1)).

Lemma frame_send (packet : Packet) : preserves I (Client.send packet).
Proof. apply preserves_unchanged, send_unchanged. Qed.

Lemma frame_on_manager {A} (m : Client.manager) (r : HandlerManager.R A) :
  preserves I (Client.on_manager m r).
Proof. intros s Hs. rewrite on_manager_explicit. simpl. by apply I_manager. Qed.

Lemma frame_promises actions events timeout :
  preserves I (Client.promises actions events timeout).
Proof. unfold Client.promises. preserve; [apply frame_on_manager|apply frame_send]. Qed.

Lemma frame_requireDefinitions identifiers timeout :
  preserves I (Client.requireDefinitions identifiers timeout).
Proof.
  unfold Client.requireDefinitions, Client.promise_all.
  preserve; [apply frame_on_manager|by apply I_append].
Qed.

Lemma frame_set_composite (s0 : Client.t) (q : nat) (c c' : Client.Composite) :
  I s0 → Client.composites s0 !! q = Some c → Client.outcome c = Promise.Pending →
  preserves I (Client.set_composite q c').
Proof.
  intros Hs0 Hc Hpending. unfold Client.set_composite.
  apply preserves_read_then. intros s Hs. apply preserves_write.
  by apply (I_settle s0 q c).
Qed.

Lemma frame_settle_then (q : nat) : preserves I (Client.settle_then q).
Proof.
  unfold Client.settle_then.
  apply preserves_read_then. intros s Hs.
  destruct (Client.composites s !! q) as [c|] eqn:Hc; [|apply preserves_ret].
  destruct (Client.outcome c) eqn:Hpending; try apply preserves_ret.
  destruct (Client.continuation c) as [[[actions events] timeout]|];
    [|apply preserves_ret].
  destruct (Client.all_state _ _).
  - apply preserves_ret.
  - apply preserves_bind; [apply preserves_catch, frame_promises|].
    intros [e|eventPromises]; by apply (frame_set_composite s q c).
  - by apply (frame_set_composite s q c).
Qed.

Lemma frame_settle_all (q : nat) : preserves I (Client.settle_all q).
Proof.
  unfold Client.settle_all.
  apply preserves_read_then. intros s Hs.
  destruct (Client.composites s !! q) as [c|] eqn:Hc; [|apply preserves_ret].
  destruct (Client.outcome c) eqn:Hpending; try apply preserves_ret.
  destruct (Client.continuation c); [apply preserves_ret|].
  by apply (frame_set_composite s q c).
Qed.

Lemma frame_run_reactions : preserves I Client.run_reactions.
Proof.
  unfold Client.run_reactions.
  preserve; [apply frame_settle_then|apply frame_settle_all].
Qed.

Lemma frame_handler (i : Client.input) : preserves I (Client.handler i).
Proof.
  destruct i; simpl.
  - unfold Client.connect. preserve. by apply I_connection.
  - unfold Client.onReady. preserve. by apply I_readyCallbacks.
  - unfold Client.addLocalDefinition.
    apply preserves_read_then. intros s Hs.
    destruct (Client.store (Client.localDefinitions s) type0) as [d|] eqn:Hst;
      [|apply preserves_throw].
    destruct (DefinitionsStore.addDefinition d _) as [d' definition'] eqn:Hadd.
    apply preserves_bind.
    + apply preserves_write.
      replace d' with (DefinitionsStore.addDefinition d
                         {| identifier := identifier0; type := type0; fields := fields0 |}).1
        by (by rewrite Hadd).
      by apply I_local.
    + intros _. preserve. apply frame_send.
  - unfold Client.removeLocalDefinition.
    apply preserves_read_then. intros s Hs.
    destruct (Client.store (Client.localDefinitions s) type0) as [d|] eqn:Hst;
      [|apply preserves_throw].
    destruct (DefinitionsStore.getDefinition d identifier0); [|apply preserves_ret].
    rewrite removeDefinition_noop, set_store_same, set_localDefinitions_same by done.
    preserve; [done|apply frame_send].
  - apply frame_send.
  - apply frame_send.
  - apply frame_on_manager.
  - apply frame_on_manager.
  - apply frame_on_manager.
  - apply frame_on_manager.
  - apply frame_on_manager.
  - preserve. apply frame_on_manager.
  - preserve. apply frame_requireDefinitions.
  - unfold Client.bootstrap, Client.then_, Client.promise_all.
    preserve; try (by apply I_append); try (by apply I_then);
      [apply frame_requireDefinitions|apply frame_promises].
  - unfold Client.onopen, Client.ready.
    preserve; try (by apply I_connection); apply frame_send.
  - apply preserves_read_then. intros s0 Hs0.
    destruct (Client.connection s0); [|apply preserves_ret].
    unfold Client.handleMessage. destruct data as [packet|]; [|apply preserves_throw].
    apply preserves_read_then. intros s Hs.
    destruct (Client.connection s); [|apply preserves_throw].
    case_bool_decide; [apply frame_on_manager|].
    case_bool_decide; [apply frame_on_manager|].
    case_bool_decide.
    { destruct (packet_payload packet) as [| definition |]; try apply preserves_throw.
      destruct (Client.store (Client.remoteDefinitions s) (type definition))
        as [d|] eqn:Hst; [|apply preserves_throw].
      destruct (DefinitionsStore.addDefinition d definition)
        as [d' definition'] eqn:Hadd.
      assert (type definition' = type definition) as Hty
        by (by rewrite <- (addDefinition_type d definition), Hadd).
      apply preserves_bind.
      - apply preserves_write. rewrite Hty.
        replace d' with (DefinitionsStore.addDefinition d definition).1
          by (by rewrite Hadd).
        by apply I_remote.
      - intros _. preserve; (apply frame_on_manager || apply frame_send). }
    case_bool_decide; [|apply preserves_ret].
    destruct (packet_payload packet) as [| unDefinition |]; try apply preserves_throw.
    destruct (Client.store (Client.remoteDefinitions s) (type unDefinition))
      as [d|] eqn:Hst; [|apply preserves_throw].
    rewrite removeDefinition_noop, set_store_same, set_remoteDefinitions_same by done.
    preserve; [done|apply frame_on_manager].
  - apply frame_on_manager.
Qed.

Lemma frame_run (inputs : list Client.input) (s : Client.t) :
  I s → I (Client.run inputs s).1.
Proof.
  revert s. induction inputs as [|i inputs IH]; intros s Hs; simpl; [done|].
  pose proof (preserves_and_then I _ _ (frame_handler i) frame_run_reactions s Hs) as Ht.
  unfold Client.task. destruct (and_then _ _ s) as [[s1 log1] r1]. simpl in Ht.
  specialize (IH s1 Ht). by destruct (Client.run inputs s1) as [s2 log2].
Qed.

End ClientFrame.

Lemma run_app (inputs1 inputs2 : list Client.input) (s : Client.t) :
  (Client.run (inputs1 ++ inputs2) s).1 = (Client.run inputs2 (Client.run inputs1 s).1).1.
Proof.
  revert s. induction inputs1 as [|i inputs1 IH]; intros s; simpl; [done|].
  destruct (Client.task i s) as [[s1 log1] r1]. specialize (IH s1).
  destruct (Client.run (inputs1 ++ inputs2) s1) as [s2 log2].
  destruct (Client.run inputs1 s1) as [s3 log3]. simpl in *.
  by destruct (Client.run inputs2 s3).
Qed.

(** X21. The ready callbacks are never dropped: whatever is called and
    whatever the sockets and timers do, the callbacks queued so far stay
    queued, in their order, before those queued later. *)
Theorem readyCallbacks_only_grow (inputs : list Client.input) (s : Client.t) :
  Client.readyCallbacks s `prefix_of` Client.readyCallbacks (Client.run inputs s).1.
Proof.
  apply (frame_run (λ s', Client.readyCallbacks s `prefix_of` Client.readyCallbacks s'));
    try done.
  intros s' callback Hs'. simpl. by apply prefix_app_r.
Qed.

Lemma stores_ok_set_store (stores : Client.Stores) (type : string)
    (d : DefinitionsStore.t) :
  stores_ok stores → one_per_identifier d → stores_ok (Client.set_store stores type d).
Proof.
  intros [Ha He] Hd. unfold Client.set_store.
  repeat case_bool_decide; by split.
Qed.

Lemma store_ok (stores : Client.Stores) (type : string) (d : DefinitionsStore.t) :
  stores_ok stores → Client.store stores type = Some d → one_per_identifier d.
Proof.
  intros [Ha He]. unfold Client.store.
  repeat case_bool_decide; intros [= <-]; done.
Qed.

(** Every store of the client holds one definition per identifier, in
    every state the client reaches. *)
Lemma definitions_ok_run (inputs : list Client.input) (s : Client.t) :
  definitions_ok s → definitions_ok (Client.run inputs s).1.
Proof.
  apply (frame_run definitions_ok); try done.
  - intros s' type d definition [Hl Hr] Hst. split; [|done]. simpl.
    apply stores_ok_set_store; [done|].
    apply one_per_identifier_addDefinition. by apply (store_ok _ _ _ Hl Hst).
  - intros s' type d definition [Hl Hr] Hst. split; [done|]. simpl.
    apply stores_ok_set_store; [done|].
    apply one_per_identifier_addDefinition. by apply (store_ok _ _ _ Hr Hst).
Qed.

Lemma definitions_ok_new : definitions_ok Client.new.
Proof. repeat split; apply one_per_identifier_new. Qed.

Lemma known_stores (s : Client.t) (identifier : string) :
  known s identifier
  ↔ is_Some (DefinitionsStore.getDefinition
               (Client.action (Client.remoteDefinitions s)) identifier)
    ∨ is_Some (DefinitionsStore.getDefinition
                 (Client.event (Client.remoteDefinitions s)) identifier).
Proof.
  unfold known, Client.searchDefinitions, Lodash.compact. simpl.
  destruct (DefinitionsStore.getDefinition (Client.action _) identifier),
    (DefinitionsStore.getDefinition (Client.event _) identifier); simpl;
    split; try done; intros [[? [=]]|[? [=]]] || (intros _; eauto).
Qed.

Lemma addDefinition_keeps (d : DefinitionsStore.t) (definition : Definition_)
    (identifier : string) :
  one_per_identifier d →
  is_Some (DefinitionsStore.getDefinition d identifier) →
  is_Some (DefinitionsStore.getDefinition
             (DefinitionsStore.addDefinition d definition).1 identifier).
Proof.
  intros Hd Hid.
  apply getDefinition_is_Some; [by apply one_per_identifier_addDefinition|].
  apply (identifiers_run_store_calls [AddDefinition definition] d); [done|].
  by apply getDefinition_is_Some.
Qed.

Lemma known_run (inputs : list Client.input) (s : Client.t) (identifier : string) :
  definitions_ok s → known s identifier → known (Client.run inputs s).1 identifier.
Proof.
  intros Hok Hk.
  apply (frame_run (λ s', definitions_ok s' ∧ known s' identifier)); try done.
  - intros s' type d definition [[Hl Hr] Hk'] Hst. split; [|done]. split; [|done].
    simpl. apply stores_ok_set_store; [done|].
    apply one_per_identifier_addDefinition. by apply (store_ok _ _ _ Hl Hst).
  - intros s' type d definition [[Hl Hr] Hk'] Hst.
    pose proof (store_ok _ _ _ Hr Hst) as Hd.
    split.
    + split; [done|]. simpl. apply stores_ok_set_store; [done|].
      by apply one_per_identifier_addDefinition.
    + apply known_stores. apply known_stores in Hk'. simpl.
      unfold Client.store in Hst. unfold Client.set_store.
      repeat case_bool_decide; try done; injection Hst as <-; simpl;
        destruct Hk' as [Hk'|Hk']; auto using addDefinition_keeps.
Qed.

Lemma known_not_missing (s : Client.t) (identifier : string)
    (actions : list (string * string)) (events defs : list string) :
  known s identifier → identifier ∉ Client.missingDefs s actions events defs.
Proof.
  unfold known, Client.missingDefs, Lodash.uniq. intros Hk Hin.
  apply elem_of_uniq_seen in Hin as [Hin _].
  apply list_elem_of_In, filter_In in Hin as [_ Hlen].
  apply bool_decide_eq_true_1 in Hlen. by apply length_zero_iff_nil in Hlen.
Qed.

(** X22. What the peer has defined stays defined: once a definition of
    an identifier has come, as an action or as an event, the client holds
    one in every later state, also after an [undef] packet for it, and no
    later [bootstrap] waits for a definition of that identifier. *)
Theorem remote_definitions_never_forgotten (before after : list Client.input)
    (identifier : string) (actions : list (string * string))
    (events defs : list string) :
  known (Client.run before Client.new).1 identifier →
  known (Client.run (before ++ after) Client.new).1 identifier
  ∧ identifier
    ∉ Client.missingDefs (Client.run (before ++ after) Client.new).1 actions events defs.
Proof.
  intros Hk.
  assert (known (Client.run (before ++ after) Client.new).1 identifier) as Hk'.
  { rewrite run_app. apply known_run; [|done].
    apply definitions_ok_run, definitions_ok_new. }
  split; [done|]. by apply known_not_missing.
Qed.

Lemma remote_definitions_never_forgotten_witness :
  known
    (Client.run
       ([Client.Connect; Client.SocketOpen 0;
         Client.SocketMessage (Some (def_packet "A" "action"))]
        ++ [Client.SocketMessage
              (Some (RotondeConnection.sendUnDefinition
                       {| identifier := "A"; type := "action"; fields := [] |}))])
       Client.new).1 "A".
Proof.
  refine (proj1 (remote_definitions_never_forgotten
                   [Client.Connect; Client.SocketOpen 0;
                    Client.SocketMessage (Some (def_packet "A" "action"))]
                   [Client.SocketMessage
                      (Some (RotondeConnection.sendUnDefinition
                               {| identifier := "A"; type := "action"; fields := [] |}))]
                   "A" [] [] [] _)).
  unfold known. vm_compute. discriminate.
Defined.

(** ** Definitions on the client *)

Lemma store_set_store (stores : Client.Stores) (ty : string) (d : DefinitionsStore.t) :
  ty = "action" ∨ ty = "event" →
  Client.store (Client.set_store stores ty d) ty = Some d.
Proof.
  unfold Client.store, Client.set_store.
  intros [->| ->]; by repeat case_bool_decide.
Qed.

Lemma store_is_Some (stores : Client.Stores) (ty : string) :
  ty = "action" ∨ ty = "event" → is_Some (Client.store stores ty).
Proof. unfold Client.store. intros [->| ->]; by repeat case_bool_decide. Qed.

Lemma store_None (stores : Client.Stores) (ty : string) :
  ty ≠ "action" → ty ≠ "event" → Client.store stores ty = None.
Proof. unfold Client.store. intros ? ?. by repeat case_bool_decide. Qed.

(** The packet [packet] as the client sends it when it checks
    [isConnected()] first. *)
Lemma send_if_connected (packet : Packet) (s s' : Client.t) :
  Client.connection s' = Client.connection s →
  (if Client.truthy (Client.isConnected s) then Client.send packet else ret tt) s'
  = (s',
     match Client.connection s with
     | Some c => if Client.truthy (Client.isConnected s) then [Client.Sent c packet] else []
     | None => []
     end,
     Normal tt).
Proof.
  intros Hc. unfold Client.isConnected.
  destruct (Client.connection s) as [c|] eqn:Hs; simpl; [|done].
  destruct (default false _); [|done].
  unfold Client.send, bind, read. simpl. by rewrite Hc.
Qed.



(** X24. A type other than [action] and [event] names no store: with
    such a type, [addLocalDefinition], [removeLocalDefinition],
    [getLocalDefinition] and [getRemoteDefinition] throw a [TypeError], and
    so does [handleMessage] for a [def] or an [undef] packet whose
    definition has that type; nothing is stored, sent or called. *)
Theorem unknown_type_throws (s : Client.t) (c : nat) (ty id : string)
    (fs : list Field) :
  ty ≠ "action" → ty ≠ "event" →
  Client.connection s = Some c →
  Client.addLocalDefinition ty id fs s = (s, [], Throw TypeError)
  ∧ Client.removeLocalDefinition ty id s = (s, [], Throw TypeError)
  ∧ Client.getLocalDefinition s ty id = Throw TypeError
  ∧ Client.getRemoteDefinition s ty id = Throw TypeError
  ∧ Client.handleMessage
      (Some (RotondeConnection.sendDefinition
               {| identifier := id; type := ty; fields := fs |})) s
    = (s, [], Throw TypeError)
  ∧ Client.handleMessage
      (Some (RotondeConnection.sendUnDefinition
               {| identifier := id; type := ty; fields := fs |})) s
    = (s, [], Throw TypeError).
Proof.
  intros Ha He Hc.
  unfold Client.addLocalDefinition, Client.removeLocalDefinition,
    Client.getLocalDefinition, Client.getRemoteDefinition, Client.handleMessage,
    bind, read.
  simpl. rewrite Hc. by rewrite !store_None by done.
Qed.

Lemma unknown_type_throws_witness :
  Client.handleMessage
    (Some (RotondeConnection.sendDefinition
             {| identifier := "a"; type := "state"; fields := [] |}))
    (Client.run [Client.Connect; Client.SocketOpen 0] Client.new).1
  = ((Client.run [Client.Connect; Client.SocketOpen 0] Client.new).1, [],
     Throw TypeError).
Proof.
  refine (proj1 (proj2 (proj2 (proj2 (proj2
    (unknown_type_throws (Client.run [Client.Connect; Client.SocketOpen 0] Client.new).1
       0 "state" "a" [] _ _ _)))))); [discriminate|discriminate|reflexivity].
Defined.

(** X25. [removeLocalDefinition] of a definition the client holds tells
    the peer, if the connection is open, with one [undef] packet that
    carries the definition, and leaves the client as it was: the
    definition stays in the local store, where [getLocalDefinition] still
    finds it. *)
Theorem removeLocalDefinition_announces_only (s : Client.t) (ty id : string)
    (definition : Definition_) :
  Client.getLocalDefinition s ty id = Normal (Some definition) →
  Client.removeLocalDefinition ty id s
  = (s,
     match Client.connection s with
     | Some c =>
         if Client.truthy (Client.isConnected s)
         then [Client.Sent c (RotondeConnection.sendUnDefinition definition)] else []
     | None => []
     end,
     Normal tt).
Proof.
  unfold Client.getLocalDefinition, Client.removeLocalDefinition.
  intros Hget. unfold bind at 1. unfold read. cbn beta iota.
  destruct (Client.store (Client.localDefinitions s) ty) as [d|] eqn:Hst; [|done].
  injection Hget as ->.
  rewrite removeDefinition_noop, set_store_same, set_localDefinitions_same by done.
  rewrite (bind_normal _ _ s s [] tt) by reflexivity.
  by rewrite send_if_connected.
Qed.

Lemma removeLocalDefinition_announces_only_witness :
  Client.removeLocalDefinition "action" "a"
    (Client.run [Client.Connect; Client.SocketOpen 0;
                 Client.AddLocalDefinition "action" "a" []] Client.new).1
  = ((Client.run [Client.Connect; Client.SocketOpen 0;
                  Client.AddLocalDefinition "action" "a" []] Client.new).1,
     [Client.Sent 0 (RotondeConnection.sendUnDefinition
                       {| identifier := "a"; type := "action"; fields := [] |})],
     Normal tt).
Proof.
  apply (removeLocalDefinition_announces_only
           (Client.run [Client.Connect; Client.SocketOpen 0;
                        Client.AddLocalDefinition "action" "a" []] Client.new).1
           "action" "a" {| identifier := "a"; type := "action"; fields := [] |}).
  reflexivity.
Defined.

(** What [callHandlers] logs: perhaps the last hook, and calls with
    [param]; it returns without an exception. *)
Lemma callHandlers_effects (identifier : string) (param : Payload)
    (s : HandlerManager.t) :
  (HandlerManager.callHandlers identifier param s).2 = Normal tt
  ∧ ∀ e, e ∈ (HandlerManager.callHandlers identifier param s).1.2 →
         e = HandlerManager.LastRemoved identifier
         ∨ ∃ n, e = HandlerManager.Called n param.
Proof.
  destruct (decide (entries s identifier = [])) as [Hnil|Hne].
  - rewrite callHandlers_no_entries by done. simpl. split; [done|].
    by intros e ?%elem_of_nil.
  - unfold entries in *.
    destruct (HandlerManager.get s identifier) as [h|] eqn:Hh; [|done]. simpl in *.
    rewrite (callHandlers_explicit identifier param s h) by done. simpl.
    split; [done|]. intros e [He|He]%elem_of_app.
    + left. case_bool_decide; [|by apply elem_of_nil in He].
      by apply list_elem_of_singleton in He.
    + right. unfold call_effects in He.
      apply list_elem_of_fmap in He as (n & -> & _). by exists n.
Qed.

(** The [sub] packet [handleMessage] sends after a definition of an
    event. *)
Lemma subscribe_if_registered (identifier : string) (s : Client.t) (c : nat) :
  Client.connection s = Some c →
  (let* s1 := read in
   if bool_decide (identifier
                   ∈ HandlerManager.registeredIdentifiers (Client.eventHandlers s1))
   then Client.send (RotondeConnection.sendSubscribe identifier)
   else ret tt)%comp s
  = (s,
     if bool_decide (identifier
                     ∈ HandlerManager.registeredIdentifiers (Client.eventHandlers s))
     then [Client.Sent c (RotondeConnection.sendSubscribe identifier)] else [],
     Normal tt).
Proof.
  intros Hc. unfold bind at 1. unfold read. cbn beta iota.
  case_bool_decide; [|done].
  unfold Client.send, bind, read. by rewrite Hc.
Qed.



(** ** [bootstrap] when nothing is missing *)

Lemma for_each_actions (actions : list (string * string)) (s : Client.t) (c : nat) :
  Client.connection s = Some c →
  for_each actions (λ '(identifier, action),
    Client.send (RotondeConnection.sendAction identifier action)) s
  = (s,
     (λ '(identifier, action),
        Client.Sent c (RotondeConnection.sendAction identifier action)) <$> actions,
     Normal tt).
Proof.
  intros Hc. induction actions as [|[identifier action] actions IH]; [done|].
  cbn [for_each fmap list_fmap].
  assert (Client.send (RotondeConnection.sendAction identifier action) s
          = (s, [Client.Sent c (RotondeConnection.sendAction identifier action)],
             Normal tt)) as Hsend
    by (unfold Client.send, bind, read; by rewrite Hc).
  rewrite (bind_normal _ _ _ _ _ _ Hsend). by rewrite IH.
Qed.

(** The promises [bootstrap] makes for the events it awaits: what is
    sent are [sub] packets for awaited events. *)
Lemma map_each_event_promises (events : list string) (timeout : option Z)
    (s : Client.t) (c : nat) :
  Client.connection s = Some c →
  ∃ s1 subs ps,
    map_each events (λ identifier,
      Client.on_manager Client.EventHandlers
        (HandlerManager.makePromise identifier timeout)) s
    = (s1, subs, Normal ps)
    ∧ Client.connection s1 = Some c
    ∧ Client.composites s1 = Client.composites s
    ∧ length ps = length events
    ∧ Forall (λ e, ∃ identifier,
                identifier ∈ events
                ∧ e = Client.Sent c (RotondeConnection.sendSubscribe identifier)) subs.
Proof.
  revert s. induction events as [|identifier events IH]; intros s Hc.
  - exists s, [], []. by repeat split.
  - cbn [map_each].
    pose proof (on_manager_explicit Client.EventHandlers
                  (HandlerManager.makePromise identifier timeout) s) as Hon.
    rewrite makePromise_explicit in Hon. cbn [fst snd] in Hon. rewrite Hc in Hon.
    match type of Hon with
    | _ = (?s1, ?log1, _) =>
        destruct (IH s1) as (s2 & subs & ps & Hrest & Hc2 & Hcomp & Hlen & Hsubs);
          [done|]; set (first := log1) in *
    end.
    rewrite (bind_normal _ _ _ _ _ _ Hon).
    rewrite (bind_normal _ _ _ _ _ _ Hrest).
    eexists s2, (first ++ subs ++ []), _.
    split; [reflexivity|]. split; [done|]. split; [done|].
    split; [simpl; by rewrite Hlen|].
    rewrite app_nil_r. apply Forall_app. split.
    + unfold first.
      destruct (HandlerManager.get (Client.manager_of s Client.EventHandlers) identifier),
        (Client.truthy (Client.isConnected s)); simpl; try by constructor.
      constructor; [|constructor]. exists identifier. split; [by left|done].
    + eapply Forall_impl; [done|]. intros e (identifier' & Hin & ->).
      exists identifier'. split; [by right|done].
Qed.



(** ** The identifiers a manager lists *)

Lemma elem_of_registeredIdentifiers (s : HandlerManager.t) (identifier : string) :
  identifier ∈ HandlerManager.registeredIdentifiers s
  ↔ is_Some (HandlerManager.properties s !! identifier).
Proof.
  unfold HandlerManager.registeredIdentifiers. rewrite list_elem_of_fmap. split.
  - intros ([k v] & -> & Hin). apply elem_of_map_to_list in Hin. by exists v.
  - intros [v Hv]. exists (identifier, v). split; [done|].
    by apply elem_of_map_to_list.
Qed.

Lemma keys_insert (properties : gmap string (option (list HandlerManager.entry)))
    (identifier identifier' : string) (v : option (list HandlerManager.entry)) :
  is_Some (<[identifier := v]> properties !! identifier')
  ↔ identifier' = identifier ∨ is_Some (properties !! identifier').
Proof.
  destruct (decide (identifier = identifier')) as [->|Hne].
  - rewrite lookup_insert_eq. naive_solver.
  - rewrite lookup_insert_ne by done. naive_solver.
Qed.

Lemma keys_detach (identifier identifier' : string) (callback : Callback)
    (s : HandlerManager.t) :
  HandlerManager.get s identifier ≠ Some [] →
  is_Some (HandlerManager.properties
             (HandlerManager.detach identifier callback s).1.1 !! identifier')
  ↔ is_Some (HandlerManager.properties s !! identifier').
Proof.
  intros Hne.
  unfold HandlerManager.detach, HandlerManager.property.
  unfold bind at 1. unfold bind at 1. unfold read, ret. cbn beta iota.
  destruct (HandlerManager.get s identifier) as [h|] eqn:Hh; [|done].
  cbn beta iota.
  destruct (detach_loop_hooks (S (length h)) identifier callback 0 h s)
    as (s' & log & h' & -> & _ & _ & Hp & _); [congruence|done|lia|].
  simpl. rewrite Hp, keys_insert. apply get_Some_lookup in Hh.
  split; [|by right]. intros [->|?]; [by rewrite Hh|done].
Qed.

(** The keys of [handlers] after a call: those it had, and the identifier
    the call registers an entry for. *)
Lemma keys_run_method (m : method) (s : HandlerManager.t) (identifier' : string) :
  well_formed s →
  is_Some (HandlerManager.properties (run_method m s).1.1 !! identifier')
  ↔ registers m = Some identifier'
    ∨ is_Some (HandlerManager.properties s !! identifier').
Proof.
  intros [Hkeys Hwf].
  assert (Hattach : ∀ identifier callback callCount,
            is_Some (HandlerManager.properties
                       (HandlerManager.attach identifier callback callCount s).1.1
                     !! identifier')
            ↔ Some identifier = Some identifier'
              ∨ is_Some (HandlerManager.properties s !! identifier')).
  { intros identifier callback callCount. rewrite attach_explicit.
    destruct (HandlerManager.get s identifier); simpl; rewrite !keys_insert;
      naive_solver. }
  destruct m as [identifier callback callCount|identifier callback|identifier callback|
                 |identifier param|identifier timeout|p]; simpl.
  - apply Hattach.
  - apply Hattach.
  - rewrite keys_detach by done. naive_solver.
  - rewrite detachAll_noop by done. naive_solver.
  - destruct (decide (entries s identifier = [])) as [Hnil|Hne].
    + rewrite callHandlers_no_entries by done. naive_solver.
    + unfold entries in Hne.
      destruct (HandlerManager.get s identifier) as [h|] eqn:Hh; [|done]. simpl in Hne.
      rewrite (callHandlers_explicit identifier param s h) by done. simpl.
      rewrite keys_insert. apply get_Some_lookup in Hh.
      split; [|naive_solver]. intros [->|?]; right; [by rewrite Hh|done].
  - unfold bind at 1. rewrite makePromise_explicit. simpl. rewrite keys_insert.
    naive_solver.
  - unfold HandlerManager.timeout_elapses, HandlerManager.on_timeout.
    unfold bind at 1. unfold read. cbn beta iota.
    destruct (HandlerManager.promises s !! p) as [c|]; [|naive_solver].
    destruct (timer c); try naive_solver.
    rewrite (bind_normal _ _ s _ [] tt) by reflexivity. unfold bind.
    match goal with
    | |- context [HandlerManager.detach ?id ?cb ?s1] =>
        pose proof (keys_detach id identifier' cb s1 (Hwf id)) as Hd;
        destruct (HandlerManager.detach id cb s1) as [[s2 log2] r2]
    end.
    simpl in Hd. destruct r2; simpl; naive_solver.
Qed.


(** ** [bootstrap] when one definition is missing *)

Lemma task_explicit (i : Client.input) (s s1 s2 : Client.t)
    (log1 log2 : list Client.Event) (r : completion unit) :
  Client.handler i s = (s1, log1, r) →
  Client.run_reactions s1 = (s2, log2, Normal tt) →
  Client.task i s = (s2, log1 ++ log2, r).
Proof. intros Hh Hr. unfold Client.task, and_then. by rewrite Hh, Hr. Qed.

(** The reactions of a client with one promise. *)
Lemma run_reactions_one (s : Client.t) (c0 : Client.Composite) :
  Client.composites s = [c0] →
  Client.run_reactions s
  = ((Client.settle_then 0 >> Client.settle_all 0) >> ret tt)%comp s.
Proof.
  intros Hc. unfold Client.run_reactions. unfold bind at 1. unfold read.
  cbn beta iota. rewrite Hc. cbn [length seq for_each].
  match goal with
  | |- (let (p, r) := ?x in _) = _ => by destruct x as [[? ?] ?]
  end.
Qed.

Lemma bootstrap_awaits (s : Client.t) (c : nat) (actions : list (string * string))
    (events defs : list string) (timeout : option Z) (identifier : string) :
  Client.connection s = Some c →
  Client.composites s = [] →
  entries (Client.definitionHandlers s) identifier = [] →
  Client.missingDefs s actions events defs = [identifier] →
  ∃ s1,
    Client.task (Client.Bootstrap actions events defs timeout) s = (s1, [], Normal tt)
    ∧ awaits_definition c (length (HandlerManager.promises (Client.definitionHandlers s)))
        identifier (actions, events, timeout) s1
    ∧ Client.eventHandlers s1 = Client.eventHandlers s.
Proof.
  intros Hc Hcomp Hent Hmissing.
  set (p := length (HandlerManager.promises (Client.definitionHandlers s))).
  pose proof (on_manager_explicit Client.DefinitionHandlers
                (HandlerManager.makePromise identifier timeout) s) as Hon.
  rewrite makePromise_explicit in Hon. cbn [fst snd] in Hon.
  change (Client.manager_of s Client.DefinitionHandlers)
    with (Client.definitionHandlers s) in Hon.
  rewrite Hent in Hon. fold p in Hon.
  match type of Hon with
  | _ = (?sA0, ?logA, _) =>
      set (sA := sA0) in *;
      assert (logA = []) as HlogA
        by (by destruct (HandlerManager.get (Client.definitionHandlers s) identifier));
      rewrite HlogA in Hon
  end.
  set (k := (actions, events, timeout)).
  set (s1 := Client.set_composites sA
               [{| Client.source := Client.DefinitionHandlers; Client.waits := [p];
                   Client.continuation := Some k; Client.outcome := Promise.Pending |}]).
  assert (Hhandler : Client.handler (Client.Bootstrap actions events defs timeout) s
                     = (s1, [], Normal tt)).
  { simpl. unfold Client.bootstrap. unfold bind at 1. unfold bind at 1. unfold read.
    cbn beta iota. rewrite Hmissing.
    rewrite bool_decide_eq_true_2 by done.
    unfold Client.requireDefinitions. cbn [map_each].
    unfold bind at 1. unfold bind at 1. unfold bind at 1. rewrite Hon.
    unfold Client.promise_all, Client.then_, bind, read, write, ret. simpl.
    by rewrite Hcomp. }
  exists s1. split; [|split; [|done]].
  - rewrite (task_explicit _ s s1 s1 [] [] (Normal tt) Hhandler); [done|].
    rewrite (run_reactions_one s1 _ eq_refl).
    unfold Client.settle_then, Client.settle_all, Client.all_state, bind, read, ret.
    simpl. rewrite lookup_app_r by done. fold p. by rewrite Nat.sub_diag.
  - split; [done|]. split; [done|]. split.
    + unfold HandlerManager.get. simpl. by rewrite lookup_insert_eq.
    + simpl. rewrite lookup_app_r by done. fold p. by rewrite Nat.sub_diag.
Qed.

(** The [def] packet for the awaited definition comes: the promise of the
    definition handlers is fulfilled, and nothing but a [sub] packet is
    sent. *)
Lemma definition_arrives (s : Client.t) (c p : nat)
    (k : list (string * string) * list string * option Z) (definition : Definition_) :
  awaits_definition c p (identifier definition) k s →
  type definition = "action" ∨ type definition = "event" →
  ∃ s2 log cell,
    Client.handler
      (Client.SocketMessage (Some (RotondeConnection.sendDefinition definition))) s
    = (s2, log, Normal tt)
    ∧ Forall (λ e, ∃ identifier',
                e = Client.Sent c (RotondeConnection.sendSubscribe identifier')) log
    ∧ Client.connection s2 = Some c
    ∧ Client.composites s2 = Client.composites s
    ∧ HandlerManager.promises (Client.definitionHandlers s2) !! p = Some cell
    ∧ ∃ v, settled cell = Promise.Fulfilled v.
Proof.
  intros (Hc & Hcomp & Hget & Hcell) Hty.
  destruct (store_is_Some (Client.remoteDefinitions s) (type definition) Hty)
    as [d Hst].
  set (stored := (DefinitionsStore.addDefinition d definition).2).
  set (d' := (DefinitionsStore.addDefinition d definition).1).
  assert (Hid : identifier stored = identifier definition)
    by apply addDefinition_identifier.
  assert (Htype : type stored = type definition) by apply addDefinition_type.
  set (s1 := Client.set_remoteDefinitions s
               (Client.set_store (Client.remoteDefinitions s) (type definition) d')).
  assert (Hget1 : HandlerManager.get (Client.definitionHandlers s1) (identifier stored)
                  = Some [(PromiseFn p, 1)]) by (by rewrite Hid).
  pose proof (callHandlers_explicit (identifier stored) (Def stored)
                (Client.definitionHandlers s1) [(PromiseFn p, 1)]
                ltac:(done) Hget1) as Hrun.
  unfold remaining, called in Hrun. cbn [remaining_skip called_skip Z.eqb Pos.eqb] in Hrun.
  rewrite bool_decide_eq_true_2 in Hrun by done.
  match type of Hrun with
  | _ = (?h0, _, _) => set (h2 := h0) in *
  end.
  set (s2 := Client.set_manager s1 Client.DefinitionHandlers h2).
  set (log3 := if bool_decide (type definition = "event")
               then if bool_decide (identifier stored
                                    ∈ HandlerManager.registeredIdentifiers
                                        (Client.eventHandlers s2))
                    then [Client.Sent c (RotondeConnection.sendSubscribe
                                           (identifier stored))]
                    else []
               else []).
  exists s2, log3, (fulfil (Def stored)
                      {| settled := Promise.Pending;
                         timer := if truthy_timeout k.2 then Armed else NotSet;
                         awaited := identifier definition |}).
  split; [|split; [|split; [done|split; [done|split; [|by eexists]]]]].
  - simpl. unfold bind at 1. unfold read. cbn beta iota. rewrite Hc.
    unfold Client.handleMessage. unfold bind at 1. unfold read. cbn beta iota.
    rewrite Hc. simpl. rewrite Hst. fold d' stored.
    replace (DefinitionsStore.addDefinition d definition) with (d', stored)
      by (unfold d', stored; by destruct (DefinitionsStore.addDefinition d definition)).
    rewrite Htype. fold s1.
    rewrite (bind_normal _ _ s s1 [] tt) by reflexivity.
    assert (Hon : Client.on_manager Client.DefinitionHandlers
                    (HandlerManager.callHandlers (identifier stored) (Def stored)) s1
                  = (s2, [], Normal tt)).
    { rewrite on_manager_explicit.
      change (Client.manager_of s1 Client.DefinitionHandlers)
        with (Client.definitionHandlers s1).
      by rewrite Hrun. }
    rewrite (bind_normal _ _ _ _ _ _ Hon).
    unfold log3. case_bool_decide; [|done].
    by rewrite (subscribe_if_registered _ s2 c) by done.
  - unfold log3. repeat case_bool_decide; repeat constructor. by eexists.
  - unfold s2, h2. simpl. by rewrite list_lookup_alter_eq, Hcell.
Qed.

(** The reactions once the awaited definition has come: the continuation
    of [bootstrap] runs, and sends the actions. *)
Lemma continuation_runs (s : Client.t) (c p : nat) (actions : list (string * string))
    (events : list string) (timeout : option Z) (cell : Cell) (v : Payload) :
  Client.connection s = Some c →
  Client.composites s
  = [{| Client.source := Client.DefinitionHandlers; Client.waits := [p];
        Client.continuation := Some (actions, events, timeout);
        Client.outcome := Promise.Pending |}] →
  HandlerManager.promises (Client.definitionHandlers s) !! p = Some cell →
  settled cell = Promise.Fulfilled v →
  ∃ s' subs waits,
    Client.run_reactions s
    = (s',
       subs ++ ((λ '(identifier, action),
                   Client.Sent c (RotondeConnection.sendAction identifier action))
                  <$> actions),
       Normal tt)
    ∧ Forall (λ e, ∃ identifier',
                e = Client.Sent c (RotondeConnection.sendSubscribe identifier')) subs
    ∧ Client.composites s'
      = [{| Client.source := Client.EventHandlers; Client.waits := waits;
            Client.continuation := None;
            Client.outcome :=
              Client.all_state (HandlerManager.promises (Client.eventHandlers s')) waits |}]
    ∧ length waits = length events.
Proof.
  intros Hc Hcomp Hcell Hv.
  destruct (map_each_event_promises events timeout s c Hc)
    as (s1 & subs & ps & Hmap & Hc1 & Hcomp1 & Hlen & Hsubs).
  assert (Hp : Client.promises actions events timeout s
               = (s1, subs ++ (((λ '(identifier, action),
                                   Client.Sent c (RotondeConnection.sendAction
                                                    identifier action)) <$> actions)
                               ++ []),
                  Normal ps)).
  { unfold Client.promises. rewrite (bind_normal _ _ _ _ _ _ Hmap).
    by rewrite (bind_normal _ _ _ _ _ _ (for_each_actions actions s1 c Hc1)). }
  set (waiting := {| Client.source := Client.EventHandlers; Client.waits := ps;
                     Client.continuation := None; Client.outcome := Promise.Pending |}).
  set (s2 := Client.set_composites s1 [waiting]).
  assert (Hthen : Client.settle_then 0 s
                  = (s2, subs ++ ((λ '(identifier, action),
                                     Client.Sent c (RotondeConnection.sendAction
                                                      identifier action)) <$> actions),
                     Normal tt)).
  { unfold Client.settle_then. unfold bind at 1. unfold read. cbn beta iota.
    rewrite Hcomp. simpl. rewrite Hcell. simpl. rewrite Hv.
    unfold bind at 1. unfold catch. rewrite Hp.
    unfold Client.set_composite, bind, read, write. simpl.
    rewrite Hcomp1, Hcomp. simpl. by rewrite !app_nil_r. }
  set (s3 := Client.set_composites s2
               [{| Client.source := Client.EventHandlers; Client.waits := ps;
                   Client.continuation := None;
                   Client.outcome :=
                     Client.all_state
                       (HandlerManager.promises (Client.eventHandlers s2)) ps |}]).
  assert (Hall : Client.settle_all 0 s2 = (s3, [], Normal tt)) by reflexivity.
  exists s3, subs, ps.
  split; [|split; [|split; [done|done]]].
  - rewrite (run_reactions_one s _ Hcomp).
    assert (Hboth : (Client.settle_then 0 >> Client.settle_all 0)%comp s
                    = (s3, (subs ++ ((λ '(identifier, action),
                                        Client.Sent c (RotondeConnection.sendAction
                                                         identifier action))
                                       <$> actions)) ++ [],
                       Normal tt))
      by (by rewrite (bind_normal _ _ _ _ _ _ Hthen), Hall).
    rewrite (bind_normal _ _ _ _ _ _ Hboth). simpl. by rewrite !app_nil_r.
  - eapply Forall_impl; [done|]. intros e (identifier' & _ & ->). by eexists.
Qed.



(** ** [bootstrap] when the wait for a definition times out *)

(** The timeout of a promise whose function is alone under its
    identifier. *)
Lemma timeout_elapses_alone (p : nat) (identifier : string) (c : Z)
    (s : HandlerManager.t) :
  HandlerManager.promises s !! p
  = Some {| settled := Promise.Pending; timer := Armed; awaited := identifier |} →
  HandlerManager.get s identifier = Some [(PromiseFn p, c)] →
  ∃ s',
    HandlerManager.timeout_elapses p s
    = (s', [HandlerManager.LastRemoved identifier], Normal tt)
    ∧ HandlerManager.promises s' !! p
      = Some {| settled := Promise.Rejected
                             (Promise.Rejection ("time out " +:+ identifier));
                timer := Fired; awaited := identifier |}.
Proof.
  intros Hp Hs.
  set (s1 := HandlerManager.with_promises s
               (alter (λ c0, {| settled := settled c0; timer := Fired;
                                awaited := awaited c0 |}) p (HandlerManager.promises s))).
  assert (Hs1 : HandlerManager.get s1 identifier = Some ([] ++ (PromiseFn p, c) :: []))
    by done.
  assert (Hd : HandlerManager.detach identifier (PromiseFn p) s1
               = (HandlerManager.with_property
                    (HandlerManager.with_property s1 identifier (Some []))
                    identifier None,
                  [HandlerManager.LastRemoved identifier], Normal tt)).
  { unfold HandlerManager.detach, HandlerManager.property.
    unfold bind at 1. unfold bind at 1. unfold read, ret. cbn beta iota.
    rewrite Hs1. cbn beta iota.
    rewrite (detach_loop_one _ identifier (PromiseFn p) 0 [] [] c s1 Hs1);
      [done|apply not_elem_of_nil|apply not_elem_of_nil|done|simpl; lia]. }
  eexists. split.
  - unfold HandlerManager.timeout_elapses. unfold bind at 1. unfold read. cbn beta iota.
    rewrite Hp. cbn [timer awaited].
    rewrite (bind_normal _ _ s s1 [] tt) by reflexivity.
    unfold HandlerManager.on_timeout.
    rewrite (bind_normal _ _ s1 _ _ tt Hd). reflexivity.
  - simpl. by rewrite !list_lookup_alter_eq, Hp.
Qed.

(** The timer of the awaited promise runs out: the promise of [bootstrap]
    is rejected, and nothing is sent. *)
Lemma wait_times_out (s : Client.t) (c p : nat) (identifier : string)
    (k : list (string * string) * list string * option Z) :
  awaits_definition c p identifier k s →
  truthy_timeout k.2 = true →
  ∃ s',
    Client.task (Client.TimeoutElapses Client.DefinitionHandlers p) s
    = (s', [], Normal tt)
    ∧ rejected_with 0 (Promise.Rejection ("time out " +:+ identifier)) s'.
Proof.
  intros (Hc & Hcomp & Hget & Hcell) Htimeout. rewrite Htimeout in Hcell.
  destruct (timeout_elapses_alone p identifier 1 (Client.definitionHandlers s) Hcell Hget)
    as (h' & Hrun & Hcell').
  set (s1 := Client.set_manager s Client.DefinitionHandlers h').
  assert (Hhandler : Client.handler (Client.TimeoutElapses Client.DefinitionHandlers p) s
                     = (s1, [], Normal tt)).
  { simpl. rewrite on_manager_explicit.
    change (Client.manager_of s Client.DefinitionHandlers)
      with (Client.definitionHandlers s).
    by rewrite Hrun. }
  destruct k as [[actions events] timeout].
  set (rejected := {| Client.source := Client.DefinitionHandlers; Client.waits := [p];
                      Client.continuation := Some (actions, events, timeout);
                      Client.outcome :=
                        Promise.Rejected
                          (Promise.Rejection ("time out " +:+ identifier)) |}).
  exists (Client.set_composites s1 [rejected]). split.
  - rewrite (task_explicit _ s s1 (Client.set_composites s1 [rejected]) [] []
               (Normal tt) Hhandler); [done|].
    rewrite (run_reactions_one s1 _ Hcomp).
    unfold Client.settle_then, Client.settle_all, Client.set_composite,
      Client.all_state, bind, read, write, ret.
    simpl. rewrite Hcomp. simpl. rewrite Hcell'. simpl. by rewrite Hcomp.
  - by exists rejected.
Qed.

(** A rejected promise of the client stays rejected. *)
Lemma rejected_with_run (q : nat) (r : Promise.reason) (inputs : list Client.input)
    (s : Client.t) :
  rejected_with q r s → rejected_with q r (Client.run inputs s).1.
Proof.
  apply (frame_run (rejected_with q r)); try done.
  - intros s' c (c0 & Hc0 & Hr). exists c0.
    split; [simpl; by rewrite (lookup_app_l_Some _ _ _ _ Hc0)|done].
  - intros s' q' k (c0 & Hc0 & Hr). simpl.
    destruct (decide (q' = q)) as [->|Hne].
    + eexists. split; [simpl; by rewrite list_lookup_alter_eq, Hc0|done].
    + exists c0. split; [simpl; by rewrite list_lookup_alter_ne|done].
  - intros s0 q' c (c0 & Hc0 & Hr) Hc Hpending s' c' (c1 & Hc1 & Hr1).
    assert (q' ≠ q) as Hne by (intros ->; congruence).
    exists c1. split; [simpl; by rewrite list_lookup_insert_ne|done].
Qed.


